(** * Pruning a pnpm lockfile for an isolated deploy

    A shallow embedding of [src/deploy/functions/isolate/lockfile.ts]
    and the properties its specification states about it.

    JavaScript objects live in a store: an object is a reference to a cell
    holding its own enumerable string-keyed properties in iteration order
    (array indices first, as JavaScript lists them), so that sharing
    ("copied by reference"), fresh allocation and in-place assignment are
    all visible.  Objects are plain objects, as [yaml.parse] and object
    literals build them; an assignment under the key [__proto__] creates no
    property.  Code that may throw runs in a small state-and-exception monad
    over that store. *)

From Stdlib Require Import Ascii.
From stdpp Require Import base strings list gmap pretty.

Open Scope string_scope.
Open Scope list_scope.
Open Scope nat_scope.

Set Warnings "-register-all,-clear-no-such-hyp".

(** ** Strings *)

(** [s.startsWith(p)]. *)
Definition startsWith (s p : string) : bool := String.prefix p s.

(** [s.replace(/^@/, "")]: drops one leading [@]. *)
Definition strip_leading_at (s : string) : string :=
  match s with
  | String "@"%char rest => rest
  | _ => s
  end.

(** [s.replace(/\//g, "-")]: every [/] becomes [-]. *)
Fixpoint replace_slashes (s : string) : string :=
  match s with
  | EmptyString => EmptyString
  | String c rest =>
      String (if Ascii.eqb c "/" then "-"%char else c) (replace_slashes rest)
  end.

(** [depName.replace(/^@/, "").replace(/\//g, "-")], the [safeName] constant
    of [rewriteImporterDependencies] and of both table loops of
    [pruneLockfile]. *)
Definition safeName (depName : string) : string :=
  replace_slashes (strip_leading_at depName).

(** ** The [path] module

    [path.relative] and [path.join] belong to the Node runtime, not to this
    repository; the development is parametric in them.  The one law recorded
    is Node's documented behaviour that [path.join] never returns a
    zero-length string (it returns ["."] instead).  A POSIX instance is given
    further down and used for the concrete scenarios. *)
Class PathApi := {
  path_relative : string → string → string;
  path_join : string → string → string;
  path_join_nonempty : ∀ a b, path_join a b ≠ "";
}.

Section with_path.
Context `{PathApi}.

Definition getRelativePath (from to : string) : string :=
  let relativePath := path_relative from to in
  if negb (startsWith relativePath ".") then "./" +:+ relativePath
  else relativePath.

End with_path.

(** ** Values and the object store *)

Abbreviation loc := nat.

(** A JavaScript number.  The module never computes with numbers; only
    truthiness looks at them. *)
Inductive number :=
  | NFinite (mantissa exponent : Z)
  | NInfinity (negative : bool)
  | NNaN.

Inductive val :=
  | VUndef
  | VNull
  | VBool (b : bool)
  | VNum (n : number)
  | VStr (s : string)
  | VRef (l : loc).

(** The own enumerable string-keyed properties of one object, in the order
    [Object.entries] lists them.  Objects are plain: their prototype is
    [Object.prototype], as it is for everything [yaml.parse] builds and for
    every object literal of this module. *)
Abbreviation object := (list (string * val)).
Abbreviation heap := (list object).

Global Instance number_eq_dec : EqDecision number.
Proof. solve_decision. Defined.
Global Instance val_eq_dec : EqDecision val.
Proof. solve_decision. Defined.

Definition truthy (v : val) : bool :=
  match v with
  | VUndef | VNull => false
  | VBool b => b
  | VNum (NFinite m _) => negb (m =? 0)%Z
  | VNum (NInfinity _) => true
  | VNum NNaN => false
  | VStr s => negb (String.eqb s "")
  | VRef _ => true
  end.

(** Own-property lookup. *)
Fixpoint obj_get (o : object) (k : string) : option val :=
  match o with
  | [] => None
  | (k', v) :: rest => if String.eqb k' k then Some v else obj_get rest k
  end.

(** An array index: the canonical decimal form of an integer below
    [2^32 - 1].  [Object.entries] lists such keys first, in ascending
    numeric order, whenever they were created. *)
Definition digit (c : ascii) : option N :=
  let n := N_of_ascii c in
  if ((48 <=? n) && (n <=? 57))%N then Some (n - 48)%N else None.

Fixpoint parse_digits (acc : N) (s : string) : option N :=
  match s with
  | EmptyString => Some acc
  | String c rest =>
      match digit c with
      | Some d => parse_digits (10 * acc + d)%N rest
      | None => None
      end
  end.

Definition array_index (k : string) : option N :=
  match k with
  | EmptyString => None
  | String "0"%char EmptyString => Some 0%N
  | String "0"%char _ => None
  | _ =>
      match parse_digits 0 k with
      | Some n => if (n <=? 4294967294)%N then Some n else None
      | None => None
      end
  end.

(** Overwriting the value of an own property: the key keeps its place. *)
Fixpoint obj_replace (o : object) (k : string) (v : val) : object :=
  match o with
  | [] => []
  | (k', v') :: rest =>
      if String.eqb k' k then (k', v) :: rest
      else (k', v') :: obj_replace rest k v
  end.

(** A new array-index key [k] of index [i] goes before the first key that
    is a larger index or no index at all. *)
Fixpoint obj_insert_index (o : object) (i : N) (k : string) (v : val)
    : object :=
  match o with
  | [] => [(k, v)]
  | (k', v') :: rest =>
      match array_index k' with
      | Some j =>
          if (i <? j)%N then (k, v) :: o
          else (k', v') :: obj_insert_index rest i k v
      | None => (k, v) :: o
      end
  end.

(** [o[k] = v] on the own properties of a plain object.  An own key keeps
    its place and takes the value.  Otherwise the key is new, and:
    [__proto__] names the accessor inherited from [Object.prototype], so the
    assignment runs its setter, which adds no own property (it replaces the
    prototype when [v] is an object or [null] and does nothing else);
    an array index is placed among the array indices; any other key goes
    last. *)
Definition obj_set (o : object) (k : string) (v : val) : object :=
  match obj_get o k with
  | Some _ => obj_replace o k v
  | None =>
      if String.eqb k "__proto__" then o
      else
        match array_index k with
        | Some i => obj_insert_index o i k v
        | None => o ++ [(k, v)]
        end
  end.

Definition keys (o : object) : list string := o.*1.

(** [k1] may be listed before [k2]: array indices ascending, then the
    rest. *)
Definition key_before (k1 k2 : string) : bool :=
  match array_index k1, array_index k2 with
  | Some i, Some j => (i <=? j)%N
  | Some _, None => true
  | None, Some _ => false
  | None, None => true
  end.

(** The list is in the order [Object.entries] gives. *)
Fixpoint entries_ordered (o : object) : bool :=
  match o with
  | [] => true
  | (k, _) :: rest =>
      forallb (λ kv, key_before k kv.1) rest && entries_ordered rest
  end.

(** The index-keyed properties of a string primitive, as [Object.entries]
    and object spread see them. *)
Fixpoint string_entries (i : nat) (s : string) : object :=
  match s with
  | EmptyString => []
  | String c rest =>
      (pretty i, VStr (String c EmptyString)) :: string_entries (S i) rest
  end.

(** ** Computations that read and write the store and may throw *)

Inductive error :=
  | TypeError (msg : string)
  | DanglingRef (l : loc)
  | LibraryError (msg : string).

(** [`${err}`] *)
Definition error_text (e : error) : string :=
  match e with
  | TypeError msg => "TypeError: " +:+ msg
  | DanglingRef l => "dangling reference " +:+ pretty l
  | LibraryError msg => msg
  end.

Inductive outcome (A : Type) :=
  | Ok (a : A) (h : heap)
  | Throw (e : error) (h : heap).
Arguments Ok {A} a h.
Arguments Throw {A} e h.

Definition M (A : Type) : Type := heap → outcome A.

Definition ret {A} (a : A) : M A := λ h, Ok a h.
Definition throw {A} (e : error) : M A := λ h, Throw e h.
Definition bind {A B} (c : M A) (f : A → M B) : M B :=
  λ h, match c h with
       | Ok a h' => f a h'
       | Throw e h' => Throw e h'
       end.

Notation "'let!' x ':=' c1 'in' c2" := (bind c1 (λ x, c2))
  (at level 10, x name, c1 at level 100, c2 at level 200).
Notation "c1 ;;; c2" := (bind c1 (λ _, c2))
  (at level 100, c2 at level 200, right associativity).

Definition heap_of {A} (r : outcome A) : heap :=
  match r with Ok _ h => h | Throw _ h => h end.

(** An object literal or [{}]: a new cell at the end of the store. *)
Definition alloc (o : object) : M loc := λ h, Ok (length h) (h ++ [o]).

(** [v.k] for the property names this module reads ([lockfileVersion],
    [importers], [packages], the three dependency categories and
    [specifier]): none of them is a property of a primitive or of
    [Object.prototype], so on a plain object the own property decides.  (An
    object whose prototype an assignment under [__proto__] has replaced is
    searched along its prototype as well.  The module assigns under computed
    keys only to objects it has just created, and reads no property of such
    an object afterwards, except [pruned.importers], an own property by
    then; the properties below that feed a result back into the code
    exclude the keys that would make a later read see the replaced
    prototype.) *)
Definition get_prop (v : val) (k : string) : M val :=
  λ h, match v with
       | VRef l =>
           match h !! l with
           | Some o => Ok (default VUndef (obj_get o k)) h
           | None => Throw (DanglingRef l) h
           end
       | VUndef | VNull => Throw (TypeError "Cannot read properties") h
       | VBool _ | VNum _ | VStr _ => Ok VUndef h
       end.

(** [target[k] = v] on a plain object (strict mode: assigning through a
    primitive throws).  The store records own properties; see [obj_set] for
    the key [__proto__], which creates none. *)
Definition set_prop (target : val) (k : string) (v : val) : M unit :=
  λ h, match target with
       | VRef l =>
           match h !! l with
           | Some o => Ok tt (<[l := obj_set o k v]> h)
           | None => Throw (DanglingRef l) h
           end
       | _ => Throw (TypeError "Cannot set properties") h
       end.

(** [Object.entries(v)]. *)
Definition object_entries (v : val) : M (list (string * val)) :=
  λ h, match v with
       | VRef l =>
           match h !! l with
           | Some o => Ok o h
           | None => Throw (DanglingRef l) h
           end
       | VUndef | VNull =>
           Throw (TypeError "Cannot convert undefined or null to object") h
       | VStr s => Ok (string_entries 0 s) h
       | VBool _ | VNum _ => Ok [] h
       end.

(** [{ ...v }]: a new object with the own properties of [v]. *)
Definition spread (v : val) : M loc :=
  λ h, match v with
       | VRef l =>
           match h !! l with
           | Some o => alloc o h
           | None => Throw (DanglingRef l) h
           end
       | VStr s => alloc (string_entries 0 s) h
       | VUndef | VNull | VBool _ | VNum _ => alloc [] h
       end.

(** [for (const x of xs) body(x)] over an array computed beforehand. *)
Fixpoint for_each {A} (xs : list A) (body : A → M unit) : M unit :=
  match xs with
  | [] => ret tt
  | x :: rest => body x ;;; for_each rest body
  end.

(** [spec?.startsWith(p)] used as a condition. *)
Definition optional_startsWith (spec : val) (p : string) : M bool :=
  match spec with
  | VUndef | VNull => ret false
  | VStr s => ret (startsWith s p)
  | VBool _ | VNum _ | VRef _ =>
      throw (TypeError "startsWith is not a function")
  end.

(** [wp c Q E h]: run from store [h], the computation [c] either returns
    a value and a store satisfying [Q] or throws with a store satisfying
    [E]. *)
Definition wp {A} (c : M A) (Q : A → heap → Prop) (E : error → heap → Prop)
    (h : heap) : Prop :=
  match c h with
  | Ok a h' => Q a h'
  | Throw e h' => E e h'
  end.

(** Postcondition for code that cannot throw. *)
Definition no_throw : error → heap → Prop := λ _ _, False.

(** ** The inputs of [pruneLockfile] *)

(** Modelled from the spec: the type [WorkspaceRegistry] is declared in
    [./types], which is not among the sources; the specification gives its
    interface as [lookup(name) -> { rootRelativeDir } | absent].  The code
    only ever calls [registry.get]. *)
Record WorkspacePackage := { rootRelativeDir : string }.
Abbreviation WorkspaceRegistry := (gmap string WorkspacePackage).

Record RewriteContext := { outputDir : string; workspacesDir : string }.

(** [internalDeps : Set<string>] is a list in insertion order; the code
    only iterates it and calls [has]. *)
Definition set_has (s : list string) (x : string) : bool := bool_decide (x ∈ s).

(** The two entries of a rewritten dependency. *)
Definition file_link_entry (relativePath : string) : object :=
  [("specifier", VStr ("file:" +:+ relativePath));
   ("version", VStr ("link:" +:+ relativePath))].

Section with_path.
Context `{PathApi}.

(** ** [rewriteImporterDependencies] *)

(** The body of the loop over [Object.entries(deps)]. *)
Definition rewriteEntry (result : loc) (internalDeps : list string)
    (importerOutputDir workspacesDir : string)
    (entry : string * val) : M unit :=
  let '(depName, depInfo) := entry in
  let! workspace_link :=
    (if set_has internalDeps depName
     then let! specifier := get_prop depInfo "specifier" in
          optional_startsWith specifier "workspace:"
     else ret false) in
  if workspace_link then
    let safeName := safeName depName in
    let depDir := path_join workspacesDir safeName in
    let relativePath := getRelativePath importerOutputDir depDir in
    let! rewritten := alloc (file_link_entry relativePath) in
    set_prop (VRef result) depName (VRef rewritten)
  else set_prop (VRef result) depName depInfo.

Definition rewriteImporterDependencies (deps : val)
    (internalDeps : list string)
    (importerOutputDir workspacesDir : string) : M val :=
  if negb (truthy deps) then ret deps
  else
    let! result := alloc [] in
    let! entries := object_entries deps in
    for_each entries
      (rewriteEntry result internalDeps importerOutputDir workspacesDir) ;;;
    ret (VRef result).

(** ** [pruneLockfile] *)

Definition relevantDirs (targetRelativeDir : string)
    (internalDeps : list string) (registry : WorkspaceRegistry) : gset string :=
  foldl (λ dirs depName,
           match registry !! depName with
           | Some pkg => dirs ∪ {[rootRelativeDir pkg]}
           | None => dirs
           end)
        {[targetRelativeDir]} internalDeps.

Definition importerPathToOutputDir (targetRelativeDir : string)
    (internalDeps : list string) (registry : WorkspaceRegistry)
    (rewriteContext : option RewriteContext) : gmap string string :=
  match rewriteContext with
  | None => ∅
  | Some rc =>
      foldl (λ table depName,
               match registry !! depName with
               | Some pkg =>
                   <[rootRelativeDir pkg :=
                       path_join (workspacesDir rc) (safeName depName)]> table
               | None => table
               end)
            (<[targetRelativeDir := outputDir rc]> ∅) internalDeps
  end.

Definition importerPathToNewPath (targetRelativeDir : string)
    (internalDeps : list string) (registry : WorkspaceRegistry)
    (rewriteContext : option RewriteContext) : gmap string string :=
  match rewriteContext with
  | None => ∅
  | Some rc =>
      foldl (λ table depName,
               match registry !! depName with
               | Some pkg =>
                   <[rootRelativeDir pkg :=
                       "workspaces/" +:+ safeName depName]> table
               | None => table
               end)
            (<[targetRelativeDir := "."]> ∅) internalDeps
  end.

(** [rewrittenImporter.category = rewriteImporterDependencies(
      importerData.category, ...)]. *)
Definition rewriteCategory (rewrittenImporter : loc) (importerData : val)
    (category : string) (internalDeps : list string)
    (importerOutputDir workspacesDir : string) : M unit :=
  let! deps := get_prop importerData category in
  let! rewritten :=
    rewriteImporterDependencies deps internalDeps
      importerOutputDir workspacesDir in
  set_prop (VRef rewrittenImporter) category rewritten.

(** The body of the loop over [Object.entries(lockfile.importers)]. *)
Definition pruneImporter (pruned : loc) (targetRelativeDir : string)
    (internalDeps : list string) (registry : WorkspaceRegistry)
    (rewriteContext : option RewriteContext)
    (entry : string * val) : M unit :=
  let '(importerPath, importerData) := entry in
  if String.eqb importerPath "." && negb (String.eqb targetRelativeDir ".")
  then ret tt
  else if bool_decide
            (importerPath ∈ relevantDirs targetRelativeDir internalDeps registry)
  then
    let importerOutputDir :=
      importerPathToOutputDir targetRelativeDir internalDeps registry
        rewriteContext !! importerPath in
    let newImporterPath :=
      default importerPath
        (importerPathToNewPath targetRelativeDir internalDeps registry
           rewriteContext !! importerPath) in
    match rewriteContext, importerOutputDir with
    | Some rc, Some dir =>
        if truthy (VStr dir) then
          let! rewrittenImporter := spread importerData in
          rewriteCategory rewrittenImporter importerData "dependencies"
            internalDeps dir (workspacesDir rc) ;;;
          rewriteCategory rewrittenImporter importerData "devDependencies"
            internalDeps dir (workspacesDir rc) ;;;
          rewriteCategory rewrittenImporter importerData "optionalDependencies"
            internalDeps dir (workspacesDir rc) ;;;
          let! importers := get_prop (VRef pruned) "importers" in
          set_prop importers newImporterPath (VRef rewrittenImporter)
        else
          let! importers := get_prop (VRef pruned) "importers" in
          set_prop importers newImporterPath importerData
    | _, _ =>
        let! importers := get_prop (VRef pruned) "importers" in
        set_prop importers newImporterPath importerData
    end
  else ret tt.

Definition reserved_keys : list string :=
  ["lockfileVersion"; "importers"; "packages"].

(** The body of the final loop over [Object.entries(lockfile)]. *)
Definition copyOtherKey (pruned : loc) (entry : string * val) : M unit :=
  let '(key, value) := entry in
  if negb (bool_decide (key ∈ reserved_keys))
  then set_prop (VRef pruned) key value
  else ret tt.

Definition pruneLockfile (lockfile : val) (targetRelativeDir : string)
    (internalDeps : list string) (registry : WorkspaceRegistry)
    (rewriteContext : option RewriteContext) : M val :=
  let! lockfileVersion := get_prop lockfile "lockfileVersion" in
  let! pruned := alloc [("lockfileVersion", lockfileVersion)] in
  let! importers := get_prop lockfile "importers" in
  if negb (truthy importers) then
    let! copy := spread lockfile in
    ret (VRef copy)
  else
    let! new_importers := alloc [] in
    set_prop (VRef pruned) "importers" (VRef new_importers) ;;;
    let! importers := get_prop lockfile "importers" in
    let! entries := object_entries importers in
    for_each entries
      (pruneImporter pruned targetRelativeDir internalDeps registry
         rewriteContext) ;;;
    let! packages := get_prop lockfile "packages" in
    (if truthy packages then
       let! packages := get_prop lockfile "packages" in
       set_prop (VRef pruned) "packages" packages
     else ret tt) ;;;
    let! top_level := object_entries lockfile in
    for_each top_level (copyOtherKey pruned) ;;;
    ret (VRef pruned).

End with_path.

(** ** [readPnpmLockfile] *)

(** What the loader sees of the file system: [fs.existsSync], and
    [fs.readFileSync], which yields the content or throws. *)
Record FileSystem := {
  existsSync : string → bool;
  readFileSync : string → string + string;
}.

(** What a call of the loader produces: the value returned to the caller,
    the messages handed to [logger.debug], and the store. *)
Record Loaded := {
  returned : val;
  logged : list string;
  store : heap;
}.

Section with_path.
Context `{PathApi}.

(** [yaml.parse] is a library function: it builds the parsed tree in the
    store or throws. *)
Definition readPnpmLockfile (yaml_parse : string → M val) (fs : FileSystem)
    (workspaceRoot : string) (h : heap) : Loaded :=
  let lockfilePath := path_join workspaceRoot "pnpm-lock.yaml" in
  if negb (existsSync fs lockfilePath) then
    {| returned := VNull;
       logged := ["No pnpm-lock.yaml found at " +:+ lockfilePath];
       store := h |}
  else
    match readFileSync fs lockfilePath with
    | inr err =>
        {| returned := VNull;
           logged := ["Failed to parse pnpm-lock.yaml: " +:+ err];
           store := h |}
    | inl content =>
        match yaml_parse content h with
        | Ok parsed h' => {| returned := parsed; logged := []; store := h' |}
        | Throw err h' =>
            {| returned := VNull;
               logged := ["Failed to parse pnpm-lock.yaml: " +:+ error_text err];
               store := h' |}
        end
    end.

End with_path.

(** ** A POSIX instance of the [path] module

    Node's [path.posix] algorithms for [normalize], [join], [resolve] and
    [relative], written on path segments.  [cwd] stands for
    [process.cwd()], an absolute path. *)
Module Posix.

Fixpoint segments (s : string) : list string :=
  match s with
  | EmptyString => [EmptyString]
  | String c rest =>
      if Ascii.eqb c "/" then EmptyString :: segments rest
      else match segments rest with
           | seg :: more => String c seg :: more
           | [] => [String c EmptyString]
           end
  end.

Definition join_segments (segs : list string) : string :=
  String.concat "/" segs.

(** [normalizeString]: drops empty and ["."] segments and resolves [".."]
    against the segments kept so far ([stack], innermost first). *)
Fixpoint normalize_segments (allowAboveRoot : bool) (stack segs : list string)
    : list string :=
  match segs with
  | [] => reverse stack
  | seg :: rest =>
      if String.eqb seg "" || String.eqb seg "." then
        normalize_segments allowAboveRoot stack rest
      else if String.eqb seg ".." then
        match stack with
        | top :: below =>
            if String.eqb top ".." then
              normalize_segments allowAboveRoot (".." :: stack) rest
            else normalize_segments allowAboveRoot below rest
        | [] =>
            if allowAboveRoot then
              normalize_segments allowAboveRoot [".."] rest
            else normalize_segments allowAboveRoot [] rest
        end
      else normalize_segments allowAboveRoot (seg :: stack) rest
  end.

Definition isAbsolute (p : string) : bool := startsWith p "/".

Fixpoint endsWithSlash (p : string) : bool :=
  match p with
  | EmptyString => false
  | String c EmptyString => Ascii.eqb c "/"
  | String _ rest => endsWithSlash rest
  end.

Definition normalize (p : string) : string :=
  if String.eqb p "" then "."
  else
    let absolute := isAbsolute p in
    let trailingSeparator := endsWithSlash p in
    let body :=
      join_segments (normalize_segments (negb absolute) [] (segments p)) in
    if String.eqb body "" then
      if absolute then "/" else if trailingSeparator then "./" else "."
    else
      let body := if trailingSeparator then body +:+ "/" else body in
      if absolute then "/" +:+ body else body.

Definition join (a b : string) : string :=
  let joined :=
    if String.eqb a "" then b
    else if String.eqb b "" then a
    else a +:+ "/" +:+ b in
  if String.eqb joined "" then "." else normalize joined.

(** The segments of [path.resolve(p)]. *)
Definition resolve (cwd p : string) : list string :=
  normalize_segments false []
    (segments (if isAbsolute p then p
               else if String.eqb p "" then cwd
               else cwd +:+ "/" +:+ p)).

Fixpoint strip_common (from to : list string) : list string * list string :=
  match from, to with
  | f :: from', t :: to' =>
      if String.eqb f t then strip_common from' to' else (from, to)
  | _, _ => (from, to)
  end.

Definition relative (cwd from to : string) : string :=
  if String.eqb from to then ""
  else
    let '(up, down) := strip_common (resolve cwd from) (resolve cwd to) in
    join_segments (replicate (length up) ".." ++ down).

End Posix.

Global Program Instance posix_path (cwd : string) : PathApi := {|
  path_relative := Posix.relative cwd;
  path_join := Posix.join;
|}.
Next Obligation.
  intros _ a b. unfold Posix.join, Posix.normalize.
  repeat (case_match; try discriminate).
  all: match goal with
       | Hb : String.eqb ?body "" = false |- _ =>
           destruct body; [discriminate Hb | try discriminate]
       end.
Qed.

(** ** Well-typed stores

    The TypeScript interfaces [DependencyEntry], [ImporterData] and
    [PnpmLockfile], read as checks on the store. *)

Definition distinct_keys (o : object) : bool := bool_decide (NoDup (keys o)).

(** No object has the same key twice. *)
Definition store_ok (h : heap) : bool := forallb distinct_keys h.

(** Every reference held by a cell points into the store. *)
Definition val_closed (h : heap) (v : val) : bool :=
  match v with
  | VRef l => bool_decide (l < length h)
  | _ => true
  end.
Definition store_closed (h : heap) : bool :=
  forallb (forallb (λ kv, val_closed h kv.2)) h.

Definition wt_entry (h : heap) (v : val) : bool :=
  match v with
  | VRef l =>
      match h !! l with
      | Some o =>
          match obj_get o "specifier", obj_get o "version" with
          | Some (VStr _), Some (VStr _) => true
          | _, _ => false
          end
      | None => false
      end
  | _ => false
  end.

Definition wt_deps (h : heap) (v : val) : bool :=
  match v with
  | VUndef => true
  | VRef l =>
      match h !! l with
      | Some o => forallb (λ kv, wt_entry h kv.2) o
      | None => false
      end
  | _ => false
  end.

(** [o.k], with an absent property reading as [undefined]. *)
Definition field (o : object) (k : string) : val := default VUndef (obj_get o k).

Definition wt_importer (h : heap) (v : val) : bool :=
  match v with
  | VRef l =>
      match h !! l with
      | Some o =>
          wt_deps h (field o "dependencies")
          && wt_deps h (field o "devDependencies")
          && wt_deps h (field o "optionalDependencies")
      | None => false
      end
  | _ => false
  end.

Definition wt_importers (h : heap) (v : val) : bool :=
  match v with
  | VUndef => true
  | VRef l =>
      match h !! l with
      | Some o => forallb (λ kv, wt_importer h kv.2) o
      | None => false
      end
  | _ => false
  end.

Definition wt_lockfile (h : heap) (v : val) : bool :=
  match v with
  | VRef l =>
      match h !! l with
      | Some o =>
          match obj_get o "lockfileVersion" with
          | Some (VStr _) | Some (VNum _) => true
          | _ => false
          end
          && wt_importers h (field o "importers")
          && match field o "packages" with
             | VUndef => true
             | VRef lp => bool_decide (lp < length h)
             | _ => false
             end
      | None => false
      end
  | _ => false
  end.

(** ** Deep equality

    The tree a value unfolds to, down to a given depth. *)
Inductive tree :=
  | TLeaf (v : val)
  | TObj (props : list (string * tree))
  | TCut.

Fixpoint snapshot (depth : nat) (h : heap) (v : val) : tree :=
  match v with
  | VRef l =>
      match depth, h !! l with
      | S depth', Some o =>
          TObj (map (λ kv, (kv.1, snapshot depth' h kv.2)) o)
      | _, _ => TCut
      end
  | _ => TLeaf v
  end.

Definition deep_equal (h1 : heap) (v1 : val) (h2 : heap) (v2 : val) : Prop :=
  ∀ depth, snapshot depth h1 v1 = snapshot depth h2 v2.

(** ** What the rewriter is specified to produce *)

Definition specifier_of (h : heap) (depInfo : val) : option string :=
  match depInfo with
  | VRef l =>
      match h !! l with
      | Some o =>
          match obj_get o "specifier" with
          | Some (VStr s) => Some s
          | _ => None
          end
      | None => None
      end
  | _ => None
  end.

(** The name is an internal dependency and the specifier starts with
    [workspace:]. *)
Definition is_workspace_link (h : heap) (internalDeps : list string)
    (depName : string) (depInfo : val) : bool :=
  set_has internalDeps depName
  && match specifier_of h depInfo with
     | Some s => startsWith s "workspace:"
     | None => false
     end.

Section with_path.
Context `{PathApi}.

(** [{ specifier: "file:" + rel, version: "link:" + rel }] with
    [rel = relativePath(newImporterDir, workspacesDir / safeName(name))]. *)
Definition relocated_entry (newImporterDir workspacesDir depName : string)
    : object :=
  file_link_entry
    (getRelativePath newImporterDir (path_join workspacesDir (safeName depName))).

(** A key under which an assignment to a new object creates a property. *)
Definition creates_property (k : string) : Prop := k ≠ "__proto__".

Global Instance creates_property_dec k : Decision (creates_property k).
Proof. unfold creates_property. apply _. Defined.

(** [res] is the rewrite of the mapping [es].  Its keys are the keys of
    [es] other than [__proto__], in the same order when [es] is in
    [Object.entries] order.  Under such a key, a workspace link of an
    internal dependency is a new object (at or above [fresh]) holding the
    relocated entry, anything else is the very value the input had. *)
Definition rewrites_to (fresh : nat) (hin hout : heap)
    (internalDeps : list string) (newImporterDir workspacesDir : string)
    (es res : object) : Prop :=
  entries_ordered res = true ∧
  keys res ≡ₚ filter creates_property (keys es) ∧
  (entries_ordered es = true → keys res = filter creates_property (keys es)) ∧
  ∀ depName depInfo, (depName, depInfo) ∈ es → creates_property depName →
    if is_workspace_link hin internalDeps depName depInfo
    then ∃ e, obj_get res depName = Some (VRef e) ∧ fresh ≤ e ∧
              hout !! e = Some (relocated_entry newImporterDir workspacesDir depName)
    else obj_get res depName = Some depInfo.

(** The state of the loop after the entries [done]: the store has grown by
    the result object [res] and the relocated entries [news]. *)
Definition rewrite_progress (h : heap) (internalDeps : list string)
    (out ws : string) (done res : object) (news : heap) : Prop :=
  entries_ordered res = true ∧
  keys res ≡ₚ filter creates_property (keys done) ∧
  (entries_ordered done = true →
   keys res = filter creates_property (keys done)) ∧
  ∀ k d, (k, d) ∈ done → creates_property k →
    if is_workspace_link h internalDeps k d
    then ∃ i, obj_get res k = Some (VRef (S (length h + i))) ∧
              news !! i = Some (relocated_entry out ws k)
    else obj_get res k = Some d.

(** The value a dependency category is replaced by. *)
Definition deps_rewritten (fresh : nat) (hin hout : heap)
    (internalDeps : list string) (newImporterDir workspacesDir : string)
    (orig new : val) : Prop :=
  match orig with
  | VRef l =>
      ∃ es r res, hin !! l = Some es ∧ new = VRef r ∧ fresh ≤ r ∧
                  hout !! r = Some res ∧
                  rewrites_to fresh hin hout internalDeps
                    newImporterDir workspacesDir es res
  | _ => new = orig
  end.

(** [copy] is a rewritten shallow copy of the importer [o]. *)
Definition rewritten_importer (fresh : nat) (hin hout : heap)
    (internalDeps : list string) (newImporterDir workspacesDir : string)
    (o copy : object) : Prop :=
  ∃ d1 d2 d3,
    copy = obj_set (obj_set (obj_set o "dependencies" d1)
                      "devDependencies" d2) "optionalDependencies" d3 ∧
    deps_rewritten fresh hin hout internalDeps newImporterDir workspacesDir
      (field o "dependencies") d1 ∧
    deps_rewritten fresh hin hout internalDeps newImporterDir workspacesDir
      (field o "devDependencies") d2 ∧
    deps_rewritten fresh hin hout internalDeps newImporterDir workspacesDir
      (field o "optionalDependencies") d3.

(** The loop of [pruneLockfile] keeps an importer. *)
Definition kept (targetRelativeDir : string) (internalDeps : list string)
    (registry : WorkspaceRegistry) (importerPath : string) : Prop :=
  ¬ (importerPath = "." ∧ targetRelativeDir ≠ ".") ∧
  importerPath ∈ relevantDirs targetRelativeDir internalDeps registry.

(** The key a kept importer is stored under. *)
Definition emitted_key (targetRelativeDir : string) (internalDeps : list string)
    (registry : WorkspaceRegistry) (rewriteContext : option RewriteContext)
    (importerPath : string) : string :=
  default importerPath
    (importerPathToNewPath targetRelativeDir internalDeps registry
       rewriteContext !! importerPath).

(** The condition [rewriteContext && importerOutputDir], with the output
    directory it found. *)
Definition rewrite_dir (targetRelativeDir : string) (internalDeps : list string)
    (registry : WorkspaceRegistry) (rewriteContext : option RewriteContext)
    (importerPath : string) : option (string * string) :=
  match rewriteContext,
        importerPathToOutputDir targetRelativeDir internalDeps registry
          rewriteContext !! importerPath with
  | Some rc, Some dir =>
      if truthy (VStr dir) then Some (dir, workspacesDir rc) else None
  | _, _ => None
  end.

End with_path.

(** ** What the pruner is specified to produce *)

(** What the importer loop relies on to leave the input alone: the store
    still begins with the input store [h0], and [pruned.importers] is the
    object [b] allocated by this call. *)
Definition importers_slot (h0 : heap) (pruned b : loc) (h : heap) : Prop :=
  h0 `prefix_of` h ∧ length h0 ≤ b ∧ b ≠ pruned ∧
  ∃ P, h !! pruned = Some P ∧ obj_get P "importers" = Some (VRef b).

(** Cells at or above [n] that [hA] holds are the same in [hB]. *)
Definition stable_above (n : nat) (hA hB : heap) : Prop :=
  ∀ l o, n ≤ l → hA !! l = Some o → hB !! l = Some o.

Section with_path.
Context `{PathApi}.

(** The value stored for a kept importer [d]: a new rewritten shallow copy
    when the rewrite branch is taken with output directory [dir], the
    importer object itself otherwise. *)
Definition importer_emitted (fresh : nat) (hin hout : heap)
    (internalDeps : list string) (branch : option (string * string))
    (d v : val) : Prop :=
  match branch with
  | None => v = d
  | Some (dir, ws) =>
      ∃ lo o c copy,
        d = VRef lo ∧ hin !! lo = Some o ∧ v = VRef c ∧ fresh ≤ c ∧
        hout !! c = Some copy ∧
        rewritten_importer fresh hin hout internalDeps dir ws o copy
  end.

(** [I] is the [importers] object built from the input importers [ies]:
    it is a property list without repeated keys, in [Object.entries]
    order; every kept importer has its key in [I], unless that key is
    [__proto__]; and every entry of [I] comes from a kept importer, under
    its emitted key. *)
Definition importers_pruned (fresh : nat) (hin hout : heap)
    (targetRelativeDir : string) (internalDeps : list string)
    (registry : WorkspaceRegistry) (rewriteContext : option RewriteContext)
    (ies I : object) : Prop :=
  NoDup (keys I) ∧ entries_ordered I = true ∧
  (∀ p d, (p, d) ∈ ies → kept targetRelativeDir internalDeps registry p →
     creates_property
       (emitted_key targetRelativeDir internalDeps registry rewriteContext p) →
     emitted_key targetRelativeDir internalDeps registry rewriteContext p
       ∈ keys I) ∧
  (∀ k v, (k, v) ∈ I →
     ∃ p d, (p, d) ∈ ies ∧ kept targetRelativeDir internalDeps registry p ∧
            k = emitted_key targetRelativeDir internalDeps registry
                  rewriteContext p ∧
            importer_emitted fresh hin hout internalDeps
              (rewrite_dir targetRelativeDir internalDeps registry
                 rewriteContext p) d v).

End with_path.

(** The top-level object after the final loop over [Object.entries(lockfile)]
    has run on [P]. *)
Definition copy_keys (P top : object) : object :=
  foldl (λ P kv, if bool_decide (kv.1 ∈ reserved_keys) then P
                 else obj_set P kv.1 kv.2) P top.

(** The object [pruneLockfile] returns for a lockfile [top] with importers:
    [lockfileVersion] and the new [importers] object, then [packages] when
    it is truthy, then what the final loop assigns. *)
Definition pruned_top (importers : loc) (top : object) : object :=
  let P0 := [("lockfileVersion", field top "lockfileVersion");
             ("importers", VRef importers)] in
  copy_keys
    (if truthy (field top "packages")
     then obj_set P0 "packages" (field top "packages") else P0)
    top.


(** [v.k1.k2...]: following property names from a value. *)
Fixpoint get_path (h : heap) (v : val) (path : list string) : val :=
  match path with
  | [] => v
  | k :: rest =>
      match v with
      | VRef l =>
          match h !! l with
          | Some o => get_path h (field o k) rest
          | None => VUndef
          end
      | _ => VUndef
      end
  end.

(** ** Sample environments for the loader

    [yaml.parse] is a library function; the properties of the loader hold
    for any parser.  The concrete runs use this stand-in, defined on the
    documents they read: a one-line lockfile, the empty document (which
    [yaml.parse] turns into [null]); any other text is rejected with the
    parse error [yaml] raises for an unterminated flow mapping. *)
Definition sample_yaml_parse (content : string) : M val :=
  if String.eqb content "lockfileVersion: '9.0'" then
    let! doc := alloc [("lockfileVersion", VStr "9.0")] in
    ret (VRef doc)
  else if String.eqb content "" then ret VNull
  else throw (LibraryError "YAMLParseError: Flow map must end with a }").

(** A file system with no file at all. *)
Definition fs_empty : FileSystem := {|
  existsSync := λ _, false;
  readFileSync := λ _, inr "Error: ENOENT: no such file or directory";
|}.

(** A file system holding one file. *)
Definition fs_single (file content : string) : FileSystem := {|
  existsSync := λ p, String.eqb p file;
  readFileSync := λ p,
    if String.eqb p file then inl content
    else inr "Error: ENOENT: no such file or directory";
|}.

(** ** A sample monorepo lockfile

    Cell 0 is the lockfile, cell 1 its [importers], cells 2 and 4 the
    importers of the workspace root and of [packages/a], cell 5 the
    [dependencies] of [packages/a] with one workspace link ([@scope/b]), one
    registry dependency ([lodash]) and one internal name pinned to a version
    ([@scope/c]); cell 7 is [packages], cell 10 the importer of
    [packages/b]. *)
Definition sample_store : heap :=
  [ [("lockfileVersion", VStr "9.0"); ("settings", VRef 11);
     ("importers", VRef 1); ("packages", VRef 7)];
    [(".", VRef 2); ("packages/a", VRef 4); ("packages/b", VRef 10);
     ("packages/z", VRef 10)];
    [("dependencies", VRef 3)];
    [];
    [("dependencies", VRef 5); ("publishDirectory", VStr "dist")];
    [("@scope/b", VRef 6); ("lodash", VRef 8); ("@scope/c", VRef 9)];
    [("specifier", VStr "workspace:*"); ("version", VStr "link:../b")];
    [];
    [("specifier", VStr "^4.0.0"); ("version", VStr "4.17.21")];
    [("specifier", VStr "1.2.3"); ("version", VStr "1.2.3")];
    [("devDependencies", VRef 3)];
    [("autoInstallPeers", VBool true)] ].

Definition sample_internalDeps : list string := ["@scope/b"; "@scope/c"].

Definition sample_registry : WorkspaceRegistry :=
  {[ "@scope/b" := {| rootRelativeDir := "packages/b" |} ]}.

Definition sample_context : RewriteContext :=
  {| outputDir := "/out"; workspacesDir := "/out/workspaces" |}.

(** What [yaml.parse] builds for a lockfile with a top-level key [7], a
    top-level key [__proto__] and a dependency named [__proto__]: the parser
    defines every key of a mapping as an own property, and [Object.entries]
    lists the array index first.  Cell 0 is the lockfile, cell 1 its
    [importers], cell 4 the importer of [packages/a], cell 5 its
    [dependencies]. *)
Definition store_unusual_keys : heap :=
  [ [("7", VStr "seven"); ("lockfileVersion", VStr "9.0");
     ("importers", VRef 1); ("__proto__", VRef 2); ("overrides", VRef 3)];
    [("packages/a", VRef 4)];
    [("packages", VRef 3)];
    [];
    [("dependencies", VRef 5)];
    [("__proto__", VRef 6); ("lodash", VRef 7)];
    [("specifier", VStr "^1.0.0"); ("version", VStr "1.0.0")];
    [("specifier", VStr "^4.0.0"); ("version", VStr "4.17.21")] ].

(** A single-package lockfile: no [importers]. *)
Definition store_no_importers : heap :=
  [[("lockfileVersion", VStr "9.0"); ("packages", VRef 1)]; []].

(** ** Notions used by the further properties *)

(** [s.includes(c)] for a single character. *)
Fixpoint contains_char (c : ascii) (s : string) : bool :=
  match s with
  | EmptyString => false
  | String c' rest => Ascii.eqb c' c || contains_char c rest
  end.

(** The two tests of the importer loop, as one boolean: not the skipped
    root, and in [relevantDirs]. *)
Definition keptb (targetRelativeDir : string) (internalDeps : list string)
    (registry : WorkspaceRegistry) (importerPath : string) : bool :=
  negb (String.eqb importerPath "." && negb (String.eqb targetRelativeDir "."))
  && bool_decide
       (importerPath ∈ relevantDirs targetRelativeDir internalDeps registry).

(** The importers the loop stores under their own path as own properties:
    kept, and not under the key [__proto__]. *)
Definition storedb (targetRelativeDir : string) (internalDeps : list string)
    (registry : WorkspaceRegistry) (importerPath : string) : bool :=
  keptb targetRelativeDir internalDeps registry importerPath
  && negb (String.eqb importerPath "__proto__").

(** The entries of the input lockfile that the final loop turns into own
    properties of the result: those outside the three reserved keys, and
    not [__proto__]. *)
Definition other_entries (top : object) : object :=
  List.filter (λ kv, negb (bool_decide (kv.1 ∈ reserved_keys))
                     && negb (String.eqb kv.1 "__proto__")) top.

(** The entries under array-index keys, and the others. *)
Definition has_index_key (kv : string * val) : bool :=
  match array_index kv.1 with Some _ => true | None => false end.
Definition index_entries (o : object) : object := List.filter has_index_key o.
Definition named_entries (o : object) : object :=
  List.filter (λ kv, negb (has_index_key kv)) o.

(** * Properties *)

(** ** Property lists *)

Lemma obj_get_None o k : obj_get o k = None ↔ k ∉ keys o.
Proof.
  unfold keys. induction o as [|[k' v'] o IH]; simpl.
  - split; [intros _; apply not_elem_of_nil | done].
  - rewrite not_elem_of_cons. destruct (String.eqb_spec k' k) as [->|Hne].
    + split; [done | by intros [? _]].
    + rewrite IH. naive_solver.
Qed.

Lemma obj_get_Some_elem o k v : obj_get o k = Some v → (k, v) ∈ o.
Proof.
  induction o as [|[k' v'] o IH]; simpl; [done|].
  destruct (String.eqb_spec k' k) as [->|Hne].
  - intros [= ->]. apply list_elem_of_here.
  - intros Hg. apply list_elem_of_further. by apply IH.
Qed.

Lemma obj_get_elem_NoDup o k v :
  NoDup (keys o) → (k, v) ∈ o → obj_get o k = Some v.
Proof.
  unfold keys. induction o as [|[k' v'] o IH]; simpl.
  - intros _ Hin. by apply elem_of_nil in Hin.
  - rewrite NoDup_cons. intros [Hnin Hnd] Hin.
    apply elem_of_cons in Hin as [[= -> ->]|Hin].
    + by rewrite String.eqb_refl.
    + destruct (String.eqb_spec k' k) as [->|Hne]; [|by apply IH].
      exfalso. apply Hnin. apply list_elem_of_fmap. by exists (k, v).
Qed.

Lemma obj_get_app o1 o2 k :
  obj_get (o1 ++ o2) k =
  match obj_get o1 k with Some v => Some v | None => obj_get o2 k end.
Proof.
  induction o1 as [|[k' v'] o1 IH]; simpl; [done|].
  by destruct (String.eqb k' k).
Qed.

Lemma obj_get_key o k v : obj_get o k = Some v → k ∈ keys o.
Proof.
  intros Hg. destruct (decide (k ∈ keys o)) as [|Hn]; [done|].
  apply obj_get_None in Hn. congruence.
Qed.

(** *** Overwriting an own property *)

Lemma keys_obj_replace o k v : keys (obj_replace o k v) = keys o.
Proof.
  unfold keys. induction o as [|[k' v'] o IH]; simpl; [done|].
  destruct (String.eqb k' k); [done|]. rewrite !fmap_cons. by f_equal.
Qed.

Lemma obj_get_replace_eq o k v :
  k ∈ keys o → obj_get (obj_replace o k v) k = Some v.
Proof.
  unfold keys. induction o as [|[k' v'] o IH]; simpl.
  - intros Hin. by apply elem_of_nil in Hin.
  - intros Hin. destruct (String.eqb_spec k' k) as [->|Hne]; simpl.
    + by rewrite String.eqb_refl.
    + destruct (String.eqb_spec k' k); [done|].
      apply IH. apply elem_of_cons in Hin as [?|?]; [by subst | done].
Qed.

Lemma obj_get_replace_ne o k v k' :
  k ≠ k' → obj_get (obj_replace o k v) k' = obj_get o k'.
Proof.
  intros Hne. induction o as [|[k0 v0] o IH]; simpl; [done|].
  destruct (String.eqb_spec k0 k) as [->|Hne0]; simpl.
  - by destruct (String.eqb_spec k k').
  - by rewrite IH.
Qed.

Lemma elem_of_obj_replace o k v k' v' :
  (k', v') ∈ obj_replace o k v → (k', v') = (k, v) ∨ (k', v') ∈ o.
Proof.
  induction o as [|[k0 v0] o IH]; simpl; [by right|].
  destruct (String.eqb_spec k0 k) as [->|Hne];
    rewrite !elem_of_cons; naive_solver.
Qed.

(** *** Placing a new array-index key *)

Lemma obj_insert_index_perm o i k v : obj_insert_index o i k v ≡ₚ (k, v) :: o.
Proof.
  induction o as [|[k' v'] o IH]; simpl; [done|].
  destruct (array_index k') as [j|]; [|done].
  destruct (i <? j)%N; [done|].
  rewrite IH. apply Permutation_swap.
Qed.

Lemma obj_get_insert_index_ne o i k v k' :
  k ≠ k' → obj_get (obj_insert_index o i k v) k' = obj_get o k'.
Proof.
  intros Hne. induction o as [|[k0 v0] o IH]; simpl.
  - by destruct (String.eqb_spec k k').
  - destruct (array_index k0) as [j|]; [destruct (i <? j)%N|]; simpl.
    + by destruct (String.eqb_spec k k').
    + by rewrite IH.
    + by destruct (String.eqb_spec k k').
Qed.

Lemma obj_get_insert_index_eq o i k v :
  k ∉ keys o → obj_get (obj_insert_index o i k v) k = Some v.
Proof.
  unfold keys. induction o as [|[k0 v0] o IH]; simpl.
  - by rewrite String.eqb_refl.
  - rewrite not_elem_of_cons. intros [Hne Hnin].
    destruct (array_index k0) as [j|]; [destruct (i <? j)%N|]; simpl.
    + by rewrite String.eqb_refl.
    + destruct (String.eqb_spec k0 k); [done | by apply IH].
    + by rewrite String.eqb_refl.
Qed.

(** *** Assignment *)

(** What an assignment does to the key list: nothing (an own key, or
    [__proto__]), or one new key. *)
Lemma keys_obj_set_cases o k v :
  keys (obj_set o k v) = keys o ∨
  ((k ∉ keys o) ∧ k ≠ "__proto__" ∧ keys (obj_set o k v) ≡ₚ k :: keys o).
Proof.
  unfold obj_set. destruct (obj_get o k) as [v0|] eqn:Hg.
  - left. apply keys_obj_replace.
  - apply obj_get_None in Hg.
    destruct (String.eqb_spec k "__proto__") as [->|Hne]; [by left|].
    right. split; [done|]. split; [done|].
    unfold keys. destruct (array_index k) as [i|].
    + by rewrite obj_insert_index_perm.
    + rewrite fmap_app. simpl. by rewrite <- Permutation_cons_append.
Qed.

Lemma obj_get_set_eq o k v :
  k ≠ "__proto__" → obj_get (obj_set o k v) k = Some v.
Proof.
  intros Hne. unfold obj_set. destruct (obj_get o k) as [v0|] eqn:Hg.
  - apply obj_get_replace_eq. by eapply obj_get_key.
  - destruct (String.eqb_spec k "__proto__"); [done|].
    destruct (array_index k) as [i|].
    + apply obj_get_insert_index_eq. by apply obj_get_None.
    + rewrite obj_get_app, Hg. simpl. by rewrite String.eqb_refl.
Qed.

Lemma obj_get_set_ne o k v k' :
  k ≠ k' → obj_get (obj_set o k v) k' = obj_get o k'.
Proof.
  intros Hne. unfold obj_set. destruct (obj_get o k) as [v0|] eqn:Hg.
  - by apply obj_get_replace_ne.
  - destruct (String.eqb k "__proto__"); [done|].
    destruct (array_index k) as [i|].
    + by apply obj_get_insert_index_ne.
    + rewrite obj_get_app. destruct (obj_get o k'); [done|]. simpl.
      by destruct (String.eqb_spec k k').
Qed.

(** A new [__proto__] key leaves the own properties as they are. *)
Lemma obj_set_proto o v :
  "__proto__" ∉ keys o → obj_set o "__proto__" v = o.
Proof. intros Hn. apply obj_get_None in Hn. unfold obj_set. by rewrite Hn. Qed.

Lemma elem_of_obj_set o k v k' v' :
  (k', v') ∈ obj_set o k v → (k', v') = (k, v) ∨ (k', v') ∈ o.
Proof.
  unfold obj_set. destruct (obj_get o k) as [v0|].
  - apply elem_of_obj_replace.
  - destruct (String.eqb k "__proto__"); [by right|].
    destruct (array_index k) as [i|].
    + rewrite obj_insert_index_perm, elem_of_cons. naive_solver.
    + rewrite elem_of_app, list_elem_of_singleton. naive_solver.
Qed.

Lemma keys_obj_set_inv o k v k' :
  k' ∈ keys (obj_set o k v) → (k' = k ∧ k ≠ "__proto__") ∨ k' ∈ keys o.
Proof.
  destruct (keys_obj_set_cases o k v) as [->|(_ & Hne & ->)]; [by right|].
  rewrite elem_of_cons. naive_solver.
Qed.

Lemma keys_obj_set_old o k v k' :
  k' ∈ keys o → k' ∈ keys (obj_set o k v).
Proof.
  destruct (keys_obj_set_cases o k v) as [->|(_ & _ & ->)]; [done|].
  apply list_elem_of_further.
Qed.

Lemma keys_obj_set_new o k v :
  k ≠ "__proto__" → k ∈ keys (obj_set o k v).
Proof.
  intros Hne. eapply obj_get_key. by apply obj_get_set_eq.
Qed.

Lemma NoDup_obj_set o k v : NoDup (keys o) → NoDup (keys (obj_set o k v)).
Proof.
  intros Hnd. destruct (keys_obj_set_cases o k v) as [->|(Hn & _ & ->)]; [done|].
  by apply NoDup_cons.
Qed.

(** *** The order of the keys *)

Lemma key_before_plain k1 k2 : array_index k2 = None → key_before k1 k2 = true.
Proof. unfold key_before. intros ->. by destruct (array_index k1). Qed.

Lemma entries_ordered_cons k v o :
  entries_ordered ((k, v) :: o) = true ↔
  (∀ k', k' ∈ keys o → key_before k k' = true) ∧ entries_ordered o = true.
Proof.
  simpl. rewrite andb_true_iff, forallb_forall. split.
  - intros [Hall Ho]. split; [|done]. intros k' Hin.
    apply list_elem_of_fmap in Hin as ([k0 v0] & -> & Hin).
    apply (Hall (k0, v0)). by apply list_elem_of_In.
  - intros [Hall Ho]. split; [|done]. intros [k0 v0] Hin.
    apply Hall. apply list_elem_of_fmap. exists (k0, v0).
    split; [done|]. by apply list_elem_of_In.
Qed.

Lemma entries_ordered_snoc o k v :
  entries_ordered (o ++ [(k, v)]) = true ↔
  entries_ordered o = true ∧ ∀ k', k' ∈ keys o → key_before k' k = true.
Proof.
  induction o as [|[k0 v0] o IH].
  - simpl. split; [|done]. intros _. split; [done|].
    intros k' Hin. by apply elem_of_nil in Hin.
  - change (((k0, v0) :: o) ++ [(k, v)]) with ((k0, v0) :: (o ++ [(k, v)])).
    rewrite !entries_ordered_cons, IH. unfold keys. rewrite fmap_app. simpl.
    split.
    + intros (Hhead & Ho & Hlast). split.
      * split; [|done]. intros k' Hin. apply Hhead, elem_of_app. by left.
      * intros k' Hin. apply elem_of_cons in Hin as [->|Hin]; [|by apply Hlast].
        apply Hhead, elem_of_app. right. apply list_elem_of_singleton. done.
    + intros ((Hhead & Ho) & Hlast). split; [|split; [done|]].
      * intros k' Hin. apply elem_of_app in Hin as [Hin|Hin]; [by apply Hhead|].
        apply list_elem_of_singleton in Hin as ->. apply Hlast, list_elem_of_here.
      * intros k' Hin. by apply Hlast, list_elem_of_further.
Qed.

Lemma entries_ordered_replace o k v :
  entries_ordered o = true → entries_ordered (obj_replace o k v) = true.
Proof.
  induction o as [|[k0 v0] o IH]; [done|].
  intros Ho. apply entries_ordered_cons in Ho as [Hhead Ho]. simpl.
  destruct (String.eqb k0 k).
  - by apply entries_ordered_cons.
  - apply entries_ordered_cons. rewrite keys_obj_replace. auto.
Qed.

Lemma entries_ordered_insert_index o i k v :
  array_index k = Some i → entries_ordered o = true →
  entries_ordered (obj_insert_index o i k v) = true.
Proof.
  intros Hk. induction o as [|[k0 v0] o IH]; [done|].
  intros Ho. pose proof Ho as Ho'.
  apply entries_ordered_cons in Ho as [Hhead Ho]. simpl.
  destruct (array_index k0) as [j|] eqn:Hk0.
  - destruct (i <? j)%N eqn:Hij.
    + apply entries_ordered_cons. split; [|done].
      intros k' Hin. unfold keys in Hin. simpl in Hin.
      apply N.ltb_lt in Hij.
      assert (Hfirst : key_before k k0 = true).
      { unfold key_before. rewrite Hk, Hk0. apply N.leb_le. lia. }
      apply elem_of_cons in Hin as [->|Hin]; [done|].
      specialize (Hhead k' Hin). unfold key_before in *.
      rewrite Hk. rewrite Hk0 in Hhead.
      destruct (array_index k') as [j'|]; [|done].
      apply N.leb_le in Hhead. apply N.leb_le. lia.
    + apply entries_ordered_cons. split; [|by apply IH].
      intros k' Hin. unfold keys in Hin.
      rewrite obj_insert_index_perm in Hin. simpl in Hin.
      apply elem_of_cons in Hin as [->|Hin]; [|by apply Hhead].
      unfold key_before. rewrite Hk0, Hk. apply N.leb_le.
      apply N.ltb_ge in Hij. lia.
  - apply entries_ordered_cons. split; [|done].
    intros k' Hin. unfold keys in Hin. simpl in Hin.
    assert (Hplain : ∀ k1, k1 ∈ keys o → array_index k1 = None).
    { intros k1 Hin1. specialize (Hhead k1 Hin1). unfold key_before in Hhead.
      rewrite Hk0 in Hhead. by destruct (array_index k1). }
    apply elem_of_cons in Hin as [->|Hin]; apply key_before_plain; auto.
Qed.

Lemma entries_ordered_obj_set o k v :
  entries_ordered o = true → entries_ordered (obj_set o k v) = true.
Proof.
  intros Ho. unfold obj_set. destruct (obj_get o k) as [v0|].
  - by apply entries_ordered_replace.
  - destruct (String.eqb k "__proto__"); [done|].
    destruct (array_index k) as [i|] eqn:Hk.
    + by apply entries_ordered_insert_index.
    + apply entries_ordered_snoc. split; [done|].
      intros k' _. by apply key_before_plain.
Qed.

Lemma obj_insert_index_last o i k v :
  array_index k = Some i → (∀ k', k' ∈ keys o → key_before k' k = true) →
  obj_insert_index o i k v = o ++ [(k, v)].
Proof.
  intros Hk. unfold keys. induction o as [|[k0 v0] o IH]; simpl; [done|].
  intros Hall. pose proof (Hall k0 (list_elem_of_here _ _)) as Hk0.
  unfold key_before in Hk0. rewrite Hk in Hk0.
  destruct (array_index k0) as [j|]; [|done].
  apply N.leb_le in Hk0.
  destruct (N.ltb_spec i j); [lia|].
  rewrite IH; [done|]. intros k' Hin. by apply Hall, list_elem_of_further.
Qed.

(** Filling an object in the order [Object.entries] would list the keys:
    every new key goes last. *)
Lemma obj_set_last o k v :
  k ∉ keys o → k ≠ "__proto__" →
  (∀ k', k' ∈ keys o → key_before k' k = true) →
  obj_set o k v = o ++ [(k, v)].
Proof.
  intros Hn Hne Hall. apply obj_get_None in Hn. unfold obj_set. rewrite Hn.
  destruct (String.eqb_spec k "__proto__"); [done|].
  destruct (array_index k) as [i|] eqn:Hk; [|done].
  by apply obj_insert_index_last.
Qed.

Lemma entries_ordered_app o1 o2 :
  entries_ordered (o1 ++ o2) = true ↔
  entries_ordered o1 = true ∧ entries_ordered o2 = true ∧
  ∀ k1 k2, k1 ∈ keys o1 → k2 ∈ keys o2 → key_before k1 k2 = true.
Proof.
  induction o1 as [|[k v] o1 IH].
  - simpl. split; [|by intros (_ & ? & _)]. intros Ho. split; [done|].
    split; [done|]. intros k1 k2 Hin. by apply elem_of_nil in Hin.
  - change (((k, v) :: o1) ++ o2) with ((k, v) :: (o1 ++ o2)).
    rewrite !entries_ordered_cons, IH. unfold keys. rewrite fmap_app. simpl.
    split.
    + intros (Hhead & Ho1 & Ho2 & Hcross). split; [split; [|done]|split; [done|]].
      * intros k' Hin. apply Hhead, elem_of_app. by left.
      * intros k1 k2 Hin1 Hin2. apply elem_of_cons in Hin1 as [->|Hin1].
        -- apply Hhead, elem_of_app. by right.
        -- by apply Hcross.
    + intros ((Hhead & Ho1) & Ho2 & Hcross). split; [|split; [done|split; [done|]]].
      * intros k' Hin. apply elem_of_app in Hin as [Hin|Hin]; [by apply Hhead|].
        apply Hcross; [apply list_elem_of_here | done].
      * intros k1 k2 Hin1 Hin2. apply Hcross; [|done].
        by apply list_elem_of_further.
Qed.

Lemma list_filter_all {A} (P : A → Prop) `{∀ x, Decision (P x)} (l : list A) :
  (∀ x, x ∈ l → P x) → filter P l = l.
Proof.
  induction l as [|x l IH]; intros Hall; [done|].
  rewrite filter_cons. destruct (decide (P x)) as [_|Hn].
  - f_equal. apply IH. intros y Hy. by apply Hall, list_elem_of_further.
  - exfalso. apply Hn, Hall, list_elem_of_here.
Qed.

(** A key that is no array index and not [__proto__] goes last. *)
Lemma obj_set_new o k v :
  k ∉ keys o → k ≠ "__proto__" → array_index k = None →
  obj_set o k v = o ++ [(k, v)].
Proof.
  intros Hn Hne Hk. apply obj_set_last; [done..|].
  intros k' _. by apply key_before_plain.
Qed.

(** ** Stores *)

Lemma lookup_snoc_new (h : heap) (o : object) : (h ++ [o]) !! length h = Some o.
Proof. by rewrite lookup_app_r, Nat.sub_diag. Qed.

Lemma insert_middle (h : heap) (o o' : object) (ext : heap) :
  <[length h := o']> (h ++ o :: ext) = h ++ o' :: ext.
Proof.
  rewrite insert_app_r_alt by lia. by rewrite Nat.sub_diag.
Qed.

Lemma prefix_insert_ge (h0 h : heap) (l : nat) (o : object) :
  h0 `prefix_of` h → length h0 ≤ l → h0 `prefix_of` <[l := o]> h.
Proof.
  intros [ext ->] Hle. exists (<[l - length h0 := o]> ext).
  by rewrite insert_app_r_alt.
Qed.

Lemma prefix_snoc (h0 h : heap) (o : object) :
  h0 `prefix_of` h → h0 `prefix_of` h ++ [o].
Proof. intros. by apply prefix_app_r. Qed.

(** ** Weakest preconditions *)

Lemma wp_ret {A} (a : A) Q E h : Q a h → wp (ret a) Q E h.
Proof. done. Qed.

Lemma wp_bind {A B} (c : M A) (f : A → M B) Q E h :
  wp c (λ a h', wp (f a) Q E h') E h → wp (bind c f) Q E h.
Proof. unfold wp, bind. by destruct (c h). Qed.

Lemma wp_mono {A} (c : M A) (Q Q' : A → heap → Prop) (E E' : error → heap → Prop) h :
  wp c Q E h → (∀ a h', Q a h' → Q' a h') → (∀ e h', E e h' → E' e h') →
  wp c Q' E' h.
Proof. unfold wp. destruct (c h); eauto. Qed.

Lemma wp_alloc o Q E h : Q (length h) (h ++ [o]) → wp (alloc o) Q E h.
Proof. done. Qed.

Lemma wp_get_prop l k o Q E h :
  h !! l = Some o → Q (field o k) h → wp (get_prop (VRef l) k) Q E h.
Proof. unfold wp, get_prop. by intros ->. Qed.

Lemma wp_set_prop l k v o Q E h :
  h !! l = Some o → Q tt (<[l := obj_set o k v]> h) →
  wp (set_prop (VRef l) k v) Q E h.
Proof. unfold wp, set_prop. by intros ->. Qed.

Lemma wp_object_entries l o Q E h :
  h !! l = Some o → Q o h → wp (object_entries (VRef l)) Q E h.
Proof. unfold wp, object_entries. by intros ->. Qed.

Lemma wp_spread l o Q E h :
  h !! l = Some o → Q (length h) (h ++ [o]) → wp (spread (VRef l)) Q E h.
Proof. unfold wp, spread. by intros ->. Qed.

Lemma wp_for_each {A} (Inv : list A → heap → Prop) E (xs : list A)
    (body : A → M unit) h :
  Inv [] h →
  (∀ done x rest h1, xs = done ++ x :: rest → Inv done h1 →
     wp (body x) (λ _ h2, Inv (done ++ [x]) h2) E h1) →
  wp (for_each xs body) (λ _ h', Inv xs h') E h.
Proof.
  intros Hinit Hstep.
  cut (∀ rest done h1, xs = done ++ rest → Inv done h1 →
         wp (for_each rest body) (λ _ h', Inv xs h') E h1).
  { intros Hgen. by apply (Hgen xs [] h). }
  induction rest as [|x rest IH]; intros done h1 Hxs Hinv; simpl.
  - rewrite app_nil_r in Hxs. subst. by apply wp_ret.
  - apply wp_bind. eapply wp_mono; [by eapply Hstep| |done].
    intros [] h2 Hinv2. simpl in Hinv2. apply (IH (done ++ [x])); [|done].
    by rewrite <- app_assoc.
Qed.

Lemma wp_ok {A} (c : M A) Q h :
  wp c Q no_throw h → ∃ a h', c h = Ok a h' ∧ Q a h'.
Proof. unfold wp. destruct (c h); [eauto | done]. Qed.

Lemma wp_heap_of {A} (c : M A) (P : heap → Prop) h :
  wp c (λ _, P) (λ _, P) h → P (heap_of (c h)).
Proof. unfold wp. by destruct (c h). Qed.

(** ** Deep equality across store growth *)

Lemma store_closed_lookup h l o k v :
  store_closed h = true → h !! l = Some o → (k, v) ∈ o → val_closed h v = true.
Proof.
  unfold store_closed. rewrite forallb_forall. intros Hall Hl Hin.
  assert (Ho : forallb (λ kv, val_closed h kv.2) o = true).
  { apply Hall, list_elem_of_In, list_elem_of_lookup. eauto. }
  rewrite forallb_forall in Ho.
  apply (Ho (k, v)). by apply list_elem_of_In.
Qed.

Lemma snapshot_prefix depth h h' v :
  store_closed h = true → val_closed h v = true → h `prefix_of` h' →
  snapshot depth h' v = snapshot depth h v.
Proof.
  intros Hclosed Hv Hpre. revert v Hv.
  induction depth as [|depth IH]; intros v Hv; destruct v as [| | | | |l]; try done.
  simpl in *. apply bool_decide_eq_true in Hv.
  destruct (lookup_lt_is_Some_2 h l Hv) as [o Ho].
  rewrite Ho, (prefix_lookup_Some _ _ _ _ Ho Hpre). f_equal.
  apply map_ext_in. intros [k v] Hin. simpl. f_equal. apply IH.
  apply list_elem_of_In in Hin. by eapply store_closed_lookup.
Qed.

(** A new object with the property list of an old one is deep-equal
    to it. *)
Lemma snapshot_copy h h' l copy o :
  store_closed h = true → h `prefix_of` h' →
  h !! l = Some o → h' !! copy = Some o →
  deep_equal h' (VRef copy) h (VRef l).
Proof.
  intros Hclosed Hpre Hl Hcopy [|depth]; simpl; [done|].
  rewrite Hl, Hcopy. f_equal.
  apply map_ext_in. intros [k v] Hin. simpl. f_equal.
  apply snapshot_prefix; [done| |done].
  apply list_elem_of_In in Hin. by eapply store_closed_lookup.
Qed.

(** ** [getRelativePath] *)

Section path_properties.
Context `{PathApi}.

Lemma getRelativePath_cases from to :
  (startsWith (path_relative from to) "." = true ∧
   getRelativePath from to = path_relative from to) ∨
  (startsWith (path_relative from to) "." = false ∧
   getRelativePath from to = "./" +:+ path_relative from to).
Proof.
  unfold getRelativePath.
  destruct (startsWith (path_relative from to) ".") eqn:Hdot; simpl; auto.
Qed.

End path_properties.

(** The POSIX [path.relative] of a path to itself is empty. *)
Lemma posix_relative_same cwd p : Posix.relative cwd p p = "".
Proof. unfold Posix.relative. by rewrite String.eqb_refl. Qed.

(** C7, as the specification words it, fails on a directory whose name
    begins with a dot: the raw relative path [".cache"] already starts with
    ["."], so it is returned as it is, and it neither begins with [".."]
    nor carries the ["./"] prefix. *)
Lemma getRelativePath_dot_directory :
  getRelativePath (H := posix_path "/") "/out" "/out/.cache" = ".cache" ∧
  ¬ (startsWith (getRelativePath (H := posix_path "/") "/out" "/out/.cache") ".."
       = true ∨
     startsWith (getRelativePath (H := posix_path "/") "/out" "/out/.cache") "./"
       = true).
Proof. split; [reflexivity|]. intros [?|?]; discriminate. Qed.

(** C7 (amended): [getRelativePath] is a total function whose result always
    starts with ["."]: either the raw [path.relative] result already starts
    with ["."] (a parent marker [".."] or a dot-named first segment) and is
    returned unchanged, or it is returned behind a ["./"] prefix; for equal
    POSIX paths the result is ["./"]. *)
Theorem getRelativePath_starts_with_dot :
  (∀ (P : PathApi) (from to : string),
     startsWith (getRelativePath from to) "." = true ∧
     ((startsWith (path_relative from to) "." = true ∧
       getRelativePath from to = path_relative from to) ∨
      (startsWith (path_relative from to) "." = false ∧
       getRelativePath from to = "./" +:+ path_relative from to))) ∧
  (∀ cwd p, getRelativePath (H := posix_path cwd) p p = "./").
Proof.
  split.
  - intros P from to. split; [|apply getRelativePath_cases].
    destruct (getRelativePath_cases from to) as [[Hdot ->]|[_ ->]]; done.
  - intros cwd p. unfold getRelativePath. simpl.
    by rewrite posix_relative_same.
Qed.

(** ** [readPnpmLockfile] *)

(** C6, as the specification words it, fails: with no lockfile the loader
    returns [null], and with a lockfile that [yaml.parse] rejects it returns
    [null] as well, so the value handed to the caller is the same. *)
Lemma readPnpmLockfile_same_result_absent_or_unparsable :
  existsSync fs_empty "/repo/pnpm-lock.yaml" = false ∧
  existsSync (fs_single "/repo/pnpm-lock.yaml" "{") "/repo/pnpm-lock.yaml" = true ∧
  (∃ e, sample_yaml_parse "{" [] = Throw e []) ∧
  returned (readPnpmLockfile (H := posix_path "/") sample_yaml_parse
              fs_empty "/repo" []) =
  returned (readPnpmLockfile (H := posix_path "/") sample_yaml_parse
              (fs_single "/repo/pnpm-lock.yaml" "{") "/repo" []).
Proof. repeat split. by eexists. Qed.

(** C6 (amended): the loader never throws and returns [null] both when the
    lockfile is absent and when reading or parsing it fails; the two cases
    differ only in the message passed to [logger.debug] ("No pnpm-lock.yaml
    found at ..." against "Failed to parse pnpm-lock.yaml: ..."), not in the
    value the caller receives.  A successful parse returns the parsed
    value. *)
Theorem readPnpmLockfile_outcomes `{PathApi} (yaml_parse : string → M val)
    (fs : FileSystem) (workspaceRoot : string) (h : heap) :
  let lockfilePath := path_join workspaceRoot "pnpm-lock.yaml" in
  let loaded := readPnpmLockfile yaml_parse fs workspaceRoot h in
  (existsSync fs lockfilePath = false →
     returned loaded = VNull ∧
     logged loaded = ["No pnpm-lock.yaml found at " +:+ lockfilePath] ∧
     store loaded = h) ∧
  (existsSync fs lockfilePath = true →
     (∀ err, readFileSync fs lockfilePath = inr err →
        returned loaded = VNull ∧
        logged loaded = ["Failed to parse pnpm-lock.yaml: " +:+ err] ∧
        store loaded = h) ∧
     (∀ content err h', readFileSync fs lockfilePath = inl content →
        yaml_parse content h = Throw err h' →
        returned loaded = VNull ∧
        logged loaded = ["Failed to parse pnpm-lock.yaml: " +:+ error_text err]) ∧
     (∀ content parsed h', readFileSync fs lockfilePath = inl content →
        yaml_parse content h = Ok parsed h' →
        returned loaded = parsed ∧ logged loaded = [] ∧ store loaded = h')).
Proof.
  intros lockfilePath loaded. subst loaded. unfold readPnpmLockfile.
  fold lockfilePath. split.
  - by intros ->.
  - intros ->. simpl. split; [|split].
    + by intros err ->.
    + by intros content err h' -> ->.
    + by intros content parsed h' -> ->.
Qed.

Lemma readPnpmLockfile_outcomes_witness :
  returned (readPnpmLockfile (H := posix_path "/") sample_yaml_parse
              fs_empty "/repo" []) = VNull ∧
  returned (readPnpmLockfile (H := posix_path "/") sample_yaml_parse
              (fs_single "/repo/pnpm-lock.yaml" "{") "/repo" []) = VNull ∧
  returned (readPnpmLockfile (H := posix_path "/") sample_yaml_parse
              (fs_single "/repo/pnpm-lock.yaml" "lockfileVersion: '9.0'")
              "/repo" []) = VRef 0.
Proof.
  split; [|split].
  - destruct (readPnpmLockfile_outcomes (H := posix_path "/") sample_yaml_parse
                fs_empty "/repo" []) as [Habsent _].
    apply Habsent. reflexivity.
  - destruct (readPnpmLockfile_outcomes (H := posix_path "/") sample_yaml_parse
                (fs_single "/repo/pnpm-lock.yaml" "{") "/repo" [])
      as [_ Hpresent].
    destruct (Hpresent eq_refl) as (_ & Hthrow & _).
    eapply Hthrow; reflexivity.
  - destruct (readPnpmLockfile_outcomes (H := posix_path "/") sample_yaml_parse
                (fs_single "/repo/pnpm-lock.yaml" "lockfileVersion: '9.0'")
                "/repo" []) as [_ Hpresent].
    destruct (Hpresent eq_refl) as (_ & _ & Hparsed).
    eapply Hparsed; reflexivity.
Defined.

(** ** [pruneLockfile] on a lockfile without importers *)

Section prune_properties.
Context `{PathApi}.

(** C3: for a lockfile with no [importers] field, [pruneLockfile] returns a
    new object carrying exactly the property list of the input (same keys,
    same order, same values and references), whatever the other arguments
    are, and leaves every existing cell of the store as it was; on a store
    without dangling references the result is therefore deep-equal to the
    input. *)
Theorem pruneLockfile_no_importers (h : heap) (l : loc) (o : object)
    (targetRelativeDir : string) (internalDeps : list string)
    (registry : WorkspaceRegistry) (rewriteContext : option RewriteContext) :
  h !! l = Some o →
  obj_get o "importers" = None →
  ∃ copy h',
    pruneLockfile (VRef l) targetRelativeDir internalDeps registry
      rewriteContext h = Ok (VRef copy) h' ∧
    h `prefix_of` h' ∧
    h !! copy = None ∧
    h' !! copy = Some o ∧
    (store_closed h = true → deep_equal h' (VRef copy) h (VRef l)).
Proof.
  intros Hl Himp.
  set (P := [("lockfileVersion", field o "lockfileVersion")]).
  assert (Hl' : (h ++ [P]) !! l = Some o) by (by apply lookup_app_l_Some).
  exists (S (length h)), ((h ++ [P]) ++ [o]).
  assert (Hcopy : ((h ++ [P]) ++ [o]) !! S (length h) = Some o).
  { replace (S (length h)) with (length (h ++ [P])).
    - apply lookup_snoc_new.
    - rewrite length_app. simpl. lia. }
  assert (Hpre : h `prefix_of` (h ++ [P]) ++ [o]).
  { rewrite <- app_assoc. by apply prefix_app_r. }
  split; [|repeat split; try done].
  - cut (wp (pruneLockfile (VRef l) targetRelativeDir internalDeps registry
               rewriteContext)
           (λ v h', v = VRef (S (length h)) ∧ h' = (h ++ [P]) ++ [o])
           no_throw h).
    { intros Hwp. apply wp_ok in Hwp as (v & h' & -> & -> & ->). done. }
    unfold pruneLockfile.
    apply wp_bind. eapply wp_get_prop; [exact Hl|].
    apply wp_bind, wp_alloc.
    apply wp_bind. eapply wp_get_prop; [exact Hl'|].
    unfold field at 1. rewrite Himp. simpl.
    apply wp_bind. eapply wp_spread; [exact Hl'|].
    apply wp_ret. split; [|done]. f_equal. rewrite length_app. simpl. lia.
  - apply lookup_ge_None. lia.
  - intros Hclosed. by eapply snapshot_copy.
Qed.

End prune_properties.

Lemma pruneLockfile_no_importers_witness :
  ∃ copy h',
    pruneLockfile (H := posix_path "/") (VRef 0) "packages/a" ["@scope/b"] ∅ None
      store_no_importers = Ok (VRef copy) h' ∧
    h' !! copy = Some [("lockfileVersion", VStr "9.0"); ("packages", VRef 1)] ∧
    deep_equal h' (VRef copy) store_no_importers (VRef 0).
Proof.
  destruct (pruneLockfile_no_importers (H := posix_path "/")
              store_no_importers 0
              [("lockfileVersion", VStr "9.0"); ("packages", VRef 1)]
              "packages/a" ["@scope/b"] ∅ None eq_refl eq_refl)
    as (copy & h' & Hrun & _ & _ & Hcopy & Hdeep).
  exists copy, h'. split; [exact Hrun|]. split; [exact Hcopy|].
  apply Hdeep. reflexivity.
Defined.

(** ** Rules for any outcome of a store operation *)

Lemma wp_get_prop_any v k (Q : val → heap → Prop) (E : error → heap → Prop) h :
  (∀ a, Q a h) → (∀ e, E e h) → wp (get_prop v k) Q E h.
Proof.
  intros HQ HE. unfold wp, get_prop.
  destruct v; try done. by destruct (h !! l).
Qed.

Lemma wp_set_prop_any target k v (Q : unit → heap → Prop)
    (E : error → heap → Prop) h :
  (∀ l o, target = VRef l → h !! l = Some o → Q tt (<[l := obj_set o k v]> h)) →
  (∀ e, E e h) → wp (set_prop target k v) Q E h.
Proof.
  intros HQ HE. unfold wp, set_prop.
  destruct target; try done. destruct (h !! l) eqn:Hl; [|done]. by eapply HQ.
Qed.

Lemma wp_object_entries_any v (Q : list (string * val) → heap → Prop)
    (E : error → heap → Prop) h :
  (∀ es, Q es h) → (∀ e, E e h) → wp (object_entries v) Q E h.
Proof.
  intros HQ HE. unfold wp, object_entries.
  destruct v; try done. by destruct (h !! l).
Qed.

Lemma wp_spread_any v (Q : loc → heap → Prop) (E : error → heap → Prop) h :
  (∀ o, Q (length h) (h ++ [o])) → (∀ e, E e h) → wp (spread v) Q E h.
Proof.
  intros HQ HE. unfold wp, spread, alloc.
  destruct v; try done. by destruct (h !! l).
Qed.

Lemma wp_optional_startsWith_any v p (Q : bool → heap → Prop)
    (E : error → heap → Prop) h :
  (∀ b, Q b h) → (∀ e, E e h) → wp (optional_startsWith v p) Q E h.
Proof.
  intros HQ HE. unfold wp, optional_startsWith, ret, throw.
  destruct v; simpl; auto.
Qed.

Lemma wp_optional_startsWith_str s p (Q : bool → heap → Prop)
    (E : error → heap → Prop) h :
  Q (startsWith s p) h → wp (optional_startsWith (VStr s) p) Q E h.
Proof. done. Qed.

(** ** [rewriteImporterDependencies] writes only to what it allocates *)

Section rewriter_properties.
Context `{PathApi}.

Lemma rewriteEntry_frame (h0 : heap) result internalDeps out ws entry h :
  h0 `prefix_of` h → length h0 ≤ result →
  wp (rewriteEntry result internalDeps out ws entry)
     (λ _ h', h0 `prefix_of` h') (λ _ h', h0 `prefix_of` h') h.
Proof.
  intros Hpre Hres. destruct entry as [depName depInfo]. unfold rewriteEntry.
  apply wp_bind.
  assert (Hrest : ∀ b : bool,
    wp (if b
        then let! rewritten :=
               alloc (file_link_entry
                        (getRelativePath out (path_join ws (safeName depName)))) in
             set_prop (VRef result) depName (VRef rewritten)
        else set_prop (VRef result) depName depInfo)
       (λ _ h', h0 `prefix_of` h') (λ _ h', h0 `prefix_of` h') h).
  { intros [].
    - apply wp_bind, wp_alloc. apply wp_set_prop_any.
      + intros l o [= <-] _. apply prefix_insert_ge; [|done].
        by apply prefix_snoc.
      + intros _. by apply prefix_snoc.
    - apply wp_set_prop_any; [|done].
      intros l o [= <-] _. by apply prefix_insert_ge. }
  destruct (set_has internalDeps depName).
  - apply wp_bind, wp_get_prop_any; [|done]. intros spec.
    apply wp_optional_startsWith_any; [|done]. intros b. apply Hrest.
  - apply wp_ret. apply (Hrest false).
Qed.

Lemma rewriteImporterDependencies_frame deps internalDeps out ws h :
  wp (rewriteImporterDependencies deps internalDeps out ws)
     (λ _ h', h `prefix_of` h') (λ _ h', h `prefix_of` h') h.
Proof.
  unfold rewriteImporterDependencies. destruct (negb (truthy deps)).
  - by apply wp_ret.
  - apply wp_bind, wp_alloc.
    assert (Hpre : h `prefix_of` h ++ [[]]) by (by apply prefix_app_r).
    apply wp_bind, wp_object_entries_any; [|done]. intros es.
    apply wp_bind.
    eapply wp_mono;
      [apply (wp_for_each (λ _ h', h `prefix_of` h')
                (λ _ h', h `prefix_of` h')); [done|] | |done].
    + intros done x rest h1 _ Hpre1. by apply rewriteEntry_frame.
    + intros [] h' Hpre'. by apply wp_ret.
Qed.

(** ** What [rewriteImporterDependencies] returns *)

Lemma wt_entry_inv h v :
  wt_entry h v = true →
  ∃ l o s, v = VRef l ∧ h !! l = Some o ∧ obj_get o "specifier" = Some (VStr s).
Proof.
  destruct v as [| | | | |l]; try done. simpl.
  destruct (h !! l) as [o|] eqn:Hl; [|done].
  destruct (obj_get o "specifier") as [[| | | |s|]|] eqn:Hs; try done.
  intros _. by exists l, o, s.
Qed.

Lemma keys_obj_set_fresh o k v :
  k ∉ keys o → creates_property k → keys (obj_set o k v) ≡ₚ keys o ++ [k].
Proof.
  intros Hn Hk. rewrite <- Permutation_cons_append.
  destruct (keys_obj_set_cases o k v) as [Heq|(_ & _ & Hp)]; [|done].
  exfalso. apply Hn. rewrite <- Heq. by apply keys_obj_set_new.
Qed.

Lemma filter_creates_property_snoc (ks : list string) k :
  filter creates_property (ks ++ [k]) =
  filter creates_property ks ++ (if decide (creates_property k) then [k] else []).
Proof.
  rewrite filter_app. f_equal.
Qed.

Lemma rewrite_progress_step h internalDeps out ws done res news k d x news' :
  rewrite_progress h internalDeps out ws done res news →
  k ∉ keys done →
  news `prefix_of` news' →
  (if is_workspace_link h internalDeps k d
   then ∃ i, x = VRef (S (length h + i)) ∧
             news' !! i = Some (relocated_entry out ws k)
   else x = d) →
  rewrite_progress h internalDeps out ws (done ++ [(k, d)])
    (obj_set res k x) news'.
Proof.
  intros (Hord & Hperm & Hkeys & Hall) Hnew Hpre Hx.
  assert (Hsub : ∀ k', k' ∈ keys res → k' ∈ keys done ∧ creates_property k').
  { intros k' Hin. rewrite Hperm in Hin.
    by apply list_elem_of_filter in Hin as [? ?]. }
  assert (Hold : ∀ k' d', (k', d') ∈ done → creates_property k' →
            if is_workspace_link h internalDeps k' d'
            then ∃ i, obj_get (obj_set res k x) k'
                        = Some (VRef (S (length h + i))) ∧
                      news' !! i = Some (relocated_entry out ws k')
            else obj_get (obj_set res k x) k' = Some d').
  { intros k' d' Hin Hk'. specialize (Hall k' d' Hin Hk').
    assert (k ≠ k').
    { intros ->. apply Hnew, list_elem_of_fmap. by exists (k', d'). }
    rewrite obj_get_set_ne by done.
    destruct (is_workspace_link h internalDeps k' d'); [|done].
    destruct Hall as (i & -> & Hi). exists i. split; [done|].
    by eapply prefix_lookup_Some. }
  assert (Hfresh : k ∉ keys res) by (intros Hin; by apply Hsub in Hin as [? _]).
  unfold rewrite_progress, keys at 2 4. rewrite fmap_app. simpl.
  rewrite filter_creates_property_snoc.
  destruct (decide (creates_property k)) as [Hk|Hk].
  - split; [by apply entries_ordered_obj_set|].
    split; [by rewrite keys_obj_set_fresh, Hperm|]. split.
    + intros Hdone. apply entries_ordered_snoc in Hdone as [Hdone Hlast].
      rewrite obj_set_last; [|done..|].
      * unfold keys in *. rewrite fmap_app. simpl. by rewrite Hkeys.
      * intros k' Hin. by apply Hlast, Hsub.
    + intros k' d' Hin Hk'. apply elem_of_app in Hin as [Hin|Hin]; [by apply Hold|].
      apply list_elem_of_singleton in Hin as [= -> ->].
      rewrite obj_get_set_eq by done.
      destruct (is_workspace_link h internalDeps k d).
      * destruct Hx as (i & -> & Hi). by exists i.
      * by subst.
  - assert (k = "__proto__") as -> by (by destruct (decide (k = "__proto__"))).
    rewrite obj_set_proto by done. rewrite app_nil_r.
    split; [done|]. split; [done|]. split.
    + intros Hdone. apply entries_ordered_snoc in Hdone as [Hdone _]. auto.
    + intros k' d' Hin Hk'. apply elem_of_app in Hin as [Hin|Hin].
      * specialize (Hold k' d' Hin Hk'). by rewrite obj_set_proto in Hold.
      * apply list_elem_of_singleton in Hin as [= -> ->]. done.
Qed.

Lemma rewriteImporterDependencies_spec l es internalDeps out ws h :
  h !! l = Some es →
  NoDup (keys es) →
  (∀ k d, (k, d) ∈ es → wt_entry h d = true) →
  wp (rewriteImporterDependencies (VRef l) internalDeps out ws)
     (λ v h', ∃ res news,
        v = VRef (length h) ∧ h' = h ++ res :: news ∧
        rewrite_progress h internalDeps out ws es res news)
     no_throw h.
Proof.
  intros Hl Hnd Hwt. unfold rewriteImporterDependencies. simpl.
  apply wp_bind, wp_alloc.
  apply wp_bind. eapply wp_object_entries; [by apply lookup_app_l_Some|].
  apply wp_bind.
  eapply wp_mono;
    [apply (wp_for_each
              (λ done h', ∃ res news,
                 h' = h ++ res :: news ∧
                 rewrite_progress h internalDeps out ws done res news)
              no_throw) | |done].
  - exists [], []. split; [done|]. repeat (split; [done|]).
    intros k d Hin. by apply elem_of_nil in Hin.
  - intros done [k d] rest h1 Hes (res & news & -> & Hprog).
    assert (Hnew : k ∉ keys done).
    { intros Hin. rewrite Hes in Hnd. unfold keys in *.
      rewrite fmap_app in Hnd. apply NoDup_app in Hnd as (_ & Hdisj & _).
      apply (Hdisj k Hin). simpl. apply list_elem_of_here. }
    destruct (wt_entry_inv h d) as (ld & eo & s & -> & Hld & Hspec).
    { apply (Hwt k). rewrite Hes. apply elem_of_app. right.
      apply list_elem_of_here. }
    assert (Hres : ∀ ext : heap, ((h ++ res :: news) ++ ext) !! length h = Some res).
    { intros ext. rewrite <- app_assoc. simpl.
      by rewrite lookup_app_r, Nat.sub_diag. }
    assert (Hlink : is_workspace_link h internalDeps k (VRef ld) =
                    set_has internalDeps k && startsWith s "workspace:").
    { unfold is_workspace_link, specifier_of. by rewrite Hld, Hspec. }
    unfold rewriteEntry. apply wp_bind.
    assert (Hkeep :
      wp (set_prop (VRef (length h)) k (VRef ld))
         (λ _ h2, ∃ res' news',
            h2 = h ++ res' :: news' ∧
            rewrite_progress h internalDeps out ws (done ++ [(k, VRef ld)])
              res' news')
         no_throw (h ++ res :: news) ∨
      is_workspace_link h internalDeps k (VRef ld) = true).
    { destruct (is_workspace_link h internalDeps k (VRef ld)) eqn:Hlk; [by right|].
      left. eapply wp_set_prop; [by rewrite <- (Hres []), app_nil_r|].
      rewrite insert_middle. eexists _, news. split; [done|].
      eapply rewrite_progress_step; try done. by rewrite Hlk. }
    destruct (set_has internalDeps k) eqn:Hhas.
    + apply wp_bind. eapply wp_get_prop; [by apply lookup_app_l_Some|].
      unfold field. rewrite Hspec. apply wp_optional_startsWith_str.
      simpl in Hlink. destruct (startsWith s "workspace:") eqn:Hsw.
      * apply wp_bind, wp_alloc. eapply wp_set_prop; [apply Hres|].
        rewrite <- app_assoc. simpl. rewrite insert_middle.
        eexists _, (news ++ [_]). split; [done|].
        eapply rewrite_progress_step; try done; [by apply prefix_app_r|].
        rewrite Hlink. exists (length news). split.
        -- f_equal. rewrite length_app. simpl. lia.
        -- by rewrite lookup_app_r, Nat.sub_diag.
      * destruct Hkeep as [Hkeep|Hlk]; [done | congruence].
    + apply wp_ret. simpl in Hlink.
      destruct Hkeep as [Hkeep|Hlk]; [done | congruence].
  - intros [] h' (res & news & -> & Hprog). apply wp_ret. by exists res, news.
Qed.

End rewriter_properties.

Lemma store_ok_lookup h l o :
  store_ok h = true → h !! l = Some o → NoDup (keys o).
Proof.
  unfold store_ok. rewrite forallb_forall. intros Hall Hl.
  assert (Hin : In o h) by (apply list_elem_of_In, list_elem_of_lookup; eauto).
  apply Hall in Hin. unfold distinct_keys in Hin.
  by apply bool_decide_eq_true in Hin.
Qed.

Lemma wt_deps_inv h l es :
  wt_deps h (VRef l) = true → h !! l = Some es →
  ∀ k d, (k, d) ∈ es → wt_entry h d = true.
Proof.
  simpl. intros Hwt Hl k d Hin. rewrite Hl in Hwt.
  rewrite forallb_forall in Hwt. apply (Hwt (k, d)). by apply list_elem_of_In.
Qed.

Section rewriter_claims.
Context `{PathApi}.

(** The specification of the rewriter as a relation between the input
    mapping and the result. *)
Lemma rewriteImporterDependencies_result h l es internalDeps out ws :
  store_ok h = true → wt_deps h (VRef l) = true → h !! l = Some es →
  ∃ r h' res,
    rewriteImporterDependencies (VRef l) internalDeps out ws h
      = Ok (VRef r) h' ∧
    h `prefix_of` h' ∧ h !! r = None ∧ h' !! r = Some res ∧
    NoDup (keys res) ∧
    rewrites_to (length h) h h' internalDeps out ws es res.
Proof.
  intros Hok Hwt Hl.
  destruct (wp_ok _ _ _
              (rewriteImporterDependencies_spec l es internalDeps out ws h Hl
                 (store_ok_lookup _ _ _ Hok Hl) (wt_deps_inv _ _ _ Hwt Hl)))
    as (v & h' & Hrun & res & news & -> & -> & Hord & Hperm & Hkeys & Hall).
  exists (length h), (h ++ res :: news), res. split; [done|].
  split; [by apply prefix_app_r|]. split; [by apply lookup_ge_None|].
  split; [by rewrite lookup_app_r, Nat.sub_diag|]. split.
  { rewrite Hperm. apply NoDup_filter. by eapply store_ok_lookup. }
  repeat (split; [done|]).
  intros k d Hin Hk. specialize (Hall k d Hin Hk).
  destruct (is_workspace_link h internalDeps k d); [|done].
  destruct Hall as (i & Hget & Hi). exists (S (length h + i)).
  split; [done|]. split; [lia|].
  rewrite lookup_app_r by lia.
  replace (S (length h + i) - length h) with (S i) by lia. done.
Qed.

(** X15: on a well-formed store, every entry of a dependency mapping handed
    to [rewriteImporterDependencies] whose name is not [__proto__] is
    replaced if and only if its name is in [internalDeps] and its specifier
    starts with ["workspace:"]; a replaced entry is a new object
    [{ specifier: "file:" + rel, version: "link:" + rel }] with
    [rel = getRelativePath(newImporterDir, path.join(workspacesDir,
    safeName))], where [safeName] is the name without one leading [@] and
    with every [/] turned into [-]; every other such entry is the very value
    the input held. *)
Theorem rewriteImporterDependencies_selective h l es internalDeps
    newImporterDir workspacesDir :
  store_ok h = true → wt_deps h (VRef l) = true → h !! l = Some es →
  ∃ r h' res,
    rewriteImporterDependencies (VRef l) internalDeps newImporterDir
      workspacesDir h = Ok (VRef r) h' ∧
    h `prefix_of` h' ∧ h' !! r = Some res ∧
    ∀ depName depInfo, (depName, depInfo) ∈ es → depName ≠ "__proto__" →
      let rel :=
        getRelativePath newImporterDir
          (path_join workspacesDir
             (replace_slashes (strip_leading_at depName))) in
      (obj_get res depName ≠ Some depInfo ↔
       (set_has internalDeps depName = true ∧
        ∃ s, specifier_of h depInfo = Some s ∧ startsWith s "workspace:" = true)) ∧
      (is_workspace_link h internalDeps depName depInfo = true →
       ∃ e, obj_get res depName = Some (VRef e) ∧ h !! e = None ∧
            h' !! e = Some [("specifier", VStr ("file:" +:+ rel));
                            ("version", VStr ("link:" +:+ rel))]) ∧
      (is_workspace_link h internalDeps depName depInfo = false →
       obj_get res depName = Some depInfo).
Proof.
  intros Hok Hwt Hl.
  destruct (rewriteImporterDependencies_result h l es internalDeps
              newImporterDir workspacesDir Hok Hwt Hl)
    as (r & h' & res & Hrun & Hpre & _ & Hr & _ & _ & _ & _ & Hall).
  exists r, h', res. repeat (split; [done|]).
  intros k d Hin Hk rel. specialize (Hall k d Hin Hk).
  assert (Hiff : is_workspace_link h internalDeps k d = true ↔
                 set_has internalDeps k = true ∧
                 ∃ s, specifier_of h d = Some s ∧
                      startsWith s "workspace:" = true).
  { unfold is_workspace_link. rewrite andb_true_iff.
    destruct (specifier_of h d) as [s|]; split.
    - intros [? ?]. eauto.
    - intros [? (s' & [= <-] & ?)]. done.
    - intros [_ ?]. done.
    - intros [_ (s' & ? & _)]. done. }
  rewrite <- Hiff.
  destruct (is_workspace_link h internalDeps k d) eqn:Hlink.
  - destruct Hall as (e & Hget & He & He').
    split; [|split; [|done]].
    + split; [done|]. intros _. rewrite Hget. intros [= <-].
      destruct (wt_entry_inv h (VRef e)) as (l' & o' & s & [= <-] & Hl' & _).
      { by eapply wt_deps_inv. }
      apply lookup_lt_Some in Hl'. lia.
    + intros _. exists e. split; [done|]. split; [|done].
      apply lookup_ge_None. lia.
  - split; [|split; [done|]].
    + split; [by intros []|done].
    + done.
Qed.

(** X16: [rewriteImporterDependencies] returns [undefined] exactly when its
    [deps] argument is [undefined], leaving the store untouched; for a
    mapping it returns a new object whose keys are the keys of the input
    other than [__proto__], in the same order. *)
Theorem rewriteImporterDependencies_keys h deps internalDeps
    newImporterDir workspacesDir :
  store_ok h = true → wt_deps h deps = true →
  ∃ v h',
    rewriteImporterDependencies deps internalDeps newImporterDir
      workspacesDir h = Ok v h' ∧
    (v = VUndef ↔ deps = VUndef) ∧
    (deps = VUndef → h' = h) ∧
    (∀ l es, deps = VRef l → h !! l = Some es →
       entries_ordered es = true →
       ∃ r res, v = VRef r ∧ h !! r = None ∧ h' !! r = Some res ∧
                keys res = filter (λ k, k ≠ "__proto__") (keys es)).
Proof.
  intros Hok Hwt. destruct deps as [| | | | |l]; try done.
  - exists VUndef, h. repeat split; try done.
  - simpl in Hwt. destruct (h !! l) as [es|] eqn:Hl; [|done].
    destruct (rewriteImporterDependencies_result h l es internalDeps
                newImporterDir workspacesDir Hok) as
      (r & h' & res & Hrun & _ & Hfresh & Hr & _ & _ & _ & Hkeys & _);
      [|done|].
    { simpl. by rewrite Hl. }
    exists (VRef r), h'. split; [done|]. repeat split; try done.
    intros l' es' [= <-] Hl' Hord. exists r, res. simplify_eq.
    repeat (split; [done|]). by apply Hkeys.
Qed.

End rewriter_claims.

Lemma rewriteImporterDependencies_selective_witness :
  ∃ r h' res,
    rewriteImporterDependencies (H := posix_path "/") (VRef 5)
      sample_internalDeps "/out" "/out/workspaces" sample_store
      = Ok (VRef r) h' ∧
    h' !! r = Some res ∧
    obj_get res "lodash" = Some (VRef 8) ∧
    obj_get res "@scope/c" = Some (VRef 9) ∧
    ∃ e, obj_get res "@scope/b" = Some (VRef e) ∧
         h' !! e = Some [("specifier", VStr "file:./workspaces/scope-b");
                         ("version", VStr "link:./workspaces/scope-b")].
Proof.
  destruct (rewriteImporterDependencies_selective (H := posix_path "/")
              sample_store 5
              [("@scope/b", VRef 6); ("lodash", VRef 8); ("@scope/c", VRef 9)]
              sample_internalDeps "/out" "/out/workspaces"
              eq_refl eq_refl eq_refl)
    as (r & h' & res & Hrun & _ & Hr & Hall).
  exists r, h', res. split; [exact Hrun|]. split; [exact Hr|].
  split; [|split].
  - apply (Hall "lodash" (VRef 8)); [|discriminate|reflexivity].
    apply list_elem_of_In. simpl. auto.
  - apply (Hall "@scope/c" (VRef 9)); [|discriminate|reflexivity].
    apply list_elem_of_In. simpl. auto.
  - destruct (Hall "@scope/b" (VRef 6)) as (_ & Hyes & _); [|discriminate|].
    { apply list_elem_of_In. simpl. auto. }
    destruct (Hyes eq_refl) as (e & Hget & _ & He). by exists e.
Defined.

Lemma rewriteImporterDependencies_keys_witness :
  ∃ v h',
    rewriteImporterDependencies (H := posix_path "/") (VRef 5)
      sample_internalDeps "/out" "/out/workspaces" sample_store = Ok v h' ∧
    ∃ r res, v = VRef r ∧ h' !! r = Some res ∧
             keys res = ["@scope/b"; "lodash"; "@scope/c"].
Proof.
  destruct (rewriteImporterDependencies_keys (H := posix_path "/")
              sample_store (VRef 5) sample_internalDeps "/out"
              "/out/workspaces" eq_refl eq_refl)
    as (v & h' & Hrun & _ & _ & Hkeys).
  exists v, h'. split; [exact Hrun|].
  destruct (Hkeys 5 _ eq_refl eq_refl eq_refl) as (r & res & Hv & _ & Hr & Hk).
  by exists r, res.
Defined.

(** C1: the entry named [__proto__] of this mapping is no workspace link,
    yet it is not passed through: the assignment [result[depName] = depInfo]
    runs the inherited [__proto__] setter, so the returned mapping has no
    such entry, while the other entry is passed through. *)
Lemma rewriteImporterDependencies_drops_proto_entry :
  store_ok store_unusual_keys = true ∧
  wt_deps store_unusual_keys (VRef 5) = true ∧
  store_unusual_keys !! 5 = Some [("__proto__", VRef 6); ("lodash", VRef 7)] ∧
  is_workspace_link store_unusual_keys sample_internalDeps "__proto__" (VRef 6)
    = false ∧
  ∃ h' res,
    rewriteImporterDependencies (H := posix_path "/") (VRef 5)
      sample_internalDeps "/out" "/out/workspaces" store_unusual_keys
      = Ok (VRef 8) h' ∧
    h' !! 8 = Some res ∧
    obj_get res "__proto__" = None ∧
    obj_get res "lodash" = Some (VRef 7).
Proof.
  repeat (split; [reflexivity|]).
  eexists _, _. split; [vm_compute; reflexivity|]. by repeat split.
Qed.

(** C8: the mapping returned for this input does not have the key set of
    the input: the input has the keys [__proto__] and [lodash], the result
    only [lodash]. *)
Lemma rewriteImporterDependencies_loses_proto_key :
  ∃ es h' res,
    store_unusual_keys !! 5 = Some es ∧
    keys es = ["__proto__"; "lodash"] ∧
    rewriteImporterDependencies (H := posix_path "/") (VRef 5) []
      "/out" "/out/workspaces" store_unusual_keys
      = Ok (VRef 8) h' ∧
    h' !! 8 = Some res ∧
    keys res = ["lodash"].
Proof.
  eexists _, _, _. split; [reflexivity|]. split; [reflexivity|].
  split; [vm_compute; reflexivity|]. by split.
Qed.

(** ** [pruneLockfile] writes only to what it allocates *)

Section prune_frame.
Context `{PathApi}.

Lemma importers_slot_prefix h0 pruned b h h' :
  importers_slot h0 pruned b h → h `prefix_of` h' →
  importers_slot h0 pruned b h'.
Proof.
  intros (Hpre & Hb & Hne & P & HP & Himp) Hpre'.
  split; [by etrans|]. repeat (split; [done|]).
  exists P. split; [|done]. by eapply prefix_lookup_Some.
Qed.

Lemma importers_slot_insert h0 pruned b h l o :
  importers_slot h0 pruned b h → length h0 ≤ l → l ≠ pruned →
  importers_slot h0 pruned b (<[l := o]> h).
Proof.
  intros (Hpre & Hb & Hne & P & HP & Himp) Hl Hlne.
  split; [by apply prefix_insert_ge|]. repeat (split; [done|]).
  exists P. split; [|done]. by rewrite list_lookup_insert_ne.
Qed.

Lemma rewriteCategory_frame h0 pruned b rewrittenImporter importerData
    category internalDeps out ws h :
  importers_slot h0 pruned b h →
  length h0 ≤ rewrittenImporter → rewrittenImporter ≠ pruned →
  wp (rewriteCategory rewrittenImporter importerData category internalDeps
        out ws)
     (λ _ h', importers_slot h0 pruned b h')
     (λ _ h', importers_slot h0 pruned b h') h.
Proof.
  intros Hslot Hge Hne. unfold rewriteCategory.
  apply wp_bind, wp_get_prop_any; [|done]. intros deps.
  apply wp_bind.
  eapply wp_mono; [apply rewriteImporterDependencies_frame| |].
  - intros v h' Hpre. simpl. apply wp_set_prop_any.
    + intros l o [= <-] _. apply importers_slot_insert; [|done|done].
      by eapply importers_slot_prefix.
    + intros _. by eapply importers_slot_prefix.
  - intros e h' Hpre. by eapply importers_slot_prefix.
Qed.

Lemma store_importer_frame h0 pruned b key v h :
  importers_slot h0 pruned b h →
  wp (let! importers := get_prop (VRef pruned) "importers" in
      set_prop importers key v)
     (λ _ h', importers_slot h0 pruned b h')
     (λ _ h', importers_slot h0 pruned b h') h.
Proof.
  intros Hslot. pose proof Hslot as (Hpre & Hb & Hne & P & HP & Himp).
  apply wp_bind. eapply wp_get_prop; [exact HP|].
  unfold field. rewrite Himp. simpl.
  apply wp_set_prop_any; [|done].
  intros l o [= <-] _. by apply importers_slot_insert.
Qed.

Lemma pruneImporter_frame h0 pruned b targetRelativeDir internalDeps registry
    rewriteContext entry h :
  importers_slot h0 pruned b h →
  wp (pruneImporter pruned targetRelativeDir internalDeps registry
        rewriteContext entry)
     (λ _ h', importers_slot h0 pruned b h')
     (λ _ h', importers_slot h0 pruned b h') h.
Proof.
  intros Hslot. destruct entry as [importerPath importerData].
  unfold pruneImporter.
  destruct (_ && _); [by apply wp_ret|].
  destruct (bool_decide _); [|by apply wp_ret].
  destruct rewriteContext as [rc|]; [|by apply store_importer_frame].
  destruct (_ !! importerPath) as [dir|]; [|by apply store_importer_frame].
  destruct (truthy (VStr dir)); [|by apply store_importer_frame].
  pose proof Hslot as (Hpre & Hb & Hne & P & HP & Himp).
  assert (Hlen : length h0 ≤ length h) by (by apply prefix_length).
  assert (Hnew : length h ≠ pruned).
  { apply lookup_lt_Some in HP. lia. }
  apply wp_bind, wp_spread_any; [|done]. intros o.
  assert (Hslot' : importers_slot h0 pruned b (h ++ [o])).
  { eapply importers_slot_prefix; [done|]. by apply prefix_app_r. }
  apply wp_bind.
  eapply wp_mono; [by apply rewriteCategory_frame| |done].
  intros [] h1 Hslot1. simpl. apply wp_bind.
  eapply wp_mono; [by apply rewriteCategory_frame| |done].
  intros [] h2 Hslot2. simpl. apply wp_bind.
  eapply wp_mono; [by apply rewriteCategory_frame| |done].
  intros [] h3 Hslot3. simpl. by apply store_importer_frame.
Qed.

Lemma copyOtherKey_frame h0 pruned entry h :
  h0 `prefix_of` h → length h0 ≤ pruned →
  wp (copyOtherKey pruned entry)
     (λ _ h', h0 `prefix_of` h') (λ _ h', h0 `prefix_of` h') h.
Proof.
  intros Hpre Hge. destruct entry as [key value]. unfold copyOtherKey.
  destruct (negb _); [|by apply wp_ret].
  apply wp_set_prop_any; [|done].
  intros l o [= <-] _. by apply prefix_insert_ge.
Qed.

Lemma pruneLockfile_frame lockfile targetRelativeDir internalDeps registry
    rewriteContext h :
  wp (pruneLockfile lockfile targetRelativeDir internalDeps registry
        rewriteContext)
     (λ _ h', h `prefix_of` h') (λ _ h', h `prefix_of` h') h.
Proof.
  unfold pruneLockfile.
  apply wp_bind, wp_get_prop_any; [|done]. intros lockfileVersion.
  apply wp_bind, wp_alloc.
  set (P0 := [("lockfileVersion", lockfileVersion)]).
  assert (Hpre1 : h `prefix_of` h ++ [P0]) by (by apply prefix_app_r).
  apply wp_bind, wp_get_prop_any; [|done]. intros importers.
  destruct (negb (truthy importers)).
  - apply wp_bind, wp_spread_any; [|done]. intros o. apply wp_ret.
    rewrite <- app_assoc. by apply prefix_app_r.
  - apply wp_bind, wp_alloc.
    assert (Hpre2 : h `prefix_of` (h ++ [P0]) ++ [[]]).
    { rewrite <- app_assoc. by apply prefix_app_r. }
    assert (Hlen : length (h ++ [P0]) = S (length h)).
    { rewrite length_app. simpl. lia. }
    apply wp_bind. eapply wp_set_prop.
    { rewrite <- app_assoc. simpl. by rewrite lookup_app_r, Nat.sub_diag. }
    assert (Hslot : importers_slot h (length h) (S (length h))
              (<[length h := obj_set P0 "importers" (VRef (length (h ++ [P0])))]>
                 ((h ++ [P0]) ++ [[]]))).
    { split; [by apply prefix_insert_ge|]. split; [lia|]. split; [lia|].
      eexists. split.
      - rewrite <- app_assoc. simpl. rewrite insert_middle.
        by rewrite lookup_app_r, Nat.sub_diag.
      - rewrite Hlen. done. }
    apply wp_bind, wp_get_prop_any; [|by destruct Hslot]. intros importers'.
    apply wp_bind, wp_object_entries_any; [|by destruct Hslot]. intros entries.
    apply wp_bind.
    eapply wp_mono;
      [apply (wp_for_each
                (λ _ h', importers_slot h (length h) (S (length h)) h')
                (λ _ h', importers_slot h (length h) (S (length h)) h'));
       [exact Hslot|] | |].
    + intros done x rest h1 _ Hslot1. by apply pruneImporter_frame.
    + intros [] h1 [Hpre _]. simpl.
      apply wp_bind, wp_get_prop_any; [|done]. intros packages.
      apply wp_bind.
      apply (wp_mono _ (λ _ h', h `prefix_of` h') _ (λ _ h', h `prefix_of` h')).
      * destruct (truthy packages); [|by apply wp_ret].
        apply wp_bind, wp_get_prop_any; [|done]. intros packages'.
        apply wp_set_prop_any; [|done].
        intros l o [= <-] _. by apply prefix_insert_ge.
      * intros [] h2 Hpre'. simpl.
        apply wp_bind, wp_object_entries_any; [|done]. intros top.
        apply wp_bind.
        eapply wp_mono;
          [apply (wp_for_each (λ _ h', h `prefix_of` h')
                    (λ _ h', h `prefix_of` h')); [done|] | |done].
        -- intros done x rest h3 _ Hpre3. by apply copyOtherKey_frame.
        -- intros [] h3 Hpre3. by apply wp_ret.
      * done.
    + intros e h1 [Hpre _]. done.
Qed.

(** C5: [pruneLockfile] never changes an existing cell of the store: whether
    it returns or throws, the store it leaves begins with the store it was
    given, so the lockfile, its importers and their dependency mappings are
    as before; on a store without dangling references every value is
    deep-equal to its pre-call self.  The registry and [internalDeps] are
    only read (through [get], [has] and iteration), which the embedding
    reflects by passing them as immutable values. *)
Theorem pruneLockfile_never_mutates lockfile targetRelativeDir internalDeps
    (registry : WorkspaceRegistry) rewriteContext h :
  let h' := heap_of (pruneLockfile lockfile targetRelativeDir internalDeps
                       registry rewriteContext h) in
  h `prefix_of` h' ∧
  (∀ l o, h !! l = Some o → h' !! l = Some o) ∧
  (store_closed h = true →
   ∀ v, val_closed h v = true → deep_equal h' v h v).
Proof.
  intros h'. subst h'.
  pose proof (wp_heap_of _ _ _
                (pruneLockfile_frame lockfile targetRelativeDir internalDeps
                   registry rewriteContext h)) as Hpre.
  split; [done|]. split.
  - intros l o Hl. by eapply prefix_lookup_Some.
  - intros Hclosed v Hv depth. by apply snapshot_prefix.
Qed.

End prune_frame.

(** ** Stability of the specification under store growth *)

Lemma stable_above_refl n h : stable_above n h h.
Proof. by intros l o _ Hl. Qed.

Lemma stable_above_trans n h1 h2 h3 :
  stable_above n h1 h2 → stable_above n h2 h3 → stable_above n h1 h3.
Proof. intros H12 H23 l o Hn Hl. apply H23; [done|]. by apply H12. Qed.

Lemma stable_above_le n n' hA hB :
  n' ≤ n → stable_above n' hA hB → stable_above n hA hB.
Proof. intros Hle Hst l o Hn Hl. apply Hst; [lia|done]. Qed.

Lemma stable_above_prefix n hA hB : hA `prefix_of` hB → stable_above n hA hB.
Proof. intros Hpre l o _ Hl. by eapply prefix_lookup_Some. Qed.

Lemma stable_above_insert n (h : heap) l o : l < n → stable_above n h (<[l := o]> h).
Proof. intros Hlt l' o' Hn Hl. rewrite list_lookup_insert_ne by lia. done. Qed.

Section stability.
Context `{PathApi}.

Lemma rewrites_to_stable n n' hin hA hB internalDeps dir ws es res :
  n' ≤ n → stable_above n hA hB →
  rewrites_to n hin hA internalDeps dir ws es res →
  rewrites_to n' hin hB internalDeps dir ws es res.
Proof.
  intros Hle Hst (Hord & Hperm & Hkeys & Hall). repeat (split; [done|]).
  intros k d Hin Hk. specialize (Hall k d Hin Hk).
  destruct (is_workspace_link hin internalDeps k d); [|done].
  destruct Hall as (e & Hget & He & Hout). exists e.
  split; [done|]. split; [lia|]. by apply Hst.
Qed.

Lemma deps_rewritten_stable n n' hin hA hB internalDeps dir ws orig new :
  n' ≤ n → stable_above n hA hB →
  deps_rewritten n hin hA internalDeps dir ws orig new →
  deps_rewritten n' hin hB internalDeps dir ws orig new.
Proof.
  intros Hle Hst. unfold deps_rewritten. destruct orig; try done.
  intros (es & r & res & Hl & -> & Hr & Hres & Hrw).
  exists es, r, res. split; [done|]. split; [done|]. split; [lia|].
  split; [by apply Hst|]. by eapply rewrites_to_stable.
Qed.

Lemma rewritten_importer_stable n n' hin hA hB internalDeps dir ws o copy :
  n' ≤ n → stable_above n hA hB →
  rewritten_importer n hin hA internalDeps dir ws o copy →
  rewritten_importer n' hin hB internalDeps dir ws o copy.
Proof.
  intros Hle Hst (d1 & d2 & d3 & -> & H1 & H2 & H3).
  exists d1, d2, d3. split; [done|].
  repeat split; by eapply deps_rewritten_stable.
Qed.

Lemma importer_emitted_stable n hin hA hB internalDeps branch d v :
  stable_above n hA hB →
  importer_emitted n hin hA internalDeps branch d v →
  importer_emitted n hin hB internalDeps branch d v.
Proof.
  intros Hst. unfold importer_emitted. destruct branch as [[dir ws]|]; [|done].
  intros (lo & o & c & copy & -> & Hlo & -> & Hc & Hcopy & Hrw).
  exists lo, o, c, copy. repeat (split; [done|]).
  split; [by apply Hst|].
  by apply (rewritten_importer_stable n n hin hA hB).
Qed.

Lemma importers_pruned_stable n hin hA hB target internalDeps registry
    rewriteContext ies I :
  stable_above n hA hB →
  importers_pruned n hin hA target internalDeps registry rewriteContext ies I →
  importers_pruned n hin hB target internalDeps registry rewriteContext ies I.
Proof.
  intros Hst (Hnd & Hord & Hcomplete & Hsound). repeat (split; [done|]).
  intros k v Hin. destruct (Hsound k v Hin) as (p & d & Hp & Hkept & Hk & Hem).
  exists p, d. repeat (split; [done|]). by eapply importer_emitted_stable.
Qed.

End stability.

(** ** Typing survives store growth *)

Lemma wt_entry_prefix h0 h d :
  h0 `prefix_of` h → wt_entry h0 d = true → wt_entry h d = true.
Proof.
  intros Hpre. destruct d as [| | | | |l]; try done. simpl.
  destruct (h0 !! l) as [o|] eqn:Hl; [|done].
  by rewrite (prefix_lookup_Some _ _ _ _ Hl Hpre).
Qed.

Lemma is_workspace_link_prefix h0 h internalDeps k d :
  h0 `prefix_of` h → wt_entry h0 d = true →
  is_workspace_link h internalDeps k d = is_workspace_link h0 internalDeps k d.
Proof.
  intros Hpre Hwt. unfold is_workspace_link, specifier_of.
  destruct d as [| | | | |l]; try done. simpl in Hwt.
  destruct (h0 !! l) as [o|] eqn:Hl; [|done].
  by rewrite (prefix_lookup_Some _ _ _ _ Hl Hpre).
Qed.

Section category.
Context `{PathApi}.

Lemma rewrite_progress_rewrites_to h0 hc hout internalDeps dir ws es res news
    fresh :
  h0 `prefix_of` hc →
  (∀ k d, (k, d) ∈ es → wt_entry h0 d = true) →
  fresh ≤ length hc →
  (∀ i o, news !! i = Some o → hout !! (S (length hc + i)) = Some o) →
  rewrite_progress hc internalDeps dir ws es res news →
  rewrites_to fresh h0 hout internalDeps dir ws es res.
Proof.
  intros Hpre Hwt Hfresh Hnews (Hord & Hperm & Hkeys & Hall).
  repeat (split; [done|]).
  intros k d Hin Hk. specialize (Hall k d Hin Hk).
  rewrite (is_workspace_link_prefix h0 hc) in Hall by eauto.
  destruct (is_workspace_link h0 internalDeps k d); [|done].
  destruct Hall as (i & Hget & Hi). exists (S (length hc + i)).
  split; [done|]. split; [lia|]. by apply Hnews.
Qed.

(** One category of a rewritten importer: the copy [C] sits right after the
    store [hb] it was spread from, followed by what has been allocated since
    ([ext]). *)
Lemma rewriteCategory_spec h0 hb C ext lo o category internalDeps dir ws :
  store_ok h0 = true → h0 `prefix_of` hb → h0 !! lo = Some o →
  wt_deps h0 (field o category) = true →
  wp (rewriteCategory (length hb) (VRef lo) category internalDeps dir ws)
     (λ _ h', ∃ d' ext',
        h' = hb ++ obj_set C category d' :: ext' ∧ ext `prefix_of` ext' ∧
        deps_rewritten (S (length hb)) h0 h' internalDeps dir ws
          (field o category) d')
     no_throw (hb ++ C :: ext).
Proof.
  intros Hok Hpre Hlo Hwt.
  set (hc := hb ++ C :: ext).
  assert (Hprec : h0 `prefix_of` hc).
  { etrans; [exact Hpre|]. by apply prefix_app_r. }
  assert (HC : hc !! length hb = Some C).
  { unfold hc. by rewrite lookup_app_r, Nat.sub_diag. }
  unfold rewriteCategory.
  apply wp_bind. eapply wp_get_prop; [by eapply prefix_lookup_Some|].
  destruct (field o category) as [| | | | |ld] eqn:Hfield; try done.
  - apply wp_bind.
    change (rewriteImporterDependencies VUndef internalDeps dir ws)
      with (ret (A := val) VUndef).
    apply wp_ret. eapply wp_set_prop; [exact HC|].
    unfold hc. rewrite insert_middle. by exists VUndef, ext.
  - simpl in Hwt. destruct (h0 !! ld) as [es|] eqn:Hld; [|done].
    assert (Hentries : ∀ k d, (k, d) ∈ es → wt_entry h0 d = true).
    { intros k d Hin. rewrite forallb_forall in Hwt.
      apply (Hwt (k, d)). by apply list_elem_of_In. }
    apply wp_bind.
    eapply wp_mono;
      [apply (rewriteImporterDependencies_spec ld es internalDeps dir ws hc)
      | |done].
    + by eapply prefix_lookup_Some.
    + by eapply store_ok_lookup.
    + intros k d Hin. eapply wt_entry_prefix; eauto.
    + intros v h' (res & news & -> & -> & Hprog). simpl.
      eapply wp_set_prop.
      { apply lookup_app_l_Some. exact HC. }
      unfold hc. rewrite <- app_assoc. simpl. rewrite insert_middle.
      exists (VRef (length (hb ++ C :: ext))), (ext ++ res :: news).
      split; [done|]. split; [by apply prefix_app_r|].
      assert (Hlen : length (hb ++ C :: ext) = S (length hb + length ext)).
      { rewrite length_app. simpl. lia. }
      assert (Hnew : ∀ i o',
        (res :: news) !! i = Some o' →
        (hb ++ obj_set C category (VRef (length (hb ++ C :: ext)))
            :: ext ++ res :: news) !! (length (hb ++ C :: ext) + i) = Some o').
      { intros i o' Hi. rewrite Hlen.
        rewrite lookup_app_r by lia.
        replace (S (length hb + length ext) + i - length hb)
          with (S (length ext + i)) by lia.
        simpl. rewrite lookup_app_r by lia.
        by replace (length ext + i - length ext) with i by lia. }
      exists es, (length (hb ++ C :: ext)), res.
      split; [done|]. split; [done|]. split; [lia|].
      split.
      { specialize (Hnew 0 res eq_refl). by rewrite Nat.add_0_r in Hnew. }
      eapply rewrite_progress_rewrites_to;
        [exact Hprec|done|unfold hc; rewrite Hlen; lia| |done].
      intros i o' Hi. specialize (Hnew (S i) o' Hi).
      by replace (length (hb ++ C :: ext) + S i)
        with (S (length hc + i)) in Hnew by (unfold hc; lia).
Qed.

End category.

(** ** The importer loop of [pruneLockfile] *)

Lemma lookup_pruned (h0 : heap) (P : object) (tl : heap) :
  (h0 ++ P :: tl) !! length h0 = Some P.
Proof. by rewrite lookup_app_r, Nat.sub_diag. Qed.

Lemma lookup_importers (h0 : heap) (P I : object) (tl : heap) :
  (h0 ++ P :: I :: tl) !! S (length h0) = Some I.
Proof.
  rewrite lookup_app_r by lia.
  by replace (S (length h0) - length h0) with 1 by lia.
Qed.

Lemma insert_importers (h0 : heap) (P I I' : object) (tl : heap) :
  <[S (length h0) := I']> (h0 ++ P :: I :: tl) = h0 ++ P :: I' :: tl.
Proof.
  rewrite insert_app_r_alt by lia.
  by replace (S (length h0) - length h0) with 1 by lia.
Qed.

Lemma stable_above_tail (hb hb' : heap) (C C' : object) (ext ext' : heap) :
  length hb = length hb' → ext `prefix_of` ext' →
  stable_above (S (length hb)) (hb ++ C :: ext) (hb' ++ C' :: ext').
Proof.
  intros Hlen Hpre l o Hn Hl.
  rewrite lookup_app_r in Hl by lia. rewrite lookup_app_r by lia.
  rewrite <- Hlen. destruct (l - length hb) as [|j] eqn:Hj; [lia|].
  simpl in *. by eapply prefix_lookup_Some.
Qed.

Lemma wt_importer_inv h d :
  wt_importer h d = true →
  ∃ lo o, d = VRef lo ∧ h !! lo = Some o ∧
          wt_deps h (field o "dependencies") = true ∧
          wt_deps h (field o "devDependencies") = true ∧
          wt_deps h (field o "optionalDependencies") = true.
Proof.
  destruct d as [| | | | |lo]; try done. simpl.
  destruct (h !! lo) as [o|] eqn:Hlo; [|done].
  rewrite !andb_true_iff. intros [[? ?] ?]. by exists lo, o.
Qed.

Section importer_loop.
Context `{PathApi}.
Context (h0 : heap) (target : string) (internalDeps : list string)
        (registry : WorkspaceRegistry).

Lemma importers_pruned_skip rewriteContext h done I p d :
  ¬ kept target internalDeps registry p →
  importers_pruned (2 + length h0) h0 h target internalDeps registry
    rewriteContext done I →
  importers_pruned (2 + length h0) h0 h target internalDeps registry
    rewriteContext (done ++ [(p, d)]) I.
Proof.
  intros Hskip (Hnd & Hord & Hcomplete & Hsound). repeat (split; [done|]). split.
  - intros p' d' Hin Hkept. apply elem_of_app in Hin as [Hin|Hin]; [by eauto|].
    apply list_elem_of_singleton in Hin as [= -> ->]. done.
  - intros k v Hin. destruct (Hsound k v Hin) as (p' & d' & Hp & Hrest).
    exists p', d'. split; [|done]. apply elem_of_app. by left.
Qed.

Lemma importers_pruned_emit rewriteContext hA hB done I p d v :
  kept target internalDeps registry p →
  importers_pruned (2 + length h0) h0 hA target internalDeps registry
    rewriteContext done I →
  stable_above (2 + length h0) hA hB →
  importer_emitted (2 + length h0) h0 hB internalDeps
    (rewrite_dir target internalDeps registry rewriteContext p) d v →
  importers_pruned (2 + length h0) h0 hB target internalDeps registry
    rewriteContext (done ++ [(p, d)])
    (obj_set I (emitted_key target internalDeps registry rewriteContext p) v).
Proof.
  intros Hkept Hold Hst Hem.
  destruct (importers_pruned_stable _ _ _ _ _ _ _ _ _ _ Hst Hold)
    as (Hnd & Hord & Hcomplete & Hsound).
  split; [by apply NoDup_obj_set|].
  split; [by apply entries_ordered_obj_set|]. split.
  - intros p' d' Hin Hkept' Hkey.
    apply elem_of_app in Hin as [Hin|Hin];
      [apply keys_obj_set_old; by eauto|].
    apply list_elem_of_singleton in Hin as [= -> ->].
    by apply keys_obj_set_new.
  - intros k' v' Hin. apply elem_of_obj_set in Hin as [[= -> ->]|Hin].
    + exists p, d. split; [|done]. apply elem_of_app. right.
      apply list_elem_of_here.
    + destruct (Hsound k' v' Hin) as (p' & d' & Hp & Hrest).
      exists p', d'. split; [|done]. apply elem_of_app. by left.
Qed.

Lemma store_importer_spec P I tl key v :
  obj_get P "importers" = Some (VRef (S (length h0))) →
  wp (let! importers := get_prop (VRef (length h0)) "importers" in
      set_prop importers key v)
     (λ _ h', h' = h0 ++ P :: obj_set I key v :: tl)
     no_throw (h0 ++ P :: I :: tl).
Proof.
  intros HP. apply wp_bind. eapply wp_get_prop; [apply lookup_pruned|].
  unfold field. rewrite HP. simpl.
  eapply wp_set_prop; [apply lookup_importers|].
  by rewrite insert_importers.
Qed.

Lemma pruneImporter_spec rewriteContext P I rest done p d :
  store_ok h0 = true → wt_importer h0 d = true →
  obj_get P "importers" = Some (VRef (S (length h0))) →
  importers_pruned (2 + length h0) h0 (h0 ++ P :: I :: rest) target
    internalDeps registry rewriteContext done I →
  wp (pruneImporter (length h0) target internalDeps registry rewriteContext
        (p, d))
     (λ _ h', ∃ I' rest',
        h' = h0 ++ P :: I' :: rest' ∧
        importers_pruned (2 + length h0) h0 h' target internalDeps registry
          rewriteContext (done ++ [(p, d)]) I')
     no_throw (h0 ++ P :: I :: rest).
Proof.
  intros Hok Hwt HP Hold. unfold pruneImporter.
  destruct (String.eqb p "." && negb (String.eqb target ".")) eqn:Hskip.
  { apply wp_ret. exists I, rest. split; [done|].
    apply importers_pruned_skip; [|done]. intros [Hnot _]. apply Hnot.
    apply andb_true_iff in Hskip as [Hp Ht].
    apply String.eqb_eq in Hp. apply negb_true_iff, String.eqb_neq in Ht. done. }
  destruct (bool_decide (p ∈ relevantDirs target internalDeps registry))
    eqn:Hrel; cycle 1.
  { apply wp_ret. exists I, rest. split; [done|].
    apply importers_pruned_skip; [|done]. intros [_ Hin].
    by apply bool_decide_eq_false in Hrel. }
  assert (Hkept : kept target internalDeps registry p).
  { split; [|by apply bool_decide_eq_true in Hrel].
    intros [-> Hne]. simpl in Hskip. apply negb_false_iff in Hskip.
    by apply String.eqb_eq in Hskip. }
  fold (emitted_key target internalDeps registry rewriteContext p).
  set (key := emitted_key target internalDeps registry rewriteContext p).
  assert (Hpass :
    rewrite_dir target internalDeps registry rewriteContext p = None →
    wp (let! importers := get_prop (VRef (length h0)) "importers" in
        set_prop importers key d)
       (λ _ h', ∃ I' rest',
          h' = h0 ++ P :: I' :: rest' ∧
          importers_pruned (2 + length h0) h0 h' target internalDeps registry
            rewriteContext (done ++ [(p, d)]) I')
       no_throw (h0 ++ P :: I :: rest)).
  { intros Hdir.
    eapply wp_mono; [by apply store_importer_spec| |done].
    intros [] h' ->. simpl. exists (obj_set I key d), rest. split; [done|].
    eapply importers_pruned_emit; [done|exact Hold| |by rewrite Hdir].
    rewrite <- (insert_importers h0 P I (obj_set I key d) rest).
    apply stable_above_insert. lia. }
  unfold rewrite_dir in Hpass.
  destruct rewriteContext as [rc|]; [|by apply Hpass].
  destruct (importerPathToOutputDir target internalDeps registry (Some rc) !! p)
    as [dir|] eqn:Hdir; [|by apply Hpass].
  destruct (truthy (VStr dir)) eqn:Htruthy; [|by apply Hpass].
  clear Hpass.
  destruct (wt_importer_inv h0 d Hwt) as (lo & o & -> & Hlo & Hd1 & Hd2 & Hd3).
  set (hb := h0 ++ P :: I :: rest).
  assert (Hpre : h0 `prefix_of` hb) by (by apply prefix_app_r).
  assert (Hlenb : length hb = 2 + length h0 + length rest).
  { unfold hb. rewrite length_app. simpl. lia. }
  apply wp_bind. eapply wp_spread; [by eapply prefix_lookup_Some|].
  apply wp_bind.
  eapply wp_mono;
    [apply (rewriteCategory_spec h0 hb o [] lo o "dependencies"); done| |done].
  intros [] h1 (d1 & ext1 & -> & _ & Hr1). simpl. apply wp_bind.
  eapply wp_mono;
    [apply (rewriteCategory_spec h0 hb _ ext1 lo o "devDependencies"); done
    | |done].
  intros [] h2 (d2 & ext2 & -> & Hext12 & Hr2). simpl. apply wp_bind.
  eapply wp_mono;
    [apply (rewriteCategory_spec h0 hb _ ext2 lo o "optionalDependencies"); done
    | |done].
  intros [] h3 (d3 & ext3 & -> & Hext23 & Hr3). simpl.
  set (C3 := obj_set (obj_set (obj_set o "dependencies" d1)
                        "devDependencies" d2) "optionalDependencies" d3).
  unfold hb. rewrite <- app_assoc. simpl.
  eapply wp_mono; [by apply store_importer_spec| |done].
  intros [] h' ->. simpl.
  set (I' := obj_set I key (VRef (length hb))).
  set (hB := h0 ++ P :: I' :: rest ++ C3 :: ext3).
  assert (HhB : hB = (h0 ++ P :: I' :: rest) ++ C3 :: ext3).
  { unfold hB. by rewrite <- app_assoc. }
  assert (Hlenb' : length (h0 ++ P :: I' :: rest) = length hb).
  { unfold hb. rewrite !length_app. simpl. lia. }
  exists I', (rest ++ C3 :: ext3). split; [done|].
  eapply importers_pruned_emit; [done|exact Hold| |].
  - change (stable_above (2 + length h0) hb hB).
    intros l o' Hn Hl. rewrite HhB.
    apply lookup_app_l_Some. unfold hb in Hl.
    rewrite <- (insert_importers h0 P I I' rest).
    rewrite list_lookup_insert_ne by lia. done.
  - unfold rewrite_dir. rewrite Hdir, Htruthy.
    change (importer_emitted (2 + length h0) h0 hB internalDeps
              (Some (dir, workspacesDir rc)) (VRef lo) (VRef (length hb))).
    exists lo, o, (length hb), C3.
    split; [done|]. split; [done|]. split; [done|]. split; [lia|].
    split.
    { rewrite HhB, <- Hlenb'. apply lookup_pruned. }
    assert (Hst : ∀ C ext, ext `prefix_of` ext3 →
              stable_above (S (length hb)) (hb ++ C :: ext) hB).
    { intros C ext Hext. rewrite HhB. by apply stable_above_tail. }
    exists d1, d2, d3. split; [done|].
    split; [|split].
    + eapply deps_rewritten_stable; [| |exact Hr1]; [lia|].
      apply Hst. by etrans.
    + eapply deps_rewritten_stable; [| |exact Hr2]; [lia|].
      by apply Hst.
    + eapply deps_rewritten_stable; [| |exact Hr3]; [lia|].
      by apply Hst.
Qed.

End importer_loop.

(** ** The final loop over the top-level keys *)

Lemma copy_keys_snoc P done k v :
  copy_keys P (done ++ [(k, v)]) =
  if bool_decide (k ∈ reserved_keys) then copy_keys P done
  else obj_set (copy_keys P done) k v.
Proof. unfold copy_keys. by rewrite foldl_app. Qed.

Lemma copy_keys_other P top k :
  k ∈ reserved_keys ∨ k ∉ keys top →
  obj_get (copy_keys P top) k = obj_get P k.
Proof.
  revert P. induction top as [|[k0 v0] top IH]; intros P Hk; [done|].
  assert (Hk' : k ∈ reserved_keys ∨ k ∉ keys top).
  { destruct Hk as [?|Hk]; [by left|]. right.
    unfold keys in *. simpl in Hk. by apply not_elem_of_cons in Hk as [_ ?]. }
  unfold copy_keys in *. simpl. rewrite IH by done.
  case_bool_decide as Hres; [done|].
  apply obj_get_set_ne. intros ->. destruct Hk as [?|Hk]; [done|].
  apply Hk. unfold keys. simpl. apply list_elem_of_here.
Qed.

Lemma copy_keys_copied P top k v :
  NoDup (keys top) → (k, v) ∈ top → k ∉ reserved_keys → k ≠ "__proto__" →
  obj_get (copy_keys P top) k = Some v.
Proof.
  revert P. induction top as [|[k0 v0] top IH]; intros P Hnd Hin Hres Hk.
  - by apply elem_of_nil in Hin.
  - unfold keys in Hnd. simpl in Hnd. apply NoDup_cons in Hnd as [Hnew Hnd].
    apply elem_of_cons in Hin as [[= -> ->]|Hin].
    + change (copy_keys P ((k0, v0) :: top))
        with (copy_keys (if bool_decide (k0 ∈ reserved_keys) then P
                         else obj_set P k0 v0) top).
      rewrite bool_decide_eq_false_2 by done.
      rewrite copy_keys_other by (by right). by apply obj_get_set_eq.
    + by apply IH.
Qed.

Lemma copy_loop_spec (h0 : heap) (P : object) (tl : heap) (top : object) :
  wp (for_each top (copyOtherKey (length h0)))
     (λ _ h', h' = h0 ++ copy_keys P top :: tl)
     no_throw (h0 ++ P :: tl).
Proof.
  eapply wp_mono;
    [apply (wp_for_each (λ done h', h' = h0 ++ copy_keys P done :: tl) no_throw)
    | |done].
  - done.
  - intros done [k v] rest h1 _ ->. unfold copyOtherKey.
    rewrite copy_keys_snoc. destruct (bool_decide (k ∈ reserved_keys)); simpl.
    + by apply wp_ret.
    + eapply wp_set_prop; [apply lookup_pruned|]. by rewrite insert_middle.
  - by intros [] h' ->.
Qed.

Lemma stable_above_pruned (h0 : heap) (P P' : object) (tl : heap) n :
  length h0 < n → stable_above n (h0 ++ P :: tl) (h0 ++ P' :: tl).
Proof.
  intros Hn. rewrite <- (insert_middle h0 P P' tl).
  by apply stable_above_insert.
Qed.

(** ** What [pruneLockfile] returns for a lockfile with importers *)

Section prune_spec.
Context `{PathApi}.

Lemma pruneLockfile_spec h0 l0 top li ies target internalDeps registry
    rewriteContext :
  store_ok h0 = true →
  h0 !! l0 = Some top → field top "importers" = VRef li →
  h0 !! li = Some ies →
  (∀ p d, (p, d) ∈ ies → wt_importer h0 d = true) →
  wp (pruneLockfile (VRef l0) target internalDeps registry rewriteContext)
     (λ v h', ∃ I rest,
        v = VRef (length h0) ∧
        h' = h0 ++ pruned_top (S (length h0)) top :: I :: rest ∧
        importers_pruned (2 + length h0) h0 h' target internalDeps registry
          rewriteContext ies I)
     no_throw h0.
Proof.
  intros Hok Hl0 Himp Hli Hwt. unfold pruneLockfile.
  apply wp_bind. eapply wp_get_prop; [exact Hl0|].
  apply wp_bind, wp_alloc.
  set (lv := field top "lockfileVersion").
  apply wp_bind. eapply wp_get_prop; [by apply lookup_app_l_Some|].
  rewrite Himp. simpl.
  apply wp_bind, wp_alloc.
  replace (length (h0 ++ [[("lockfileVersion", lv)]])) with (S (length h0))
    by (rewrite length_app; simpl; lia).
  rewrite <- app_assoc. simpl.
  apply wp_bind. eapply wp_set_prop; [apply lookup_pruned|].
  rewrite insert_middle. simpl.
  set (P0 := [("lockfileVersion", lv); ("importers", VRef (S (length h0)))]).
  assert (Hup : ∀ (tl : heap) l o, h0 !! l = Some o → (h0 ++ tl) !! l = Some o).
  { intros tl l o Hl. by apply lookup_app_l_Some. }
  apply wp_bind. eapply wp_get_prop; [by apply Hup|]. rewrite Himp.
  apply wp_bind. eapply wp_object_entries; [by apply Hup|].
  apply wp_bind.
  eapply wp_mono;
    [apply (wp_for_each
              (λ done h', ∃ I rest,
                 h' = h0 ++ P0 :: I :: rest ∧
                 importers_pruned (2 + length h0) h0 h' target internalDeps
                   registry rewriteContext done I)
              no_throw)
    | |done].
  - exists [], []. split; [done|]. split; [apply NoDup_nil_2|].
    split; [done|]. split.
    + intros p d Hin. by apply elem_of_nil in Hin.
    + intros k v Hin. by apply elem_of_nil in Hin.
  - intros done [p d] rest h1 Hies (I & tl & -> & Hold).
    apply pruneImporter_spec; try done.
    apply (Hwt p). rewrite Hies. apply elem_of_app. right.
    apply list_elem_of_here.
  - intros [] h1 (I & rest & -> & Hpruned). simpl.
    apply wp_bind. eapply wp_get_prop; [by apply Hup|].
    set (pk := field top "packages").
    set (P1 := if truthy pk then obj_set P0 "packages" pk else P0).
    apply wp_bind.
    apply (wp_mono _ (λ _ h', h' = h0 ++ P1 :: I :: rest) _ no_throw).
    + unfold P1. destruct (truthy pk).
      * apply wp_bind. eapply wp_get_prop; [by apply Hup|].
        eapply wp_set_prop; [apply lookup_pruned|]. by rewrite insert_middle.
      * by apply wp_ret.
    + intros [] h2 ->. simpl.
      apply wp_bind. eapply wp_object_entries; [by apply Hup|].
      apply wp_bind.
      eapply wp_mono; [apply (copy_loop_spec h0 P1 (I :: rest) top)| |done].
      intros [] h3 ->. simpl. apply wp_ret.
      exists I, rest. split; [done|]. split; [done|].
      eapply importers_pruned_stable; [|exact Hpruned].
      apply stable_above_pruned. lia.
    + done.
Qed.

End prune_spec.

(** ** The relevant directories and the two relocation tables *)


Lemma foldl_invariant {A B} (P : A → Prop) (f : A → B → A) (l : list B) (a : A) :
  P a → (∀ a x, P a → x ∈ l → P (f a x)) → P (foldl f a l).
Proof.
  revert a. induction l as [|x l IH]; intros a Ha Hstep; [done|].
  simpl. apply IH.
  - apply Hstep; [done|]. apply list_elem_of_here.
  - intros a' x' Ha' Hin. apply Hstep; [done|]. by apply list_elem_of_further.
Qed.

Section tables.
Context `{PathApi}.
Context (target : string) (internalDeps : list string)
        (registry : WorkspaceRegistry).

Lemma relevantDirs_target : target ∈ relevantDirs target internalDeps registry.
Proof.
  unfold relevantDirs. apply foldl_invariant; [set_solver|].
  intros dirs x Hin _. destruct (registry !! x); set_solver.
Qed.

Lemma dom_table_foldl (g : string → string) (l : list string)
    (m : gmap string string) (dirs : gset string) :
  dom m = dirs →
  dom (foldl (λ table depName,
                match registry !! depName with
                | Some pkg => <[rootRelativeDir pkg := g depName]> table
                | None => table
                end) m l)
  = foldl (λ dirs depName,
             match registry !! depName with
             | Some pkg => dirs ∪ {[rootRelativeDir pkg]}
             | None => dirs
             end) dirs l.
Proof.
  revert m dirs. induction l as [|x l IH]; intros m dirs Hdom; [done|].
  simpl. destruct (registry !! x) as [pkg|]; [|by apply IH].
  apply IH. rewrite dom_insert_L. set_solver.
Qed.

Lemma table_values_foldl (g : string → string) (Q : string → string → Prop)
    (l : list string) (m : gmap string string) :
  (∀ p v, m !! p = Some v → Q p v) →
  (∀ n pkg, n ∈ l → registry !! n = Some pkg → Q (rootRelativeDir pkg) (g n)) →
  ∀ p v,
    foldl (λ table depName,
             match registry !! depName with
             | Some pkg => <[rootRelativeDir pkg := g depName]> table
             | None => table
             end) m l !! p = Some v →
    Q p v.
Proof.
  intros Hinit Hstep.
  apply (foldl_invariant (λ m : gmap string string, ∀ p v, m !! p = Some v → Q p v));
    [done|].
  intros m' x Hm' Hin p v. destruct (registry !! x) as [pkg|] eqn:Hx; [|by apply Hm'].
  rewrite lookup_insert. case_decide as Hp.
  - intros [= <-]. subst p. by eapply Hstep.
  - by apply Hm'.
Qed.

(** Both relocation tables have exactly the relevant directories as keys. *)
Lemma tables_same_keys rc :
  dom (importerPathToOutputDir target internalDeps registry (Some rc))
    = relevantDirs target internalDeps registry ∧
  dom (importerPathToNewPath target internalDeps registry (Some rc))
    = relevantDirs target internalDeps registry.
Proof.
  unfold importerPathToOutputDir, importerPathToNewPath, relevantDirs.
  split.
  - apply (dom_table_foldl
             (λ depName, path_join (workspacesDir rc) (safeName depName))).
    rewrite dom_insert_L. set_solver.
  - apply (dom_table_foldl (λ depName, "workspaces/" +:+ safeName depName)).
    rewrite dom_insert_L. set_solver.
Qed.

(** With a non-empty [outputDir], no output directory in the table is the
    empty string. *)
Lemma output_dirs_nonempty rc p dir :
  outputDir rc ≠ "" →
  importerPathToOutputDir target internalDeps registry (Some rc) !! p = Some dir →
  dir ≠ "".
Proof.
  intros Hout. unfold importerPathToOutputDir.
  apply (table_values_foldl
           (λ depName, path_join (workspacesDir rc) (safeName depName))
           (λ _ v, v ≠ "")).
  - intros p' v. rewrite lookup_insert. case_decide; [|done]. by intros [= <-].
  - intros n pkg _ _. apply path_join_nonempty.
Qed.

(** Only the target is emitted under the key ["."]. *)
Lemma new_path_dot rc p :
  importerPathToNewPath target internalDeps registry (Some rc) !! p = Some "." →
  p = target.
Proof.
  unfold importerPathToNewPath. intros Hp.
  eapply (table_values_foldl
            (λ depName, "workspaces/" +:+ safeName depName)
            (λ p v, v = "." → p = target)); [| |exact Hp|done].
  - intros p' v. rewrite lookup_insert. case_decide; [|done]. by intros [= <-].
  - intros n pkg _ _. discriminate.
Qed.


End tables.

(** ** Reading the typing checks *)

Lemma wt_lockfile_inv h l0 top :
  wt_lockfile h (VRef l0) = true → h !! l0 = Some top →
  obj_get top "lockfileVersion" = Some (field top "lockfileVersion") ∧
  wt_importers h (field top "importers") = true ∧
  (∀ lp, field top "packages" = VRef lp → lp < length h).
Proof.
  simpl. intros Hwt Hl0. rewrite Hl0 in Hwt.
  apply andb_true_iff in Hwt as [Hwt Hpk].
  apply andb_true_iff in Hwt as [Hlv Himp].
  split; [|split; [done|]].
  - unfold field. by destruct (obj_get top "lockfileVersion").
  - intros lp Hlp. unfold field in *. rewrite Hlp in Hpk.
    by apply bool_decide_eq_true in Hpk.
Qed.

Lemma wt_importers_inv h li ies :
  wt_importers h (VRef li) = true → h !! li = Some ies →
  ∀ p d, (p, d) ∈ ies → wt_importer h d = true.
Proof.
  simpl. intros Hwt Hli p d Hin. rewrite Hli in Hwt.
  rewrite forallb_forall in Hwt. apply (Hwt (p, d)). by apply list_elem_of_In.
Qed.


Lemma pruned_top_reserved importers top :
  obj_get (pruned_top importers top) "lockfileVersion"
    = Some (field top "lockfileVersion") ∧
  obj_get (pruned_top importers top) "importers" = Some (VRef importers) ∧
  (∀ lp, field top "packages" = VRef lp →
     obj_get (pruned_top importers top) "packages" = Some (VRef lp)).
Proof.
  unfold pruned_top. split; [|split].
  - rewrite copy_keys_other by (left; set_solver). by destruct (truthy _).
  - rewrite copy_keys_other by (left; set_solver). by destruct (truthy _).
  - intros lp Hpk. rewrite copy_keys_other by (left; set_solver).
    by rewrite Hpk.
Qed.

Lemma pruned_top_other importers top k v :
  NoDup (keys top) → k ∉ reserved_keys → k ≠ "__proto__" →
  obj_get top k = Some v →
  obj_get (pruned_top importers top) k = Some v.
Proof.
  intros Hnd Hres Hk Hget. unfold pruned_top.
  apply copy_keys_copied; [done| |done|done]. by apply obj_get_Some_elem.
Qed.

Lemma rewritten_copy_fields o d1 d2 d3 :
  let copy := obj_set (obj_set (obj_set o "dependencies" d1)
                         "devDependencies" d2) "optionalDependencies" d3 in
  obj_get copy "dependencies" = Some d1 ∧
  obj_get copy "devDependencies" = Some d2 ∧
  obj_get copy "optionalDependencies" = Some d3 ∧
  (∀ k, k ∉ ["dependencies"; "devDependencies"; "optionalDependencies"] →
     obj_get copy k = obj_get o k).
Proof.
  simpl. split; [|split; [|split]].
  - rewrite !obj_get_set_ne by done. by apply obj_get_set_eq.
  - rewrite obj_get_set_ne by done. by apply obj_get_set_eq.
  - by apply obj_get_set_eq.
  - intros k Hk. rewrite !obj_get_set_ne; [done|set_solver..].
Qed.

Section prune_results.
Context `{PathApi}.


(** The result for a well-typed lockfile with importers. *)
Lemma pruneLockfile_result h l0 top li ies targetRelativeDir internalDeps
    registry rewriteContext :
  store_ok h = true → wt_lockfile h (VRef l0) = true →
  h !! l0 = Some top → obj_get top "importers" = Some (VRef li) →
  h !! li = Some ies →
  ∃ h' I,
    pruneLockfile (VRef l0) targetRelativeDir internalDeps registry
      rewriteContext h = Ok (VRef (length h)) h' ∧
    h `prefix_of` h' ∧
    h' !! length h = Some (pruned_top (S (length h)) top) ∧
    h' !! S (length h) = Some I ∧
    importers_pruned (2 + length h) h h' targetRelativeDir internalDeps
      registry rewriteContext ies I.
Proof.
  intros Hok Hwt Hl0 Himp Hli.
  assert (Hfield : field top "importers" = VRef li).
  { unfold field. by rewrite Himp. }
  destruct (wt_lockfile_inv h l0 top Hwt Hl0) as (_ & Hwti & _).
  rewrite Hfield in Hwti.
  destruct (wp_ok _ _ _
              (pruneLockfile_spec h l0 top li ies targetRelativeDir
                 internalDeps registry rewriteContext Hok Hl0 Hfield Hli
                 (wt_importers_inv h li ies Hwti Hli)))
    as (v & h' & Hrun & I & rest & -> & -> & Hpruned).
  exists (h ++ pruned_top (S (length h)) top :: I :: rest), I.
  split; [done|]. split; [by apply prefix_app_r|].
  split; [apply lookup_pruned|]. split; [apply lookup_importers|done].
Qed.

End prune_results.

(** ** The claims about [pruneLockfile] on a lockfile with importers *)

Section emitted_values.
Context `{PathApi}.

Lemma importer_emitted_weaken n n' hin hout internalDeps branch d v :
  n' ≤ n →
  importer_emitted n hin hout internalDeps branch d v →
  importer_emitted n' hin hout internalDeps branch d v.
Proof.
  intros Hle. unfold importer_emitted. destruct branch as [[dir ws]|]; [|done].
  intros (lo & o & c & copy & -> & Hlo & -> & Hc & Hcopy & Hrw).
  exists lo, o, c, copy. repeat (split; [done|]). split; [lia|].
  split; [done|].
  eapply rewritten_importer_stable; [exact Hle| |exact Hrw].
  apply stable_above_refl.
Qed.



End emitted_values.

Section prune_claims.
Context `{PathApi}.

(** X17: for a well-typed lockfile with an [importers] field the result is
    a new object whose [lockfileVersion] is the very value of the input
    (string or number as it was), whose [packages], when the input has one,
    is the same reference to the same unchanged object, and in which every
    other key of the input outside [lockfileVersion], [importers],
    [packages] and [__proto__] holds the value the input holds. *)
Theorem pruneLockfile_top_level_frame h l0 top li ies targetRelativeDir
    internalDeps registry rewriteContext :
  store_ok h = true → wt_lockfile h (VRef l0) = true →
  h !! l0 = Some top → obj_get top "importers" = Some (VRef li) →
  h !! li = Some ies →
  ∃ r h' P,
    pruneLockfile (VRef l0) targetRelativeDir internalDeps registry
      rewriteContext h = Ok (VRef r) h' ∧
    h !! r = None ∧ h' !! r = Some P ∧
    obj_get P "lockfileVersion" = obj_get top "lockfileVersion" ∧
    (∀ lp, obj_get top "packages" = Some (VRef lp) →
       obj_get P "packages" = Some (VRef lp) ∧ h' !! lp = h !! lp) ∧
    (∀ k v, k ∉ reserved_keys → k ≠ "__proto__" → obj_get top k = Some v →
       obj_get P k = Some v).
Proof.
  intros Hok Hwt Hl0 Himp Hli.
  destruct (pruneLockfile_result h l0 top li ies targetRelativeDir internalDeps
              registry rewriteContext Hok Hwt Hl0 Himp Hli)
    as (h' & I & Hrun & Hpre & HP & _ & _).
  destruct (wt_lockfile_inv h l0 top Hwt Hl0) as (Hlv & _ & Hpk).
  destruct (pruned_top_reserved (S (length h)) top) as (HPlv & _ & HPpk).
  exists (length h), h', (pruned_top (S (length h)) top).
  split; [done|]. split; [by apply lookup_ge_None|]. split; [done|].
  split; [by rewrite HPlv, Hlv|]. split.
  - intros lp Hlp.
    assert (Hfield : field top "packages" = VRef lp).
    { unfold field. by rewrite Hlp. }
    split; [by apply HPpk|].
    symmetry. apply prefix_lookup_lt; [|done]. by apply Hpk.
  - intros k v Hres Hk Hget. apply pruned_top_other; [|done..].
    by eapply store_ok_lookup.
Qed.

(** C2 (amended): for a well-typed lockfile and [targetDir ≠ "."], the
    workspace-root importer is never emitted: every entry of the result's
    [importers] is the emitted form (the importer object itself, or a new
    rewritten shallow copy of it when the rewriting branch is taken) of an
    input importer whose path is not ["."], under that importer's emitted
    key.  Without a relocation context the key ["."] is therefore absent
    from the result; with one, the key ["."] can be present, and the entry it
    holds is then the emitted form of the target importer, which relocation
    stores under ["."]. *)
Theorem pruneLockfile_root_excluded h l0 top li ies targetRelativeDir
    internalDeps registry rewriteContext :
  store_ok h = true → wt_lockfile h (VRef l0) = true →
  h !! l0 = Some top → obj_get top "importers" = Some (VRef li) →
  h !! li = Some ies →
  targetRelativeDir ≠ "." →
  ∃ r h' P i I,
    pruneLockfile (VRef l0) targetRelativeDir internalDeps registry
      rewriteContext h = Ok (VRef r) h' ∧
    h' !! r = Some P ∧ obj_get P "importers" = Some (VRef i) ∧
    h' !! i = Some I ∧
    (∀ k v, (k, v) ∈ I →
       ∃ p d, (p, d) ∈ ies ∧ p ≠ "." ∧
              k = emitted_key targetRelativeDir internalDeps registry
                    rewriteContext p ∧
              importer_emitted (length h) h h' internalDeps
                (rewrite_dir targetRelativeDir internalDeps registry
                   rewriteContext p) d v) ∧
    (rewriteContext = None → "." ∉ keys I) ∧
    (∀ v, (".", v) ∈ I →
       ∃ d, (targetRelativeDir, d) ∈ ies ∧
            importer_emitted (length h) h h' internalDeps
              (rewrite_dir targetRelativeDir internalDeps registry
                 rewriteContext targetRelativeDir) d v).
Proof.
  intros Hok Hwt Hl0 Himp Hli Htarget.
  destruct (pruneLockfile_result h l0 top li ies targetRelativeDir internalDeps
              registry rewriteContext Hok Hwt Hl0 Himp Hli)
    as (h' & I & Hrun & Hpre & HP & HI & _ & _ & _ & Hsound).
  destruct (pruned_top_reserved (S (length h)) top) as (_ & HPimp & _).
  exists (length h), h', (pruned_top (S (length h)) top), (S (length h)), I.
  repeat (split; [done|]).
  assert (Horigin : ∀ k v, (k, v) ∈ I →
    ∃ p d, (p, d) ∈ ies ∧ p ≠ "." ∧
           k = emitted_key targetRelativeDir internalDeps registry
                 rewriteContext p ∧
           importer_emitted (length h) h h' internalDeps
             (rewrite_dir targetRelativeDir internalDeps registry
                rewriteContext p) d v).
  { intros k v Hin.
    destruct (Hsound k v Hin) as (p & d & Hp & [Hroot _] & Hk & Hem).
    exists p, d. split; [done|]. split; [intros ->; by apply Hroot|].
    split; [done|]. eapply importer_emitted_weaken; [|exact Hem]. lia. }
  split; [done|]. split.
  - intros -> Hin. unfold keys in Hin.
    apply list_elem_of_fmap in Hin as ([k v] & Hk & Hin). simpl in Hk. subst k.
    destruct (Horigin "." v Hin) as (p & d & _ & Hne & Hk & _).
    unfold emitted_key, importerPathToNewPath in Hk.
    rewrite lookup_empty in Hk. simpl in Hk. congruence.
  - intros v Hin. destruct (Horigin "." v Hin) as (p & d & Hp & Hne & Hk & Hem).
    exists d. unfold emitted_key in Hk.
    assert (p = targetRelativeDir) as ->; [|done].
    destruct rewriteContext as [rc|].
    + destruct (importerPathToNewPath targetRelativeDir internalDeps registry
                  (Some rc) !! p) as [np|] eqn:Hnp; simpl in Hk; [|congruence].
      subst np. by apply new_path_dot in Hnp.
    + unfold importerPathToNewPath in Hk. rewrite lookup_empty in Hk.
      simpl in Hk. congruence.
Qed.



End prune_claims.

(** ** The claims on the sample lockfile *)

(** The error model is not idle: without a lockfile object the first
    property read throws, and an entry that is [null] where a
    [DependencyEntry] is expected makes the rewriter throw. *)
Lemma pruneLockfile_throws_on_ill_typed_input :
  pruneLockfile (H := posix_path "/") VUndef "packages/a" [] ∅ None []
    = Throw (TypeError "Cannot read properties") [] ∧
  ∃ h', rewriteImporterDependencies (H := posix_path "/") (VRef 0) ["a"]
          "/out" "/out/workspaces" [[("a", VNull)]]
        = Throw (TypeError "Cannot read properties") h'.
Proof. split; [reflexivity|]. by eexists. Qed.

(** C4: the top-level key [__proto__] of this lockfile is outside
    [lockfileVersion], [importers] and [packages], yet the result does not
    hold it: the assignment [pruned[key] = value] runs the inherited
    [__proto__] setter.  The other keys are there. *)
Lemma pruneLockfile_drops_top_level_proto_key :
  store_ok store_unusual_keys = true ∧
  wt_lockfile store_unusual_keys (VRef 0) = true ∧
  get_path store_unusual_keys (VRef 0) ["__proto__"] = VRef 2 ∧
  ∃ h' P,
    pruneLockfile (H := posix_path "/") (VRef 0) "packages/a"
      sample_internalDeps sample_registry None store_unusual_keys
      = Ok (VRef 8) h' ∧
    h' !! 8 = Some P ∧
    obj_get P "__proto__" = None ∧
    keys P = ["7"; "lockfileVersion"; "importers"; "overrides"].
Proof.
  repeat (split; [reflexivity|]).
  eexists _, _. split; [vm_compute; reflexivity|]. by repeat split.
Qed.

(** C2, as the specification words it, fails under relocation: the sample
    lockfile has a root importer, the target is [packages/a], and the result
    has the key ["."] in its importers (it holds the relocated target). *)
Lemma pruneLockfile_root_key_present_under_relocation :
  "." ∈ keys [(".", VRef 2); ("packages/a", VRef 4); ("packages/b", VRef 10);
              ("packages/z", VRef 10)] ∧
  sample_store !! 1 = Some [(".", VRef 2); ("packages/a", VRef 4);
                            ("packages/b", VRef 10); ("packages/z", VRef 10)] ∧
  get_path sample_store (VRef 0) ["importers"] = VRef 1 ∧
  ∃ h' I,
    pruneLockfile (H := posix_path "/") (VRef 0) "packages/a"
      sample_internalDeps sample_registry (Some sample_context) sample_store
      = Ok (VRef 12) h' ∧
    get_path h' (VRef 12) ["importers"] = VRef 13 ∧
    h' !! 13 = Some I ∧ "." ∈ keys I.
Proof.
  split; [apply list_elem_of_here|]. split; [reflexivity|].
  split; [reflexivity|].
  eexists _, _. split; [vm_compute; reflexivity|].
  split; [reflexivity|]. split; [reflexivity|]. apply list_elem_of_here.
Qed.

Lemma pruneLockfile_root_excluded_witness :
  ∃ r h' P i I,
    pruneLockfile (H := posix_path "/") (VRef 0) "packages/a"
      sample_internalDeps sample_registry None sample_store
      = Ok (VRef r) h' ∧
    h' !! r = Some P ∧ obj_get P "importers" = Some (VRef i) ∧
    h' !! i = Some I ∧ "." ∉ keys I.
Proof.
  destruct (pruneLockfile_root_excluded (H := posix_path "/") sample_store 0
              [("lockfileVersion", VStr "9.0"); ("settings", VRef 11);
               ("importers", VRef 1); ("packages", VRef 7)]
              1
              [(".", VRef 2); ("packages/a", VRef 4); ("packages/b", VRef 10);
               ("packages/z", VRef 10)]
              "packages/a" sample_internalDeps sample_registry None
              eq_refl eq_refl eq_refl eq_refl eq_refl)
    as (r & h' & P & i & I & Hrun & HP & Himp & HI & _ & Hroot & _).
  { discriminate. }
  exists r, h', P, i, I. repeat (split; [assumption|]). by apply Hroot.
Defined.

Lemma pruneLockfile_top_level_frame_witness :
  ∃ r h' P,
    pruneLockfile (H := posix_path "/") (VRef 0) "packages/a"
      sample_internalDeps sample_registry (Some sample_context) sample_store
      = Ok (VRef r) h' ∧
    h' !! r = Some P ∧
    obj_get P "lockfileVersion" = Some (VStr "9.0") ∧
    obj_get P "packages" = Some (VRef 7) ∧
    obj_get P "settings" = Some (VRef 11).
Proof.
  destruct (pruneLockfile_top_level_frame (H := posix_path "/") sample_store 0
              [("lockfileVersion", VStr "9.0"); ("settings", VRef 11);
               ("importers", VRef 1); ("packages", VRef 7)]
              1
              [(".", VRef 2); ("packages/a", VRef 4); ("packages/b", VRef 10);
               ("packages/z", VRef 10)]
              "packages/a" sample_internalDeps sample_registry
              (Some sample_context)
              eq_refl eq_refl eq_refl eq_refl eq_refl)
    as (r & h' & P & Hrun & _ & HP & Hlv & Hpk & Hother).
  exists r, h', P. repeat (split; [assumption|]). split.
  - by apply (Hpk 7).
  - apply Hother; [|discriminate|reflexivity]. unfold reserved_keys.
    intros Hin. repeat (apply elem_of_cons in Hin as [Hin|Hin]; [discriminate|]).
    by apply elem_of_nil in Hin.
Defined.

Lemma pruneLockfile_never_mutates_witness :
  sample_store `prefix_of`
    heap_of (pruneLockfile (H := posix_path "/") (VRef 0) "packages/a"
               sample_internalDeps sample_registry (Some sample_context)
               sample_store) ∧
  deep_equal
    (heap_of (pruneLockfile (H := posix_path "/") (VRef 0) "packages/a"
                sample_internalDeps sample_registry (Some sample_context)
                sample_store)) (VRef 0)
    sample_store (VRef 0).
Proof.
  destruct (pruneLockfile_never_mutates (H := posix_path "/") (VRef 0)
              "packages/a" sample_internalDeps sample_registry
              (Some sample_context) sample_store) as (Hpre & _ & Hdeep).
  split; [exact Hpre|]. apply Hdeep; reflexivity.
Defined.





(** * Further properties of the code *)

(** ** [safeName] and the relevant directories *)

Lemma replace_slashes_no_slash s : contains_char "/" (replace_slashes s) = false.
Proof.
  induction s as [|c s IH]; [done|]. simpl.
  destruct (Ascii.eqb_spec c "/") as [->|Hne]; simpl; [done|].
  rewrite IH. by destruct (Ascii.eqb_spec c "/").
Qed.

Lemma replace_slashes_length s :
  String.length (replace_slashes s) = String.length s.
Proof. induction s as [|c s IH]; simpl; [done|]. by rewrite IH. Qed.

Lemma replace_slashes_fixed s :
  replace_slashes s = s ↔ contains_char "/" s = false.
Proof.
  induction s as [|c s IH]; simpl; [done|].
  destruct (Ascii.eqb_spec c "/") as [->|Hne]; simpl.
  - split; [|done]. intros Heq. inversion Heq.
  - rewrite <- IH. split; [by intros [= ->] | by intros ->].
Qed.

(** X1: The directory name derived from a package name never contains a [/],
    is the name itself exactly when the name has no [/] and no leading [@],
    and is at most one character shorter than the name. *)
Theorem safeName_characterised depName :
  contains_char "/" (safeName depName) = false ∧
  (safeName depName = depName ↔
   contains_char "/" depName = false ∧ startsWith depName "@" = false) ∧
  String.length (safeName depName)
    = String.length depName - (if startsWith depName "@" then 1 else 0).
Proof.
  unfold safeName. split; [apply replace_slashes_no_slash|].
  destruct depName as [|c rest]; [done|].
  assert (Hat : startsWith (String c rest) "@" = Ascii.eqb c "@").
  { unfold startsWith.
    change (String.prefix "@" (String c rest))
      with (if ascii_dec "@" c then String.prefix "" rest else false).
    destruct (ascii_dec "@" c) as [<-|Hne]; [by destruct rest|].
    symmetry. apply Ascii.eqb_neq. congruence. }
  rewrite Hat. destruct (Ascii.eqb_spec c "@") as [->|Hne].
  - simpl. split.
    + split; [|by intros [_ ?]]. intros Heq.
      apply (f_equal String.length) in Heq.
      rewrite replace_slashes_length in Heq. simpl in Heq. lia.
    + rewrite replace_slashes_length. lia.
  - assert (Hstrip : strip_leading_at (String c rest) = String c rest).
    { destruct c as [[] [] [] [] [] [] [] []]; try done. }
    rewrite Hstrip. split.
    + rewrite replace_slashes_fixed. naive_solver.
    + rewrite replace_slashes_length. simpl. lia.
Qed.

Lemma relevantDirs_foldl (registry : WorkspaceRegistry) l (dirs : gset string) p :
  p ∈ foldl (λ dirs depName,
               match registry !! depName with
               | Some pkg => dirs ∪ {[rootRelativeDir pkg]}
               | None => dirs
               end) dirs l
  ↔ p ∈ dirs ∨ ∃ depName pkg, depName ∈ l ∧ registry !! depName = Some pkg ∧
                              rootRelativeDir pkg = p.
Proof.
  revert dirs. induction l as [|x l IH]; intros dirs; simpl.
  - split; [by left|]. intros [?|(n & pkg & Hin & _)]; [done|].
    by apply elem_of_nil in Hin.
  - rewrite IH. split.
    + intros [Hin|(n & pkg & Hn & Hreg & Hdir)].
      * destruct (registry !! x) as [pkg|] eqn:Hx; [|by left].
        apply elem_of_union in Hin as [Hin|Hin]; [by left|].
        apply elem_of_singleton in Hin. right. exists x, pkg.
        split; [apply list_elem_of_here|done].
      * right. exists n, pkg. split; [by apply list_elem_of_further|done].
    + intros [Hin|(n & pkg & Hn & Hreg & Hdir)].
      * left. destruct (registry !! x); set_solver.
      * apply elem_of_cons in Hn as [->|Hn].
        -- left. rewrite Hreg. set_solver.
        -- right. by exists n, pkg.
Qed.

(** X2: A directory is relevant exactly when it is the target or the
    [rootRelativeDir] of an internal dependency that the registry knows. *)
Theorem relevantDirs_characterised targetRelativeDir internalDeps
    (registry : WorkspaceRegistry) importerPath :
  importerPath ∈ relevantDirs targetRelativeDir internalDeps registry ↔
  importerPath = targetRelativeDir ∨
  ∃ depName pkg, depName ∈ internalDeps ∧ registry !! depName = Some pkg ∧
                 rootRelativeDir pkg = importerPath.
Proof.
  unfold relevantDirs. rewrite relevantDirs_foldl.
  by rewrite elem_of_singleton.
Qed.

(** ** More on [rewriteImporterDependencies] *)

Lemma for_each_throws {A} (xs : list A) (body : A → M unit) (x : A) :
  x ∈ xs → (∀ h, ∃ e h', body x h = Throw e h') →
  ∀ h, ∃ e h', for_each xs body h = Throw e h'.
Proof.
  intros Hin Hthrow. induction xs as [|a xs IH]; intros h.
  - by apply elem_of_nil in Hin.
  - simpl. unfold bind. destruct (body a h) as [[] h1|e h1] eqn:Ha; [|by eauto].
    apply elem_of_cons in Hin as [->|Hin].
    + destruct (Hthrow h) as (e & h' & He). congruence.
    + by apply IH.
Qed.

Lemma startsWith_file_workspace rel :
  startsWith ("file:" +:+ rel) "workspace:" = false.
Proof. reflexivity. Qed.

Section rewriter_more.
Context `{PathApi}.

(** A mapping whose entries the rewriter all stores as they are (the name
    is no internal dependency, or the specifier is a string that does not
    start with [workspace:]) is copied entry by entry, except for an own
    [__proto__] key. *)
Lemma rewriteImporterDependencies_copy h l es internalDeps out ws :
  h !! l = Some es → NoDup (keys es) → entries_ordered es = true →
  (∀ k d, (k, d) ∈ es →
     set_has internalDeps k = false ∨
     ∃ ld eo s, d = VRef ld ∧ h !! ld = Some eo ∧
                obj_get eo "specifier" = Some (VStr s) ∧
                startsWith s "workspace:" = false) →
  rewriteImporterDependencies (VRef l) internalDeps out ws h
    = Ok (VRef (length h)) (h ++ [filter (λ kv, kv.1 ≠ "__proto__") es]).
Proof.
  intros Hl Hnd Hord Hplain.
  set (own := λ kv : string * val, kv.1 ≠ "__proto__").
  cut (wp (rewriteImporterDependencies (VRef l) internalDeps out ws)
         (λ v h', v = VRef (length h) ∧ h' = h ++ [filter own es]) no_throw h).
  { intros Hwp. apply wp_ok in Hwp as (v & h' & -> & -> & ->). done. }
  unfold rewriteImporterDependencies. simpl.
  apply wp_bind, wp_alloc.
  apply wp_bind. eapply wp_object_entries; [by apply lookup_app_l_Some|].
  apply wp_bind.
  eapply wp_mono;
    [apply (wp_for_each (λ done h', h' = h ++ [filter own done]) no_throw)
    | |done].
  - done.
  - intros done [k d] rest h1 Hes ->.
    assert (Hsub : ∀ k', k' ∈ keys (filter own done) →
              k' ∈ keys done ∧ k' ≠ "__proto__").
    { intros k' Hin. unfold keys in *.
      apply list_elem_of_fmap in Hin as ([k0 v0] & -> & Hin).
      apply list_elem_of_filter in Hin as [Hk0 Hin]. split; [|done].
      apply list_elem_of_fmap. by exists (k0, v0). }
    assert (Hnew : k ∉ keys done).
    { intros Hin. rewrite Hes in Hnd. unfold keys in *.
      rewrite fmap_app in Hnd. apply NoDup_app in Hnd as (_ & Hdisj & _).
      apply (Hdisj k Hin). simpl. apply list_elem_of_here. }
    assert (Hbefore : ∀ k', k' ∈ keys done → key_before k' k = true).
    { rewrite Hes in Hord.
      apply entries_ordered_app in Hord as (_ & _ & Hcross).
      intros k' Hin. apply Hcross; [done|]. apply list_elem_of_here. }
    assert (Hstore :
      wp (set_prop (VRef (length h)) k d)
         (λ _ h2, h2 = h ++ [filter own (done ++ [(k, d)])]) no_throw
         (h ++ [filter own done])).
    { eapply wp_set_prop; [apply lookup_pruned|].
      rewrite insert_middle, filter_app, filter_cons, filter_nil.
      destruct (decide (own (k, d))) as [Hk|Hk]; unfold own in Hk; simpl in Hk.
      - rewrite obj_set_last; [done| |done|].
        + intros Hin. by apply Hsub in Hin as [? _].
        + intros k' Hin. by apply Hbefore, Hsub.
      - assert (k = "__proto__") as -> by (by destruct (decide (k = "__proto__"))).
        rewrite obj_set_proto, app_nil_r; [done|].
        intros Hin. by apply Hsub in Hin as [_ ?]. }
    unfold rewriteEntry. apply wp_bind.
    destruct (Hplain k d) as [Hhas|(ld & eo & s & -> & Hld & Hspec & Hsw)].
    { rewrite Hes. apply elem_of_app. right. apply list_elem_of_here. }
    + rewrite Hhas. by apply wp_ret.
    + destruct (set_has internalDeps k); [|by apply wp_ret].
      apply wp_bind. eapply wp_get_prop; [by apply lookup_app_l_Some|].
      unfold field. rewrite Hspec. apply wp_optional_startsWith_str.
      by rewrite Hsw.
  - intros [] h' ->. by apply wp_ret.
Qed.

(** X3: Names outside [internalDeps] are never looked into: a mapping none of
    whose keys is an internal dependency is copied into one new object,
    entry by entry in the same order and whatever the values are (even
    [null]), except for an own [__proto__] key, which the copy does not
    have; nothing else is allocated. *)
Theorem rewriteImporterDependencies_no_internal_names h l es internalDeps
    newImporterDir workspacesDir :
  h !! l = Some es → NoDup (keys es) → entries_ordered es = true →
  (∀ depName, depName ∈ keys es → depName ∉ internalDeps) →
  rewriteImporterDependencies (VRef l) internalDeps newImporterDir
    workspacesDir h
  = Ok (VRef (length h)) (h ++ [filter (λ kv, kv.1 ≠ "__proto__") es]).
Proof.
  intros Hl Hnd Hord Hout.
  apply rewriteImporterDependencies_copy; [done|done|done|].
  intros k d Hin. left. apply bool_decide_eq_false, Hout.
  unfold keys. apply list_elem_of_fmap. by exists (k, d).
Qed.

(** X4: Whatever it is given, and whether it returns or throws,
    [rewriteImporterDependencies] leaves every existing object as it was;
    a falsy [deps] ([undefined], [null], ...) is returned as that very value
    and nothing is allocated. *)
Theorem rewriteImporterDependencies_never_mutates deps internalDeps
    newImporterDir workspacesDir h :
  h `prefix_of`
    heap_of (rewriteImporterDependencies deps internalDeps newImporterDir
               workspacesDir h) ∧
  (truthy deps = false →
   rewriteImporterDependencies deps internalDeps newImporterDir
     workspacesDir h = Ok deps h).
Proof.
  split.
  - apply (wp_heap_of _ (λ h', h `prefix_of` h')).
    apply rewriteImporterDependencies_frame.
  - intros Hfalsy. unfold rewriteImporterDependencies. by rewrite Hfalsy.
Qed.

(** X5: An entry named by an internal dependency whose value is [null] or
    [undefined] makes the rewriter throw (the read of [depInfo.specifier] is
    not guarded), wherever the entry stands in the mapping. *)
Theorem rewriteImporterDependencies_null_entry_throws h l es internalDeps
    newImporterDir workspacesDir depName depInfo :
  h !! l = Some es → (depName, depInfo) ∈ es →
  depName ∈ internalDeps → depInfo = VNull ∨ depInfo = VUndef →
  ∃ e h',
    rewriteImporterDependencies (VRef l) internalDeps newImporterDir
      workspacesDir h = Throw e h'.
Proof.
  intros Hl Hin Hint Hnull.
  unfold rewriteImporterDependencies. simpl. unfold bind at 1. simpl.
  unfold bind at 1. unfold object_entries.
  rewrite (lookup_app_l_Some _ _ _ _ Hl).
  destruct (for_each_throws es
              (rewriteEntry (length h) internalDeps newImporterDir workspacesDir)
              (depName, depInfo) Hin) with (h := h ++ [[]])
    as (e & h' & Hthrow).
  - intros h1. unfold rewriteEntry, set_has.
    rewrite bool_decide_eq_true_2 by done.
    destruct Hnull as [-> | ->]; by eexists _, _.
  - exists e, h'. unfold bind. by rewrite Hthrow.
Qed.

(** X6: Relocated entries are not relocated twice: applied to the mapping it
    has returned, with the same [internalDeps] and any directories, the
    rewriter returns a new object with exactly the same entries. *)
Theorem rewriteImporterDependencies_idempotent h l es internalDeps
    newImporterDir workspacesDir :
  store_ok h = true → wt_deps h (VRef l) = true → h !! l = Some es →
  ∃ r h1 res,
    rewriteImporterDependencies (VRef l) internalDeps newImporterDir
      workspacesDir h = Ok (VRef r) h1 ∧
    h1 !! r = Some res ∧
    ∀ newImporterDir' workspacesDir',
      rewriteImporterDependencies (VRef r) internalDeps newImporterDir'
        workspacesDir' h1
      = Ok (VRef (length h1)) (h1 ++ [res]).
Proof.
  intros Hok Hwt Hl.
  pose proof (store_ok_lookup _ _ _ Hok Hl) as Hnd.
  pose proof (wt_deps_inv _ _ _ Hwt Hl) as Hentries.
  destruct (wp_ok _ _ _
              (rewriteImporterDependencies_spec l es internalDeps
                 newImporterDir workspacesDir h Hl Hnd Hentries))
    as (v & h1 & Hrun & res & news & -> & -> & Hord & Hperm & _ & Hall).
  assert (Hr : (h ++ res :: news) !! length h = Some res)
    by apply lookup_pruned.
  assert (Hndres : NoDup (keys res)).
  { rewrite Hperm. by apply NoDup_filter. }
  assert (Hsub : ∀ k, k ∈ keys res → k ∈ keys es ∧ k ≠ "__proto__").
  { intros k Hin. rewrite Hperm in Hin.
    by apply list_elem_of_filter in Hin as [? ?]. }
  exists (length h), (h ++ res :: news), res. split; [done|]. split; [done|].
  intros out' ws'.
  rewrite (rewriteImporterDependencies_copy (h ++ res :: news) (length h) res
             internalDeps out' ws' Hr Hndres Hord).
  { do 3 f_equal. apply list_filter_all. intros [k v] Hin. simpl.
    apply Hsub. unfold keys. apply list_elem_of_fmap. by exists (k, v). }
  intros k v Hin.
  assert (Hget : obj_get res k = Some v) by (by apply obj_get_elem_NoDup).
  destruct (Hsub k) as [Hk Hname].
  { unfold keys. apply list_elem_of_fmap. by exists (k, v). }
  unfold keys in Hk. apply list_elem_of_fmap in Hk as ([k' d] & Hk' & Hd).
  simpl in Hk'. subst k'. specialize (Hall k d Hd Hname).
  destruct (wt_entry_inv h d (Hentries k d Hd))
    as (ld & eo & s & -> & Hld & Hspec).
  destruct (is_workspace_link h internalDeps k (VRef ld)) eqn:Hlink.
  - destruct Hall as (i & Hget' & Hi). right.
    exists (S (length h + i)), (relocated_entry newImporterDir workspacesDir k),
      ("file:" +:+ getRelativePath newImporterDir
                     (path_join workspacesDir (safeName k))).
    split; [congruence|]. split.
    + rewrite lookup_app_r by lia.
      by replace (S (length h + i) - length h) with (S i) by lia.
    + split; [done|]. apply startsWith_file_workspace.
  - assert (v = VRef ld) by congruence. subst v.
    unfold is_workspace_link, specifier_of in Hlink. rewrite Hld, Hspec in Hlink.
    apply andb_false_iff in Hlink as [Hhas|Hsw]; [by left|]. right.
    exists ld, eo, s. split; [done|]. split; [by apply lookup_app_l_Some|done].
Qed.

End rewriter_more.

(** ** More on [pruneLockfile]: the returned object *)

Lemma elem_of_filter_bool {A} (f : A → bool) (l : list A) x :
  x ∈ List.filter f l ↔ x ∈ l ∧ f x = true.
Proof. rewrite !list_elem_of_In. apply filter_In. Qed.

Lemma keys_filter_bool (f : string * val → bool) (o : object) k :
  k ∈ keys (List.filter f o) → ∃ v, (k, v) ∈ o ∧ f (k, v) = true.
Proof.
  unfold keys. intros Hin. apply list_elem_of_fmap in Hin as ([k' v] & -> & Hin).
  apply elem_of_filter_bool in Hin. by exists v.
Qed.

Lemma keys_filter_bool_sub (f : string * val → bool) (o : object) k :
  k ∈ keys (List.filter f o) → k ∈ keys o.
Proof.
  intros Hin. apply keys_filter_bool in Hin as (v & Hin & _).
  unfold keys. apply list_elem_of_fmap. by exists (k, v).
Qed.

Lemma filter_bool_all {A} (f : A → bool) (l : list A) :
  (∀ x, x ∈ l → f x = true) → List.filter f l = l.
Proof.
  induction l as [|x l IH]; intros Hall; [done|]. simpl.
  rewrite (Hall x) by apply list_elem_of_here. f_equal. apply IH.
  intros y Hy. by apply Hall, list_elem_of_further.
Qed.

Lemma filter_bool_none {A} (f : A → bool) (l : list A) :
  (∀ x, x ∈ l → f x = false) → List.filter f l = [].
Proof.
  induction l as [|x l IH]; intros Hall; [done|]. simpl.
  rewrite (Hall x) by apply list_elem_of_here. apply IH.
  intros y Hy. by apply Hall, list_elem_of_further.
Qed.

Lemma NoDup_keys_filter (f : string * val → bool) (o : object) :
  NoDup (keys o) → NoDup (keys (List.filter f o)).
Proof.
  unfold keys. induction o as [|[k v] o IH]; simpl; [done|].
  rewrite NoDup_cons. intros [Hnew Hnd]. destruct (f (k, v)); [|by apply IH].
  simpl. apply NoDup_cons. split; [|by apply IH].
  intros Hin. apply Hnew. by eapply keys_filter_bool_sub.
Qed.

Lemma entries_ordered_filter (f : string * val → bool) (o : object) :
  entries_ordered o = true → entries_ordered (List.filter f o) = true.
Proof.
  induction o as [|[k v] o IH]; [done|].
  intros Ho. apply entries_ordered_cons in Ho as [Hhead Ho]. simpl.
  destruct (f (k, v)); [|by apply IH].
  apply entries_ordered_cons. split; [|by apply IH].
  intros k' Hin. by eapply Hhead, keys_filter_bool_sub.
Qed.

Lemma reserved_key_plain k :
  k ∈ reserved_keys → array_index k = None ∧ k ≠ "__proto__".
Proof.
  unfold reserved_keys. rewrite !elem_of_cons.
  intros [->|[->|[->|Hnil]]]; [done..|]. by apply elem_of_nil in Hnil.
Qed.

Lemma other_entries_keys top k :
  k ∈ keys (other_entries top) ↔
  k ∈ keys top ∧ (k ∉ reserved_keys) ∧ k ≠ "__proto__".
Proof.
  unfold other_entries. split.
  - intros Hin. split; [by eapply keys_filter_bool_sub|].
    apply keys_filter_bool in Hin as (v & _ & Hf). simpl in Hf.
    apply andb_true_iff in Hf as [Hres Hproto].
    apply negb_true_iff, bool_decide_eq_false in Hres.
    apply negb_true_iff, String.eqb_neq in Hproto. done.
  - intros (Hin & Hres & Hproto). unfold keys in *.
    apply list_elem_of_fmap in Hin as ([k' v] & -> & Hin).
    apply list_elem_of_fmap. exists (k', v). split; [done|].
    apply elem_of_filter_bool. split; [done|]. simpl in *.
    apply andb_true_iff. split.
    + by apply negb_true_iff, bool_decide_eq_false.
    + by apply negb_true_iff, String.eqb_neq.
Qed.

Lemma obj_insert_index_app A B i k v :
  array_index k = Some i →
  (∀ k', k' ∈ keys A → key_before k' k = true) →
  (∀ k', k' ∈ keys B → array_index k' = None) →
  obj_insert_index (A ++ B) i k v = A ++ (k, v) :: B.
Proof.
  intros Hk. unfold keys. induction A as [|[k0 v0] A IH]; intros HA HB.
  - simpl. destruct B as [|[k0 v0] B]; [done|]. simpl.
    by rewrite (HB k0) by apply list_elem_of_here.
  - simpl. pose proof (HA k0 (list_elem_of_here _ _)) as Hk0.
    unfold key_before in Hk0. rewrite Hk in Hk0.
    destruct (array_index k0) as [j|]; [|done].
    apply N.leb_le in Hk0. destruct (N.ltb_spec i j); [lia|].
    rewrite IH; [done| |done].
    intros k' Hin. by apply HA, list_elem_of_further.
Qed.

(** What the final loop adds to [Q], whose keys are reserved ones: the
    array-index keys of the input go in front, the other keys go last. *)
Lemma copy_keys_exact Q top :
  NoDup (keys top) → entries_ordered top = true →
  (∀ k, k ∈ keys Q → k ∈ reserved_keys) →
  copy_keys Q top
  = index_entries (other_entries top) ++ Q ++ named_entries (other_entries top).
Proof.
  intros Hnd Hord HQ. induction top as [|[k v] done IH] using rev_ind.
  - unfold copy_keys. simpl. by rewrite app_nil_r.
  - unfold keys in Hnd. rewrite fmap_app in Hnd.
    apply NoDup_app in Hnd as (Hnd & Hdisj & _).
    apply entries_ordered_snoc in Hord as [Hord Hbefore].
    specialize (IH Hnd Hord).
    assert (Hnew : k ∉ keys done).
    { intros Hin. apply (Hdisj k Hin). simpl. apply list_elem_of_here. }
    assert (Hoe : other_entries (done ++ [(k, v)])
                  = other_entries done
                    ++ (if negb (bool_decide (k ∈ reserved_keys))
                           && negb (String.eqb k "__proto__")
                        then [(k, v)] else [])).
    { unfold other_entries. by rewrite List.filter_app. }
    rewrite copy_keys_snoc, IH, Hoe.
    case_bool_decide as Hres; simpl; [by rewrite app_nil_r|].
    assert (HkQ : k ∉ keys Q) by (intros Hin; by apply Hres, HQ).
    set (A := index_entries (other_entries done)).
    set (B := named_entries (other_entries done)).
    assert (HA : ∀ k', k' ∈ keys A → k' ∈ keys done ∧ k' ≠ "__proto__").
    { intros k' Hin. apply keys_filter_bool_sub in Hin.
      apply other_entries_keys in Hin as (? & _ & ?). done. }
    assert (HB : ∀ k', k' ∈ keys B →
              k' ∈ keys done ∧ k' ≠ "__proto__" ∧ array_index k' = None).
    { intros k' Hin. pose proof Hin as Hin'.
      apply keys_filter_bool_sub, other_entries_keys in Hin' as (? & _ & ?).
      apply keys_filter_bool in Hin as (v' & _ & Hf).
      unfold has_index_key in Hf. simpl in Hf.
      by destruct (array_index k'). }
    assert (Hkeys : ∀ k', k' ∈ keys (A ++ Q ++ B) →
              (k' ∈ keys done ∨ k' ∈ reserved_keys) ∧ k' ≠ "__proto__").
    { intros k'. unfold keys. rewrite !fmap_app, !elem_of_app.
      intros [Hin|[Hin|Hin]].
      - apply HA in Hin as [? ?]. auto.
      - split; [right; by apply HQ|]. by apply reserved_key_plain, HQ.
      - apply HB in Hin as (? & ? & _). auto. }
    assert (Hnone : obj_get (A ++ Q ++ B) k = None).
    { apply obj_get_None. intros Hin. by apply Hkeys in Hin as [[?|?] _]. }
    destruct (String.eqb_spec k "__proto__") as [->|Hproto]; simpl.
    { rewrite obj_set_proto, !app_nil_r; [done|].
      intros Hin. by apply Hkeys in Hin as [_ ?]. }
    assert (Hie : index_entries (other_entries done ++ [(k, v)])
                  = A ++ (if has_index_key (k, v) then [(k, v)] else [])).
    { unfold index_entries. by rewrite List.filter_app. }
    assert (Hne : named_entries (other_entries done ++ [(k, v)])
                  = B ++ (if has_index_key (k, v) then [] else [(k, v)])).
    { unfold named_entries. rewrite List.filter_app. simpl.
      by destruct (has_index_key (k, v)). }
    rewrite Hie, Hne. unfold has_index_key. simpl.
    unfold obj_set. rewrite Hnone.
    destruct (String.eqb_spec k "__proto__"); [done|].
    destruct (array_index k) as [i|] eqn:Hidx; simpl.
    + assert (HBnil : B = []).
      { apply filter_bool_none. intros [k' v'] Hin.
        apply elem_of_filter_bool in Hin as [Hin _].
        assert (Hk' : k' ∈ keys done).
        { unfold keys. apply list_elem_of_fmap. by exists (k', v'). }
        specialize (Hbefore k' Hk'). unfold key_before in Hbefore.
        rewrite Hidx in Hbefore. unfold has_index_key. simpl.
        by destruct (array_index k'). }
      rewrite HBnil, !app_nil_r.
      rewrite obj_insert_index_app; [by rewrite <- app_assoc|done| |].
      * intros k' Hin. by apply Hbefore, HA.
      * intros k' Hin. by apply reserved_key_plain, HQ.
    + by rewrite !app_nil_r, <- !app_assoc.
Qed.

(** The object [pruneLockfile] returns, key by key. *)
Lemma pruned_top_exact importers top :
  NoDup (keys top) → entries_ordered top = true →
  pruned_top importers top =
    index_entries (other_entries top)
    ++ ([("lockfileVersion", field top "lockfileVersion");
         ("importers", VRef importers)]
        ++ (if truthy (field top "packages")
            then [("packages", field top "packages")] else []))
    ++ named_entries (other_entries top).
Proof.
  intros Hnd Hord. unfold pruned_top. destruct (truthy (field top "packages")).
  - rewrite copy_keys_exact; [done|done|done|].
    intros k Hk. unfold keys in Hk. simpl in Hk. set_solver.
  - rewrite copy_keys_exact; [done|done|done|].
    intros k Hk. unfold keys in Hk. simpl in Hk. set_solver.
Qed.

Section prune_more.
Context `{PathApi}.

(** [pruneLockfile] around its importer loop: what the loop leaves in the
    importers object and after it is what the call returns. *)
Lemma pruneLockfile_around_loop h0 l0 top li ies target internalDeps registry
    rewriteContext (Φ : object → heap → Prop) :
  h0 !! l0 = Some top → field top "importers" = VRef li →
  h0 !! li = Some ies →
  wp (for_each ies
        (pruneImporter (length h0) target internalDeps registry rewriteContext))
     (λ _ h', ∃ I rest,
        h' = h0 ++ [("lockfileVersion", field top "lockfileVersion");
                    ("importers", VRef (S (length h0)))] :: I :: rest ∧
        Φ I rest)
     no_throw
     (h0 ++ [[("lockfileVersion", field top "lockfileVersion");
              ("importers", VRef (S (length h0)))]; []]) →
  wp (pruneLockfile (VRef l0) target internalDeps registry rewriteContext)
     (λ v h', ∃ I rest,
        v = VRef (length h0) ∧
        h' = h0 ++ pruned_top (S (length h0)) top :: I :: rest ∧ Φ I rest)
     no_throw h0.
Proof.
  intros Hl0 Himp Hli Hloop. unfold pruneLockfile.
  apply wp_bind. eapply wp_get_prop; [exact Hl0|].
  apply wp_bind, wp_alloc.
  set (lv := field top "lockfileVersion") in *.
  apply wp_bind. eapply wp_get_prop; [by apply lookup_app_l_Some|].
  rewrite Himp. simpl.
  apply wp_bind, wp_alloc.
  replace (length (h0 ++ [[("lockfileVersion", lv)]])) with (S (length h0))
    by (rewrite length_app; simpl; lia).
  rewrite <- app_assoc. simpl.
  apply wp_bind. eapply wp_set_prop; [apply lookup_pruned|].
  rewrite insert_middle.
  change (obj_set [("lockfileVersion", lv)] "importers" (VRef (S (length h0))))
    with [("lockfileVersion", lv); ("importers", VRef (S (length h0)))].
  set (P0 := [("lockfileVersion", lv); ("importers", VRef (S (length h0)))]) in *.
  assert (Hup : ∀ (tl : heap) l o, h0 !! l = Some o → (h0 ++ tl) !! l = Some o).
  { intros tl l o Hl. by apply lookup_app_l_Some. }
  apply wp_bind. eapply wp_get_prop; [by apply Hup|]. rewrite Himp.
  apply wp_bind. eapply wp_object_entries; [by apply Hup|].
  apply wp_bind. eapply wp_mono; [exact Hloop| |done].
  intros [] h1 (I & rest & -> & HΦ). simpl.
  apply wp_bind. eapply wp_get_prop; [by apply Hup|].
  set (pk := field top "packages").
  set (P1 := if truthy pk then obj_set P0 "packages" pk else P0).
  apply wp_bind.
  apply (wp_mono _ (λ _ h', h' = h0 ++ P1 :: I :: rest) _ no_throw).
  - unfold P1. destruct (truthy pk).
    + apply wp_bind. eapply wp_get_prop; [by apply Hup|].
      eapply wp_set_prop; [apply lookup_pruned|]. by rewrite insert_middle.
    + by apply wp_ret.
  - intros [] h2 ->. simpl.
    apply wp_bind. eapply wp_object_entries; [by apply Hup|].
    apply wp_bind.
    eapply wp_mono; [apply (copy_loop_spec h0 P1 (I :: rest) top)| |done].
    intros [] h3 ->. simpl. apply wp_ret. by exists I, rest.
  - done.
Qed.

Lemma pruneImporter_no_relocation h0 P I rest target internalDeps registry p d :
  obj_get P "importers" = Some (VRef (S (length h0))) →
  wp (pruneImporter (length h0) target internalDeps registry None (p, d))
     (λ _ h',
        h' = h0 ++ P :: (if keptb target internalDeps registry p
                         then obj_set I p d else I) :: rest)
     no_throw (h0 ++ P :: I :: rest).
Proof.
  intros HP. unfold pruneImporter, keptb.
  destruct (String.eqb p "." && negb (String.eqb target ".")); simpl;
    [by apply wp_ret|].
  destruct (bool_decide (p ∈ relevantDirs target internalDeps registry));
    [|by apply wp_ret].
  unfold importerPathToNewPath. rewrite lookup_empty. simpl.
  by apply store_importer_spec.
Qed.

Lemma importer_loop_no_relocation h0 P ies target internalDeps registry :
  obj_get P "importers" = Some (VRef (S (length h0))) →
  NoDup (keys ies) → entries_ordered ies = true →
  wp (for_each ies (pruneImporter (length h0) target internalDeps registry None))
     (λ _ h', ∃ I rest,
        h' = h0 ++ P :: I :: rest ∧
        (I = List.filter (λ kv, storedb target internalDeps registry kv.1) ies ∧
         rest = []))
     no_throw (h0 ++ [P; []]).
Proof.
  intros HP Hnd Hord.
  set (f := λ kv : string * val, storedb target internalDeps registry kv.1).
  eapply wp_mono;
    [apply (wp_for_each (λ done h', h' = h0 ++ [P; List.filter f done]) no_throw)
    | |done].
  - done.
  - intros done [p d] rest h1 Hies ->.
    eapply wp_mono; [by apply pruneImporter_no_relocation| |done].
    intros [] h2 ->. simpl.
    assert (Hf : List.filter f (done ++ [(p, d)])
                 = List.filter f done
                   ++ (if keptb target internalDeps registry p
                          && negb (String.eqb p "__proto__")
                       then [(p, d)] else [])).
    { by rewrite List.filter_app. }
    rewrite Hf.
    destruct (keptb target internalDeps registry p); simpl;
      [|by rewrite app_nil_r].
    assert (Hsub : ∀ k, k ∈ keys (List.filter f done) →
              k ∈ keys done ∧ k ≠ "__proto__").
    { intros k Hin. split; [by eapply keys_filter_bool_sub|].
      apply keys_filter_bool in Hin as (v & _ & Hfk).
      unfold f, storedb in Hfk. simpl in Hfk.
      apply andb_true_iff in Hfk as [_ Hfk].
      by apply negb_true_iff, String.eqb_neq in Hfk. }
    destruct (String.eqb_spec p "__proto__") as [->|Hproto]; simpl.
    { rewrite obj_set_proto, app_nil_r; [done|].
      intros Hin. by apply Hsub in Hin as [_ ?]. }
    rewrite obj_set_last; [done| |done|].
    + intros Hin. apply Hsub in Hin as [Hin _].
      rewrite Hies in Hnd. unfold keys in *.
      rewrite fmap_app in Hnd. apply NoDup_app in Hnd as (_ & Hdisj & _).
      apply (Hdisj p Hin). simpl. apply list_elem_of_here.
    + intros k Hin. apply Hsub in Hin as [Hin _].
      rewrite Hies in Hord.
      apply entries_ordered_app in Hord as (_ & _ & Hcross).
      apply Hcross; [done|]. apply list_elem_of_here.
  - intros [] h' ->. simpl. by eexists _, [].
Qed.

(** The whole effect of a call without relocation context, for any lockfile
    object whose [importers] is an object (the importers themselves are not
    looked into): two objects are allocated, the returned one and its
    [importers], which lists the kept importers in input order, each the
    very object the input holds. *)
Lemma pruneLockfile_no_relocation_run h l0 top li ies target internalDeps
    registry :
  h !! l0 = Some top → obj_get top "importers" = Some (VRef li) →
  h !! li = Some ies → NoDup (keys ies) → entries_ordered ies = true →
  pruneLockfile (VRef l0) target internalDeps registry None h
  = Ok (VRef (length h))
       (h ++ [pruned_top (S (length h)) top;
              List.filter (λ kv, storedb target internalDeps registry kv.1) ies]).
Proof.
  intros Hl0 Himp Hli Hnd Hord.
  assert (Hfield : field top "importers" = VRef li).
  { unfold field. by rewrite Himp. }
  destruct (wp_ok _ _ _
              (pruneLockfile_around_loop h l0 top li ies target internalDeps
                 registry None _ Hl0 Hfield Hli
                 (importer_loop_no_relocation h
                    [("lockfileVersion", field top "lockfileVersion");
                     ("importers", VRef (S (length h)))]
                    ies target internalDeps registry eq_refl Hnd Hord)))
    as (v & h' & Hrun & I & rest & -> & -> & -> & ->).
  done.
Qed.

End prune_more.

Lemma filter_filter_same {A} (f : A → bool) (l : list A) :
  List.filter f (List.filter f l) = List.filter f l.
Proof.
  apply filter_bool_all. intros x Hin. by apply elem_of_filter_bool in Hin as [_ ?].
Qed.

Lemma NoDup_pruned_top importers top :
  NoDup (keys (pruned_top importers top)).
Proof.
  unfold pruned_top, copy_keys.
  apply (foldl_invariant (λ P : object, NoDup (keys P))).
  - destruct (truthy (field top "packages")).
    + apply NoDup_obj_set. unfold keys. simpl.
      apply NoDup_cons. split; [set_solver|]. apply NoDup_singleton.
    + unfold keys. simpl.
      apply NoDup_cons. split; [set_solver|]. apply NoDup_singleton.
  - intros P [k v] HP _. simpl. destruct (bool_decide _); [done|].
    by apply NoDup_obj_set.
Qed.

Lemma entries_ordered_pruned_top importers top :
  entries_ordered (pruned_top importers top) = true.
Proof.
  unfold pruned_top, copy_keys.
  apply (foldl_invariant (λ P : object, entries_ordered P = true)).
  - destruct (truthy (field top "packages")); [|done].
    by apply entries_ordered_obj_set.
  - intros P [k v] HP _. simpl. destruct (bool_decide _); [done|].
    by apply entries_ordered_obj_set.
Qed.

Lemma obj_replace_app A B k v :
  k ∉ keys A → obj_replace (A ++ B) k v = A ++ obj_replace B k v.
Proof.
  unfold keys. induction A as [|[k0 v0] A IH]; simpl; [done|].
  rewrite not_elem_of_cons. intros [Hne Hnin].
  destruct (String.eqb_spec k0 k); [by subst|]. by rewrite IH.
Qed.

(** Pruning the returned object again gives the same object, up to the
    reference to its importers. *)
Lemma pruned_top_idem b b' top :
  NoDup (keys top) → entries_ordered top = true →
  pruned_top b' (pruned_top b top)
  = obj_set (pruned_top b top) "importers" (VRef b').
Proof.
  intros Hnd Hord.
  rewrite (pruned_top_exact b' (pruned_top b top))
    by (apply NoDup_pruned_top || apply entries_ordered_pruned_top).
  rewrite (pruned_top_exact b top) by done.
  set (A := index_entries (other_entries top)).
  set (B := named_entries (other_entries top)).
  set (lv := field top "lockfileVersion").
  set (pk := field top "packages").
  set (pkl := if truthy pk then [("packages", pk)] else []).
  assert (HA : ∀ kv, kv ∈ A →
            has_index_key kv = true ∧ (kv.1 ∉ reserved_keys) ∧ kv.1 ≠ "__proto__").
  { intros [k v] Hin. apply elem_of_filter_bool in Hin as [Hin Hidx].
    split; [done|]. apply (other_entries_keys top k).
    unfold keys. apply list_elem_of_fmap. by exists (k, v). }
  assert (HB : ∀ kv, kv ∈ B →
            has_index_key kv = false ∧ (kv.1 ∉ reserved_keys) ∧ kv.1 ≠ "__proto__").
  { intros [k v] Hin. apply elem_of_filter_bool in Hin as [Hin Hidx].
    split; [by apply negb_true_iff in Hidx|]. apply (other_entries_keys top k).
    unfold keys. apply list_elem_of_fmap. by exists (k, v). }
  assert (Hother : ∀ kv : string * val,
            kv.1 ∉ reserved_keys → kv.1 ≠ "__proto__" →
            negb (bool_decide (kv.1 ∈ reserved_keys))
            && negb (String.eqb kv.1 "__proto__") = true).
  { intros kv Hres Hproto. apply andb_true_iff. split.
    - by apply negb_true_iff, bool_decide_eq_false.
    - by apply negb_true_iff, String.eqb_neq. }
  assert (HgetA : ∀ k, k ∈ reserved_keys → obj_get A k = None).
  { intros k Hk. apply obj_get_None. unfold keys. intros Hin.
    apply list_elem_of_fmap in Hin as (kv & -> & Hin).
    by apply HA in Hin as (_ & ? & _). }
  assert (HgetB : ∀ k, k ∈ reserved_keys → obj_get B k = None).
  { intros k Hk. apply obj_get_None. unfold keys. intros Hin.
    apply list_elem_of_fmap in Hin as (kv & -> & Hin).
    by apply HB in Hin as (_ & ? & _). }
  set (mid := λ i : loc, [("lockfileVersion", lv); ("importers", VRef i)] ++ pkl).
  change (index_entries (other_entries (A ++ mid b ++ B))
          ++ ([("lockfileVersion", field (A ++ mid b ++ B) "lockfileVersion");
               ("importers", VRef b')]
              ++ (if truthy (field (A ++ mid b ++ B) "packages")
                  then [("packages", field (A ++ mid b ++ B) "packages")]
                  else []))
          ++ named_entries (other_entries (A ++ mid b ++ B))
          = obj_set (A ++ mid b ++ B) "importers" (VRef b')).
  assert (Hoe : other_entries (A ++ mid b ++ B) = A ++ B).
  { unfold other_entries. rewrite !List.filter_app.
    rewrite (filter_bool_all _ A), (filter_bool_all _ B).
    - f_equal. unfold mid, pkl. by destruct (truthy pk).
    - intros kv Hin. apply HB in Hin as (_ & ? & ?). by apply Hother.
    - intros kv Hin. apply HA in Hin as (_ & ? & ?). by apply Hother. }
  assert (Hidx : index_entries (A ++ B) = A).
  { unfold index_entries. rewrite List.filter_app.
    rewrite (filter_bool_all _ A), (filter_bool_none _ B), app_nil_r; [done| |].
    - intros kv Hin. by apply HB in Hin as (? & _).
    - intros kv Hin. by apply HA in Hin as (? & _). }
  assert (Hnamed : named_entries (A ++ B) = B).
  { unfold named_entries. rewrite List.filter_app.
    rewrite (filter_bool_none _ A), (filter_bool_all _ B); [done| |].
    - intros kv Hin. apply HB in Hin as (-> & _). done.
    - intros kv Hin. apply HA in Hin as (-> & _). done. }
  assert (Hlv : field (A ++ mid b ++ B) "lockfileVersion" = lv).
  { unfold field. rewrite obj_get_app, HgetA by set_solver. done. }
  assert (Hpk : (if truthy (field (A ++ mid b ++ B) "packages")
                 then [("packages", field (A ++ mid b ++ B) "packages")]
                 else []) = pkl).
  { unfold field. rewrite obj_get_app, HgetA by set_solver.
    unfold mid, pkl. destruct (truthy pk) eqn:Hpk; simpl.
    - by rewrite Hpk.
    - by rewrite HgetB by set_solver. }
  rewrite Hoe, Hidx, Hnamed, Hlv, Hpk.
  unfold obj_set. rewrite obj_get_app, HgetA by set_solver. simpl.
  by rewrite obj_replace_app by (apply obj_get_None, HgetA; set_solver).
Qed.

Section prune_layout.
Context `{PathApi}.

(** X7: Without a relocation context, and for any lockfile object whose
    [importers] is an object (the importers themselves are not looked
    into), the call allocates exactly two objects.  The returned one lists
    the array-index keys of the input, then [lockfileVersion], [importers],
    [packages] if the input's is truthy, then the other input keys in input
    order; a top-level key [__proto__] of the input is not among them.  Its
    [importers] lists the importers that are relevant, not the skipped root
    and not under the path [__proto__], in input order, each the very object
    the input holds. *)
Theorem pruneLockfile_without_relocation h l0 top li ies targetRelativeDir
    internalDeps registry :
  h !! l0 = Some top → obj_get top "importers" = Some (VRef li) →
  h !! li = Some ies →
  NoDup (keys top) → entries_ordered top = true →
  NoDup (keys ies) → entries_ordered ies = true →
  pruneLockfile (VRef l0) targetRelativeDir internalDeps registry None h
  = Ok (VRef (length h))
       (h ++ [ index_entries (other_entries top)
               ++ ([("lockfileVersion", field top "lockfileVersion");
                    ("importers", VRef (S (length h)))]
                   ++ (if truthy (field top "packages")
                       then [("packages", field top "packages")] else []))
               ++ named_entries (other_entries top);
               List.filter
                 (λ kv, storedb targetRelativeDir internalDeps registry kv.1)
                 ies ]).
Proof.
  intros Hl0 Himp Hli Hndtop Hordtop Hnd Hord.
  rewrite <- (pruned_top_exact (S (length h)) top) by done.
  by eapply pruneLockfile_no_relocation_run.
Qed.

(** X8: Pruning is idempotent without relocation, for a lockfile without a
    top-level key [__proto__]: pruning the returned lockfile again with the
    same arguments allocates a second pair of objects with the same property
    lists as the first pair (the new top-level object refers to the new
    [importers] object). *)
Theorem pruneLockfile_idempotent_without_relocation h l0 top li ies
    targetRelativeDir internalDeps registry :
  h !! l0 = Some top → obj_get top "importers" = Some (VRef li) →
  h !! li = Some ies →
  NoDup (keys top) → entries_ordered top = true → "__proto__" ∉ keys top →
  NoDup (keys ies) → entries_ordered ies = true →
  ∃ P I,
    let h1 := h ++ [P; I] in
    pruneLockfile (VRef l0) targetRelativeDir internalDeps registry None h
      = Ok (VRef (length h)) h1 ∧
    pruneLockfile (VRef (length h)) targetRelativeDir internalDeps registry
      None h1
      = Ok (VRef (length h1))
           (h1 ++ [obj_set P "importers" (VRef (S (length h1))); I]).
Proof.
  intros Hl0 Himp Hli Hndtop Hordtop _ Hnd Hord.
  set (I := List.filter
              (λ kv, storedb targetRelativeDir internalDeps registry kv.1) ies).
  exists (pruned_top (S (length h)) top), I. simpl.
  split; [by eapply pruneLockfile_no_relocation_run|].
  destruct (pruned_top_reserved (S (length h)) top) as (_ & HPimp & _).
  rewrite (pruneLockfile_no_relocation_run
             (h ++ [pruned_top (S (length h)) top; I]) (length h)
             (pruned_top (S (length h)) top) (S (length h)) I
             targetRelativeDir internalDeps registry);
    [|apply lookup_pruned|done|apply lookup_importers
     |by apply NoDup_keys_filter|by apply entries_ordered_filter].
  assert (HI : List.filter
                 (λ kv, storedb targetRelativeDir internalDeps registry kv.1) I
               = I) by apply filter_filter_same.
  by rewrite HI, pruned_top_idem.
Qed.

End prune_layout.

(** ** More on [pruneLockfile]: tables, target and layout *)

Section tables_more.
Context `{PathApi}.
Context (target : string) (internalDeps : list string)
        (registry : WorkspaceRegistry).

Lemma tables_foldl_sync (g1 g2 : string → string)
    (R : string → string → string → Prop) (l : list string)
    (m1 m2 : gmap string string) :
  (∀ p v1, m1 !! p = Some v1 → ∃ v2, m2 !! p = Some v2 ∧ R p v1 v2) →
  (∀ n pkg, n ∈ l → registry !! n = Some pkg →
     R (rootRelativeDir pkg) (g1 n) (g2 n)) →
  ∀ p v1,
    foldl (λ table depName,
             match registry !! depName with
             | Some pkg => <[rootRelativeDir pkg := g1 depName]> table
             | None => table
             end) m1 l !! p = Some v1 →
    ∃ v2,
      foldl (λ table depName,
               match registry !! depName with
               | Some pkg => <[rootRelativeDir pkg := g2 depName]> table
               | None => table
               end) m2 l !! p = Some v2 ∧
      R p v1 v2.
Proof.
  revert m1 m2. induction l as [|x l IH]; intros m1 m2 Hinit Hstep; [done|].
  simpl. apply IH.
  - destruct (registry !! x) as [pkg|] eqn:Hx; [|done].
    intros p v1. rewrite !lookup_insert. case_decide as Hp; [|by apply Hinit].
    intros [= <-]. subst p. eexists. split; [done|].
    apply Hstep; [apply list_elem_of_here|done].
  - intros n pkg Hin. apply Hstep. by apply list_elem_of_further.
Qed.

(** X9: The two relocation tables agree entry by entry: the target's output
    directory goes with the new path ["."], and the output directory
    [workspacesDir/safeName] of an internal dependency goes with the new
    path ["workspaces/safeName"] of that same dependency. *)
Theorem relocation_tables_in_sync rc importerPath dir :
  importerPathToOutputDir target internalDeps registry (Some rc) !! importerPath
    = Some dir →
  (importerPath = target ∧ dir = outputDir rc ∧
   importerPathToNewPath target internalDeps registry (Some rc) !! importerPath
     = Some ".") ∨
  ∃ depName pkg,
    depName ∈ internalDeps ∧ registry !! depName = Some pkg ∧
    rootRelativeDir pkg = importerPath ∧
    dir = path_join (workspacesDir rc) (safeName depName) ∧
    importerPathToNewPath target internalDeps registry (Some rc) !! importerPath
      = Some ("workspaces/" +:+ safeName depName).
Proof.
  unfold importerPathToOutputDir, importerPathToNewPath. intros Hdir.
  destruct (tables_foldl_sync
              (λ depName, path_join (workspacesDir rc) (safeName depName))
              (λ depName, "workspaces/" +:+ safeName depName)
              (λ p v1 v2,
                 (p = target ∧ v1 = outputDir rc ∧ v2 = ".") ∨
                 ∃ depName pkg,
                   depName ∈ internalDeps ∧ registry !! depName = Some pkg ∧
                   rootRelativeDir pkg = p ∧
                   v1 = path_join (workspacesDir rc) (safeName depName) ∧
                   v2 = "workspaces/" +:+ safeName depName)
              internalDeps
              (<[target := outputDir rc]> ∅) (<[target := "."]> ∅))
    with (p := importerPath) (v1 := dir) as (v2 & Hv2 & HR); [| |done|].
  - intros p v1. rewrite !lookup_insert. case_decide; [|done].
    intros [= <-]. eexists. split; [done|]. left. by subst.
  - intros n pkg Hin Hreg. right. by exists n, pkg.
  - destruct HR as [(-> & -> & ->)|(n & pkg & Hin & Hreg & Hp & -> & ->)].
    + by left.
    + right. by exists n, pkg.
Qed.

(** Unless an internal dependency lives in the target directory itself,
    the target's new path is ["."]. *)
Lemma new_path_target rc :
  (∀ depName pkg, depName ∈ internalDeps → registry !! depName = Some pkg →
     rootRelativeDir pkg ≠ target) →
  importerPathToNewPath target internalDeps registry (Some rc) !! target
    = Some ".".
Proof.
  intros Hno. unfold importerPathToNewPath.
  apply (foldl_invariant (λ m : gmap string string, m !! target = Some ".")).
  - by rewrite lookup_insert_eq.
  - intros m x Hm Hin. destruct (registry !! x) as [pkg|] eqn:Hx; [|done].
    rewrite lookup_insert_ne; [done|]. by eapply Hno.
Qed.

End tables_more.

Lemma relocation_tables_in_sync_witness :
  ("packages/b" = "packages/a" ∧ "/out/workspaces/scope-b" = outputDir sample_context ∧
   importerPathToNewPath "packages/a" sample_internalDeps sample_registry
     (Some sample_context) !! "packages/b" = Some ".") ∨
  ∃ depName pkg,
    depName ∈ sample_internalDeps ∧ sample_registry !! depName = Some pkg ∧
    rootRelativeDir pkg = "packages/b" ∧
    "/out/workspaces/scope-b"
      = path_join (PathApi := posix_path "/") (workspacesDir sample_context)
          (safeName depName) ∧
    importerPathToNewPath "packages/a" sample_internalDeps sample_registry
      (Some sample_context) !! "packages/b"
      = Some ("workspaces/" +:+ safeName depName).
Proof.
  apply (relocation_tables_in_sync (H := posix_path "/") "packages/a"
           sample_internalDeps sample_registry sample_context
           "packages/b" "/out/workspaces/scope-b").
  reflexivity.
Defined.

Section prune_layout_more.
Context `{PathApi}.

(** X10: With or without relocation, for a lockfile whose importers are
    well-typed, the returned object lists the array-index keys of the input
    first, then [lockfileVersion] (present even if the input has none), then
    [importers], then [packages] only if the input's is truthy (a [null] one
    is dropped), then the other keys of the input in input order; a
    top-level key [__proto__] of the input is not among them.  The new
    [importers] object is the cell after it. *)
Theorem pruneLockfile_result_layout h l0 top li ies targetRelativeDir
    internalDeps registry rewriteContext :
  store_ok h = true → h !! l0 = Some top → entries_ordered top = true →
  obj_get top "importers" = Some (VRef li) → h !! li = Some ies →
  wt_importers h (VRef li) = true →
  ∃ h',
    pruneLockfile (VRef l0) targetRelativeDir internalDeps registry
      rewriteContext h = Ok (VRef (length h)) h' ∧
    h `prefix_of` h' ∧ is_Some (h' !! S (length h)) ∧
    h' !! length h
      = Some (index_entries (other_entries top)
              ++ ([("lockfileVersion", field top "lockfileVersion");
                   ("importers", VRef (S (length h)))]
                  ++ (if truthy (field top "packages")
                      then [("packages", field top "packages")] else []))
              ++ named_entries (other_entries top)).
Proof.
  intros Hok Hl0 Hord Himp Hli Hwt.
  assert (Hfield : field top "importers" = VRef li).
  { unfold field. by rewrite Himp. }
  destruct (wp_ok _ _ _
              (pruneLockfile_spec h l0 top li ies targetRelativeDir
                 internalDeps registry rewriteContext Hok Hl0 Hfield Hli
                 (wt_importers_inv h li ies Hwt Hli)))
    as (v & h' & Hrun & I & rest & -> & -> & _).
  eexists. split; [done|]. split; [by apply prefix_app_r|].
  split; [by rewrite lookup_importers|].
  rewrite lookup_pruned. f_equal. apply pruned_top_exact; [|done].
  by eapply store_ok_lookup.
Qed.

(** X11: The importer of the target directory, when the lockfile has one, is
    always retained: under its own path without relocation (unless that
    path is [__proto__]), and under ["."] with relocation unless an internal
    dependency lives in the target directory itself. *)
Theorem pruneLockfile_keeps_target h l0 top li ies targetRelativeDir
    internalDeps registry rewriteContext :
  store_ok h = true → wt_lockfile h (VRef l0) = true →
  h !! l0 = Some top → obj_get top "importers" = Some (VRef li) →
  h !! li = Some ies →
  targetRelativeDir ∈ keys ies →
  ∃ h' I,
    pruneLockfile (VRef l0) targetRelativeDir internalDeps registry
      rewriteContext h = Ok (VRef (length h)) h' ∧
    h' !! S (length h) = Some I ∧
    (rewriteContext = None → targetRelativeDir ≠ "__proto__" →
     targetRelativeDir ∈ keys I) ∧
    (is_Some rewriteContext →
     (∀ depName pkg, depName ∈ internalDeps →
        registry !! depName = Some pkg →
        rootRelativeDir pkg ≠ targetRelativeDir) →
     "." ∈ keys I).
Proof.
  intros Hok Hwt Hl0 Himp Hli Htarget.
  destruct (pruneLockfile_result h l0 top li ies targetRelativeDir internalDeps
              registry rewriteContext Hok Hwt Hl0 Himp Hli)
    as (h' & I & Hrun & _ & _ & HI & _ & _ & Hcomplete & _).
  unfold keys in Htarget. apply list_elem_of_fmap in Htarget as ([p d] & Hp & Hin).
  simpl in Hp. subst p.
  assert (Hkey : creates_property
                   (emitted_key targetRelativeDir internalDeps registry
                      rewriteContext targetRelativeDir) →
                 emitted_key targetRelativeDir internalDeps registry
                   rewriteContext targetRelativeDir ∈ keys I).
  { apply (Hcomplete targetRelativeDir d Hin). split.
    - by intros [-> ?].
    - apply relevantDirs_target. }
  exists h', I. split; [done|]. split; [done|]. split.
  - intros -> Hproto. unfold emitted_key, importerPathToNewPath in Hkey.
    rewrite lookup_empty in Hkey. by apply Hkey.
  - intros [rc ->] Hno. unfold emitted_key in Hkey.
    rewrite new_path_target in Hkey by done. by apply Hkey.
Qed.

End prune_layout_more.

(** ** More on [pruneLockfile]: the shape of what it emits *)

Lemma obj_get_None_inv o k : obj_get o k ≠ None → k ∈ keys o.
Proof.
  intros Hget. destruct (decide (k ∈ keys o)) as [|Hnot]; [done|].
  by apply obj_get_None in Hnot.
Qed.



Section emitted_shape.
Context `{PathApi}.

Lemma rewrite_dir_relevant target internalDeps registry rc p :
  outputDir rc ≠ "" → p ∈ relevantDirs target internalDeps registry →
  ∃ dir, rewrite_dir target internalDeps registry (Some rc) p
         = Some (dir, workspacesDir rc).
Proof.
  intros Hout Hp.
  destruct (tables_same_keys target internalDeps registry rc) as [Hdom _].
  rewrite <- Hdom in Hp. apply elem_of_dom in Hp as [dir Hdir].
  exists dir. unfold rewrite_dir. rewrite Hdir.
  assert (Hne : dir ≠ "") by (by eapply output_dirs_nonempty).
  simpl. by destruct (String.eqb_spec dir "").
Qed.




(** X13: Under relocation with a non-empty [outputDir], every emitted importer
    is a copy of an input importer that always has the three category keys
    as own properties, holding [undefined] for a category the input lacks,
    and that holds under every other key what the input importer holds. *)
Theorem pruneLockfile_rewritten_importer_shape h l0 top li ies
    targetRelativeDir internalDeps registry rc :
  store_ok h = true → wt_lockfile h (VRef l0) = true →
  h !! l0 = Some top → obj_get top "importers" = Some (VRef li) →
  h !! li = Some ies →
  outputDir rc ≠ "" →
  ∃ h' I,
    pruneLockfile (VRef l0) targetRelativeDir internalDeps registry
      (Some rc) h = Ok (VRef (length h)) h' ∧
    h' !! S (length h) = Some I ∧
    ∀ k v, (k, v) ∈ I →
      ∃ p lo o c copy,
        (p, VRef lo) ∈ ies ∧ h !! lo = Some o ∧
        v = VRef c ∧ h' !! c = Some copy ∧
        (∀ category,
           category ∈ ["dependencies"; "devDependencies"; "optionalDependencies"] →
           category ∈ keys copy ∧
           (field o category = VUndef → obj_get copy category = Some VUndef)) ∧
        (∀ key,
           key ∉ ["dependencies"; "devDependencies"; "optionalDependencies"] →
           obj_get copy key = obj_get o key).
Proof.
  intros Hok Hwt Hl0 Himp Hli Hout.
  destruct (pruneLockfile_result h l0 top li ies targetRelativeDir internalDeps
              registry (Some rc) Hok Hwt Hl0 Himp Hli)
    as (h' & I & Hrun & Hpre & _ & HI & _ & _ & _ & Hsound).
  exists h', I. split; [done|]. split; [done|]. intros k v Hin.
  destruct (Hsound k v Hin) as (p & d & Hp & [_ Hrel] & _ & Hem).
  destruct (rewrite_dir_relevant targetRelativeDir internalDeps registry rc p
              Hout Hrel) as [dir Hrd].
  rewrite Hrd in Hem.
  destruct Hem as (lo & o & c & copy & -> & Hlo & -> & _ & Hc &
                   d1 & d2 & d3 & -> & H1 & H2 & H3).
  destruct (rewritten_copy_fields o d1 d2 d3) as (G1 & G2 & G3 & Gother).
  eexists p, lo, o, c, _. repeat (split; [done|]). split; [|done].
  intros category Hcat.
  assert (Hcases : category = "dependencies" ∨ category = "devDependencies" ∨
                   category = "optionalDependencies") by set_solver.
  unfold deps_rewritten in H1, H2, H3.
  destruct Hcases as [-> | [-> | ->]]; split.
  - apply obj_get_None_inv. by rewrite G1.
  - intros Hu. rewrite Hu in H1. by rewrite G1, H1.
  - apply obj_get_None_inv. by rewrite G2.
  - intros Hu. rewrite Hu in H2. by rewrite G2, H2.
  - apply obj_get_None_inv. by rewrite G3.
  - intros Hu. rewrite Hu in H3. by rewrite G3, H3.
Qed.

End emitted_shape.

(** ** The further properties on the sample lockfile *)

Lemma distinct_keys_NoDup o : distinct_keys o = true → NoDup (keys o).
Proof. unfold distinct_keys. apply bool_decide_eq_true_1. Qed.

Lemma rewriteImporterDependencies_no_internal_names_witness :
  rewriteImporterDependencies (H := posix_path "/") (VRef 5) ["@scope/x"]
    "/out" "/out/workspaces" store_unusual_keys
  = Ok (VRef 8) (store_unusual_keys ++ [[("lodash", VRef 7)]]).
Proof.
  apply (rewriteImporterDependencies_no_internal_names (H := posix_path "/")
           store_unusual_keys 5
           [("__proto__", VRef 6); ("lodash", VRef 7)]
           ["@scope/x"] "/out" "/out/workspaces").
  - reflexivity.
  - apply distinct_keys_NoDup. reflexivity.
  - reflexivity.
  - intros depName Hin Hint. apply list_elem_of_singleton in Hint. subst.
    unfold keys in Hin. simpl in Hin.
    repeat (apply elem_of_cons in Hin as [Hin|Hin]; [discriminate|]).
    by apply elem_of_nil in Hin.
Defined.

Lemma rewriteImporterDependencies_never_mutates_witness :
  rewriteImporterDependencies (H := posix_path "/") VNull sample_internalDeps
    "/out" "/out/workspaces" sample_store = Ok VNull sample_store.
Proof.
  apply (rewriteImporterDependencies_never_mutates (H := posix_path "/") VNull
           sample_internalDeps "/out" "/out/workspaces" sample_store).
  reflexivity.
Defined.

Lemma rewriteImporterDependencies_null_entry_throws_witness :
  ∃ e h',
    rewriteImporterDependencies (H := posix_path "/") (VRef 0) ["b"]
      "/out" "/out/workspaces"
      [[("a", VRef 1); ("b", VNull)];
       [("specifier", VStr "^1.0.0"); ("version", VStr "1.0.0")]]
    = Throw e h'.
Proof.
  apply (rewriteImporterDependencies_null_entry_throws (H := posix_path "/")
           [[("a", VRef 1); ("b", VNull)];
            [("specifier", VStr "^1.0.0"); ("version", VStr "1.0.0")]]
           0 [("a", VRef 1); ("b", VNull)] ["b"] "/out" "/out/workspaces"
           "b" VNull).
  - reflexivity.
  - apply list_elem_of_further, list_elem_of_here.
  - apply list_elem_of_here.
  - by left.
Defined.

Lemma rewriteImporterDependencies_idempotent_witness :
  ∃ r h1 res,
    rewriteImporterDependencies (H := posix_path "/") (VRef 5)
      sample_internalDeps "/out" "/out/workspaces" sample_store
      = Ok (VRef r) h1 ∧
    h1 !! r = Some res ∧
    rewriteImporterDependencies (H := posix_path "/") (VRef r)
      sample_internalDeps "/elsewhere" "/elsewhere/workspaces" h1
    = Ok (VRef (length h1)) (h1 ++ [res]).
Proof.
  destruct (rewriteImporterDependencies_idempotent (H := posix_path "/")
              sample_store 5
              [("@scope/b", VRef 6); ("lodash", VRef 8); ("@scope/c", VRef 9)]
              sample_internalDeps "/out" "/out/workspaces"
              eq_refl eq_refl eq_refl)
    as (r & h1 & res & Hrun & Hr & Hagain).
  exists r, h1, res. split; [exact Hrun|]. split; [exact Hr|]. apply Hagain.
Defined.

Lemma pruneLockfile_without_relocation_witness :
  pruneLockfile (H := posix_path "/") (VRef 0) "packages/a" sample_internalDeps
    sample_registry None store_unusual_keys
  = Ok (VRef 8)
       (store_unusual_keys ++
        [ [("7", VStr "seven"); ("lockfileVersion", VStr "9.0");
           ("importers", VRef 9); ("overrides", VRef 3)];
          [("packages/a", VRef 4)] ]).
Proof.
  apply (pruneLockfile_without_relocation (H := posix_path "/")
           store_unusual_keys 0
           [("7", VStr "seven"); ("lockfileVersion", VStr "9.0");
            ("importers", VRef 1); ("__proto__", VRef 2); ("overrides", VRef 3)]
           1 [("packages/a", VRef 4)]
           "packages/a" sample_internalDeps sample_registry).
  - reflexivity.
  - reflexivity.
  - reflexivity.
  - apply distinct_keys_NoDup. reflexivity.
  - reflexivity.
  - apply distinct_keys_NoDup. reflexivity.
  - reflexivity.
Defined.

Lemma pruneLockfile_idempotent_without_relocation_witness :
  ∃ P I,
    pruneLockfile (H := posix_path "/") (VRef 0) "packages/a"
      sample_internalDeps sample_registry None sample_store
      = Ok (VRef 12) (sample_store ++ [P; I]) ∧
    pruneLockfile (H := posix_path "/") (VRef 12) "packages/a"
      sample_internalDeps sample_registry None (sample_store ++ [P; I])
      = Ok (VRef 14)
           ((sample_store ++ [P; I])
            ++ [obj_set P "importers" (VRef 15); I]).
Proof.
  destruct (pruneLockfile_idempotent_without_relocation (H := posix_path "/")
              sample_store 0
              [("lockfileVersion", VStr "9.0"); ("settings", VRef 11);
               ("importers", VRef 1); ("packages", VRef 7)]
              1
              [(".", VRef 2); ("packages/a", VRef 4); ("packages/b", VRef 10);
               ("packages/z", VRef 10)]
              "packages/a" sample_internalDeps sample_registry
              eq_refl eq_refl eq_refl)
    as (P & Imp & Hfirst & Hsecond).
  - apply distinct_keys_NoDup. reflexivity.
  - reflexivity.
  - unfold keys. simpl. intros Hin.
    repeat (apply elem_of_cons in Hin as [Hin|Hin]; [discriminate|]).
    by apply elem_of_nil in Hin.
  - apply distinct_keys_NoDup. reflexivity.
  - reflexivity.
  - exists P, Imp. split; [exact Hfirst|]. exact Hsecond.
Defined.

Lemma pruneLockfile_result_layout_witness :
  ∃ h',
    pruneLockfile (H := posix_path "/") (VRef 0) "packages/a"
      sample_internalDeps sample_registry (Some sample_context)
      store_unusual_keys
      = Ok (VRef 8) h' ∧
    h' !! 8 = Some [("7", VStr "seven"); ("lockfileVersion", VStr "9.0");
                    ("importers", VRef 9); ("overrides", VRef 3)].
Proof.
  destruct (pruneLockfile_result_layout (H := posix_path "/")
              store_unusual_keys 0
              [("7", VStr "seven"); ("lockfileVersion", VStr "9.0");
               ("importers", VRef 1); ("__proto__", VRef 2);
               ("overrides", VRef 3)]
              1 [("packages/a", VRef 4)]
              "packages/a" sample_internalDeps sample_registry
              (Some sample_context)
              eq_refl eq_refl eq_refl eq_refl eq_refl eq_refl)
    as (h' & Hrun & _ & _ & HP).
  exists h'. split; [exact Hrun|exact HP].
Defined.

Lemma pruneLockfile_keeps_target_witness :
  ∃ h' I,
    pruneLockfile (H := posix_path "/") (VRef 0) "packages/a"
      sample_internalDeps sample_registry (Some sample_context) sample_store
      = Ok (VRef 12) h' ∧
    h' !! 13 = Some I ∧ "." ∈ keys I.
Proof.
  destruct (pruneLockfile_keeps_target (H := posix_path "/") sample_store 0
              [("lockfileVersion", VStr "9.0"); ("settings", VRef 11);
               ("importers", VRef 1); ("packages", VRef 7)]
              1
              [(".", VRef 2); ("packages/a", VRef 4); ("packages/b", VRef 10);
               ("packages/z", VRef 10)]
              "packages/a" sample_internalDeps sample_registry
              (Some sample_context) eq_refl eq_refl eq_refl eq_refl eq_refl)
    as (h' & Imp & Hrun & HI & _ & Hdot).
  { apply list_elem_of_further, list_elem_of_here. }
  exists h', Imp. split; [exact Hrun|]. split; [exact HI|].
  apply Hdot; [by eexists|].
  intros depName pkg _ Hreg Hdir.
  unfold sample_registry in Hreg.
  apply lookup_singleton_Some in Hreg as [_ <-]. discriminate Hdir.
Defined.


Lemma pruneLockfile_rewritten_importer_shape_witness :
  ∃ h' I,
    pruneLockfile (H := posix_path "/") (VRef 0) "packages/a"
      sample_internalDeps sample_registry (Some sample_context) sample_store
      = Ok (VRef 12) h' ∧
    h' !! 13 = Some I ∧
    ∀ k v, (k, v) ∈ I →
      ∃ c copy, v = VRef c ∧ h' !! c = Some copy ∧
                "devDependencies" ∈ keys copy.
Proof.
  destruct (pruneLockfile_rewritten_importer_shape (H := posix_path "/")
              sample_store 0
              [("lockfileVersion", VStr "9.0"); ("settings", VRef 11);
               ("importers", VRef 1); ("packages", VRef 7)]
              1
              [(".", VRef 2); ("packages/a", VRef 4); ("packages/b", VRef 10);
               ("packages/z", VRef 10)]
              "packages/a" sample_internalDeps sample_registry sample_context
              eq_refl eq_refl eq_refl eq_refl eq_refl)
    as (h' & Imp & Hrun & HI & Hall).
  { discriminate. }
  exists h', Imp. split; [exact Hrun|]. split; [exact HI|].
  intros k v Hin.
  destruct (Hall k v Hin) as (p & lo & o & c & copy & _ & _ & Hv & Hc & Hcat & _).
  exists c, copy. split; [exact Hv|]. split; [exact Hc|].
  apply Hcat. apply list_elem_of_further, list_elem_of_here.
Defined.

(** ** A lockfile whose [importers] is falsy *)

(** X14: Not only a missing [importers] but any falsy one ([null], as an empty
    YAML value parses, or [undefined]) takes the early return: the result is
    a new object with the property list of the input, [importers] included,
    allocated after the abandoned [pruned] object, and nothing else
    changes. *)
Theorem pruneLockfile_falsy_importers `{PathApi} h l o targetRelativeDir
    internalDeps (registry : WorkspaceRegistry) rewriteContext :
  h !! l = Some o → truthy (field o "importers") = false →
  pruneLockfile (VRef l) targetRelativeDir internalDeps registry
    rewriteContext h
  = Ok (VRef (S (length h)))
       (h ++ [[("lockfileVersion", field o "lockfileVersion")]; o]).
Proof.
  intros Hl Himp.
  set (P := [("lockfileVersion", field o "lockfileVersion")]).
  assert (Hl' : (h ++ [P]) !! l = Some o) by (by apply lookup_app_l_Some).
  cut (wp (pruneLockfile (VRef l) targetRelativeDir internalDeps registry
             rewriteContext)
         (λ v h', v = VRef (S (length h)) ∧ h' = h ++ [P; o])
         no_throw h).
  { intros Hwp. apply wp_ok in Hwp as (v & h' & -> & -> & ->). done. }
  unfold pruneLockfile.
  apply wp_bind. eapply wp_get_prop; [exact Hl|].
  apply wp_bind, wp_alloc.
  apply wp_bind. eapply wp_get_prop; [exact Hl'|].
  rewrite Himp. simpl.
  apply wp_bind. eapply wp_spread; [exact Hl'|].
  apply wp_ret. split.
  - f_equal. rewrite length_app. simpl. lia.
  - by rewrite <- app_assoc.
Qed.

Lemma pruneLockfile_falsy_importers_witness :
  pruneLockfile (H := posix_path "/") (VRef 0) "packages/a" sample_internalDeps
    sample_registry (Some sample_context)
    [[("lockfileVersion", VNum (NFinite 54 (-1))); ("importers", VNull)]]
  = Ok (VRef 2)
       [[("lockfileVersion", VNum (NFinite 54 (-1))); ("importers", VNull)];
        [("lockfileVersion", VNum (NFinite 54 (-1)))];
        [("lockfileVersion", VNum (NFinite 54 (-1))); ("importers", VNull)]].
Proof.
  apply (pruneLockfile_falsy_importers (H := posix_path "/")
           [[("lockfileVersion", VNum (NFinite 54 (-1))); ("importers", VNull)]]
           0
           [("lockfileVersion", VNum (NFinite 54 (-1))); ("importers", VNull)]);
    reflexivity.
Defined.
